(** * NURBS evaluation kernel: a shallow embedding of
      [low_level_functions.cc] and [nrbsurfderiveval.cc]

    The sources compute on C++ [double]s.  The embedding is written once over
    an interface [Scalar] listing the operations the sources apply to a
    [double].  Two instances are given: the binary64 floats of the kernel,
    which is the number type of the sources and on which every definition
    runs, and the real numbers, the exact arithmetic in which the algorithms
    of the NURBS book are designed.  Statements that only depend on
    comparisons are proved for every instance obeying [OrderLaws] (binary64
    does); statements about exact values are proved for the instance [R].

    [int] and [octave_idx_type] values are indices and counts bounded by the
    sizes of the arrays at hand; they are modelled by [Z]. Signed overflow,
    undefined in C++, is outside the model. *)

From Stdlib Require Import String.
From Stdlib Require Import ZArith List Lia Bool Floats Reals Lra Psatz.
Import ListNotations.

(** ** The [double] interface *)

Declare Scope dbl_scope.
Delimit Scope dbl_scope with D.

Class Scalar (D : Type) : Type := {
  of_int : Z -> D;           (* (double) n; the literals 0.0 and 1.0 *)
  dadd : D -> D -> D;
  dsub : D -> D -> D;
  dmul : D -> D -> D;
  ddiv : D -> D -> D;
  dneg : D -> D;
  dltb : D -> D -> bool;     (* x <  y *)
  dleb : D -> D -> bool;     (* x <= y *)
  deqb : D -> D -> bool      (* x == y *)
}.

(** What [gammaln] and [bincoeff] take from <math.h>, and decimal literals:
    [dlit m e] is the literal with digits [m] and [e] decimal places. *)
Class MathLib (D : Type) : Type := {
  dlog : D -> D;
  dexp : D -> D;
  dfloor : D -> D;
  dlit : Z -> Z -> D
}.

Infix "+" := dadd : dbl_scope.
Infix "-" := dsub : dbl_scope.
Infix "*" := dmul : dbl_scope.
Infix "/" := ddiv : dbl_scope.
Notation "- x" := (dneg x) : dbl_scope.
Infix "<?" := dltb : dbl_scope.
Infix "<=?" := dleb : dbl_scope.
Infix "==?" := deqb (at level 70) : dbl_scope.
Notation "x >=? y" := (dleb y x) : dbl_scope.
Notation "0.0" := (of_int 0%Z) : dbl_scope.
Notation "1.0" := (of_int 1%Z) : dbl_scope.

(** The facts about comparisons that the knot search relies on.  They are
    stated so that IEEE comparisons satisfy them, NaN included: [x] is a
    number exactly when [x <= x]. *)
Class OrderLaws (D : Type) `{Scalar D} : Prop := {
  lt_not_ge : forall x y : D, (x <? y)%D = true -> (y <=? x)%D = false;
  le_number : forall x y : D, (x <=? y)%D = true ->
                (x <=? x)%D = true /\ (y <=? y)%D = true;
  not_le_lt : forall x y : D, (x <=? x)%D = true -> (y <=? y)%D = true ->
                (x <=? y)%D = false -> (y <? x)%D = true;
  not_lt_le : forall x y : D, (x <=? x)%D = true -> (y <=? y)%D = true ->
                (x <? y)%D = false -> (y <=? x)%D = true;
  le_neq_lt : forall x y : D, (x <=? y)%D = true -> (x ==? y)%D = false ->
                (x <? y)%D = true;
  le_trans : forall x y z : D, (x <=? y)%D = true -> (y <=? z)%D = true ->
                (x <=? z)%D = true
}.

(** ** Counting loops

    [for (i = lo; i <= hi; i++) body], where the body assigns neither [i]
    nor the bound. *)

Definition zrange (lo hi : Z) : list Z :=
  map (fun k => (lo + Z.of_nat k)%Z) (seq 0 (Z.to_nat (hi + 1 - lo))).

Definition for_loop {T : Type} (lo hi : Z) (body : Z -> T -> T) (s : T) : T :=
  fold_left (fun s i => body i s) (zrange lo hi) s.

(* The same loop around a body that may not return. *)
Definition for_loop_opt {T : Type} (lo hi : Z) (body : Z -> T -> option T)
  (s : T) : option T :=
  fold_left (fun os i => match os with Some s => body i s | None => None end)
    (zrange lo hi) (Some s).

(** ** Octave's dense arrays

    [RowVector], [Matrix] and [NDArray] hold their elements in one block, by
    columns.  Element access is unchecked in the sources; in the model a
    read outside the block gives [0.0] and a store outside it is dropped. *)

Section Arrays.
Context {D : Type} `{Scalar D}.
Local Open Scope Z_scope.

Definition RowVector := list D.

Definition elem (U : RowVector) (i : Z) : D :=
  if i <? 0 then 0.0%D else nth (Z.to_nat i) U 0.0%D.

Fixpoint upd_nat (U : RowVector) (i : nat) (x : D) : RowVector :=
  match U, i with
  | [], _ => []
  | _ :: t, O => x :: t
  | h :: t, S i' => h :: upd_nat t i' x
  end.

Definition upd (U : RowVector) (i : Z) (x : D) : RowVector :=
  if i <? 0 then U else upd_nat U (Z.to_nat i) x.

Definition numel (U : RowVector) : Z := Z.of_nat (length U).

(* RowVector v (n, x) *)
Definition filled (n : Z) (x : D) : RowVector := repeat x (Z.to_nat n).

Record Matrix : Type := { rows : Z; cols : Z; mdata : RowVector }.

(* Matrix m (r, c, x) *)
Definition mfilled (r c : Z) (x : D) : Matrix :=
  {| rows := r; cols := c; mdata := filled (r * c) x |}.

(* m(i, j) *)
Definition melem (m : Matrix) (i j : Z) : D := elem (mdata m) (i + j * rows m).

(* m(i): one index into the block *)
Definition melem1 (m : Matrix) (i : Z) : D := elem (mdata m) i.

(* m(i, j) = x *)
Definition mupd (m : Matrix) (i j : Z) (x : D) : Matrix :=
  {| rows := rows m; cols := cols m; mdata := upd (mdata m) (i + j * rows m) x |}.

Record NDArray : Type := { dims : list Z; nddata : RowVector }.

Fixpoint ndindex (ds idx : list Z) : Z :=
  match ds, idx with
  | d :: ds', i :: idx' => i + d * ndindex ds' idx'
  | _, _ => 0
  end.

Fixpoint ndsize (ds : list Z) : Z :=
  match ds with
  | [] => 1
  | d :: ds' => d * ndsize ds'
  end.

(* NDArray a (dims, x) *)
Definition ndfilled (ds : list Z) (x : D) : NDArray :=
  {| dims := ds; nddata := filled (ndsize ds) x |}.

(* a(idx), idx an Array<octave_idx_type> *)
Definition ndelem (a : NDArray) (idx : list Z) : D :=
  elem (nddata a) (ndindex (dims a) idx).

Definition ndupd (a : NDArray) (idx : list Z) (x : D) : NDArray :=
  {| dims := dims a; nddata := upd (nddata a) (ndindex (dims a) idx) x |}.

(* a.index (c, :, :).squeeze () of a [4 x n0 x n1] array, as a matrix *)
Definition plane (a : NDArray) (c : Z) : Matrix :=
  let d0 := nth 0 (dims a) 0 in
  let n0 := nth 1 (dims a) 0 in
  let n1 := nth 2 (dims a) 0 in
  {| rows := n0; cols := n1;
     mdata := map (fun t => elem (nddata a) (c + d0 * t)) (zrange 0 (n0 * n1 - 1)) |}.

End Arrays.

Arguments RowVector D : clear implicits.
Arguments Matrix D : clear implicits.
Arguments NDArray D : clear implicits.

(** ** [low_level_functions.cc] *)

Section LowLevel.
Context {D : Type} `{Scalar D}.
Local Open Scope Z_scope.

(** *** [findspan], algorithm A2.1 *)

(* One test of the loop condition and, when it holds, one run of the body
   on (low, high, mid).  [None]: the condition fails and the loop is left. *)
Definition findspan_step (u : D) (U : RowVector D) (st : Z * Z * Z)
  : option (Z * Z * Z) :=
  let '(low, high, mid) := st in
  if (u <? elem U mid)%D || (u >=? elem U (mid + 1))%D then
    let '(low, high) :=
      if (u <? elem U mid)%D then (low, mid) else (mid, high) in
    Some (low, high, Z.quot (low + high) 2)
  else None.

(* The [while] loop; [None] when it is still running after [fuel] tests. *)
Fixpoint findspan_loop (fuel : nat) (u : D) (U : RowVector D) (st : Z * Z * Z)
  : option Z :=
  match fuel with
  | O => None
  | S fuel' =>
      match findspan_step u U st with
      | Some st' => findspan_loop fuel' u U st'
      | None => Some (snd st)
      end
  end.

Definition findspan (fuel : nat) (n p : Z) (u : D) (U : RowVector D)
  : option Z :=
  if (u ==? elem U (n + 1))%D then Some n
  else
    let low := p in
    let high := n + 1 in
    let mid := Z.quot (low + high) 2 in
    findspan_loop fuel u U (low, high, mid).

(** *** [basisfun], algorithm A2.2 *)

Definition basisfun_inner (j : Z) (left' right' : RowVector D) (r : Z)
  (st : RowVector D * D) : RowVector D * D :=
  let '(N, saved) := st in
  let temp := (elem N r / (elem right' (r + 1) + elem left' (j - r)))%D in
  let N := upd N r (saved + elem right' (r + 1) * temp)%D in
  let saved := (elem left' (j - r) * temp)%D in
  (N, saved).

Definition basisfun_outer (i : Z) (u : D) (U : RowVector D) (j : Z)
  (st : RowVector D * RowVector D * RowVector D)
  : RowVector D * RowVector D * RowVector D :=
  let '(N, left', right') := st in
  let left' := upd left' j (u - elem U (i + 1 - j))%D in
  let right' := upd right' j (elem U (i + j) - u)%D in
  let saved := 0.0%D in
  let '(N, saved) :=
    for_loop 0 (j - 1) (basisfun_inner j left' right') (N, saved) in
  let N := upd N j saved in
  (N, left', right').

(* [N] is the caller's vector, overwritten in place and returned.  The work
   space [left], [right] (here [left'], [right']) is written at [j] before it is read there. *)
Definition basisfun (i : Z) (u : D) (p : Z) (U N : RowVector D) : RowVector D :=
  let left' := filled (p + 1) 0.0%D in
  let right' := filled (p + 1) 0.0%D in
  let N := upd N 0 1.0%D in
  let '(N, _, _) := for_loop 1 p (basisfun_outer i u U) (N, left', right') in
  N.

(** *** [bspeval]

    [error_state] is the interpreter's flag as the function finds it after
    converting its arguments; a call of [error] is recorded by its message.
    The matrix is what [retval(0)] holds on return. *)

Definition bspeval_msg : string :=
  "inconsistent bspline data, d + columns(c) != length(k) - 1.".

Definition bspeval_row (d : Z) (c : Matrix D) (N : RowVector D) (tmp1 col : Z)
  (row : Z) (p : Matrix D) : Matrix D :=
  let tmp2 :=
    for_loop 0 d (fun i tmp2 => (tmp2 + elem N i * melem c row (tmp1 + i))%D)
      0.0%D in
  mupd p row col tmp2.

Definition bspeval_col (fuel : nat) (d : Z) (c : Matrix D) (k u : RowVector D)
  (col : Z) (st : Matrix D * RowVector D) : option (Matrix D * RowVector D) :=
  let '(p, N) := st in
  match findspan fuel (cols c - 1) d (elem u col) k with
  | None => None
  | Some s =>
      let N := basisfun s (elem u col) d k N in
      let tmp1 := s - d in
      Some (for_loop 0 (rows c - 1) (bspeval_row d c N tmp1 col) p, N)
  end.

(* [None]: some call of [findspan] is still running when its fuel is spent *)
Definition bspeval (fuel : nat) (error_state : bool) (d : Z) (c : Matrix D)
  (k u : RowVector D) : option (Matrix D * list string) :=
  let nu := numel u in
  let mc := rows c in
  let nc := cols c in
  let p := mfilled mc nu 0.0%D in
  let N := filled (d + 1) 0.0%D in
  if negb error_state then
    if nc + d =? numel k - 1 then
      match for_loop_opt 0 (nu - 1) (bspeval_col fuel d c k u) (p, N) with
      | Some (p, _) => Some (p, [])
      | None => None
      end
    else Some (p, [bspeval_msg])
  else Some (p, []).

(** *** [bspderiv], algorithm A3.3

    The result lists what [retval(0)], [retval(1)] hold on return and the
    messages of the calls of [error]; the function has none. *)

Definition bspderiv_col (d : Z) (c : Matrix D) (k : RowVector D) (i : Z)
  (dc : Matrix D) : Matrix D :=
  let tmp := (of_int d / (elem k (i + d + 1) - elem k (i + 1)))%D in
  for_loop 0 (rows c - 1)
    (fun j dc => mupd dc j i (tmp * (melem c j (i + 1) - melem c j i))%D) dc.

Definition bspderiv (error_state : bool) (nargout : Z) (d : Z) (c : Matrix D)
  (k : RowVector D) : option (Matrix D) * option (RowVector D) * list string :=
  let mc := rows c in
  let nc := cols c in
  let nk := numel k in
  let dc := mfilled mc (nc - 1) 0.0%D in
  let dk := filled (nk - 2) 0.0%D in
  if negb error_state then
    let dc := for_loop 0 (nc - 2) (bspderiv_col d c k) dc in
    let dk := for_loop 1 (nk - 2) (fun i dk => upd dk (i - 1) (elem k i)) dk in
    (Some dc, if nargout >? 1 then Some dk else None, [])
  else (None, None, []).

End LowLevel.

(** ** BinomialTable: [gammaln], [factln], [bincoeff]

    Both source files hold the same three functions, each file with its own
    static cache. *)

Section Binomial.
Context {D : Type} `{Scalar D} `{MathLib D}.
Local Open Scope Z_scope.

Definition cof : RowVector D :=
  [ dlit 7618009172947146 14; dlit (-8650532032291677) 14;
    dlit 2401409824083091 14; dlit (-1231739572450155) 15;
    dlit 12086650973866179 19; dlit (-5395239384953) 18 ].

Definition gammaln (xx : D) : D :=
  let x := xx in
  let y := xx in
  let tmp := (x + dlit 55 1)%D in
  let tmp := (tmp - (x + dlit 5 1) * dlog tmp)%D in
  let ser := dlit 1000000000190015 15 in
  let '(ser, y) :=
    for_loop 0 5
      (fun j '(ser, y) => let y := (y + 1.0)%D in ((ser + elem cof j / y)%D, y))
      (ser, y) in
  (- tmp + dlog (dlit 25066282746310005 16 * ser / x))%D.

(** The statics of [factln]: [static int ntop = 0; static double a[101];] *)
Record factln_static : Type := { ntop : Z; a : RowVector D }.

Definition factln_init : factln_static :=
  {| ntop := 0; a := filled 101 0.0%D |}.

(** A computation that reads and writes the statics.  [a] has 101 cells
    and the sources index it unchecked: an access outside them is undefined
    in C++, and the model stops there with [OutOfBounds]. *)
Inductive outcome (A : Type) : Type :=
| Done (x : A)
| OutOfBounds.
Arguments Done {A} x.
Arguments OutOfBounds {A}.

Definition Cached (A : Type) : Type :=
  factln_static -> outcome (A * factln_static).

Definition ret {A : Type} (x : A) : Cached A := fun st => Done (x, st).

Definition bind {A B : Type} (m : Cached A) (f : A -> Cached B) : Cached B :=
  fun st =>
    match m st with
    | Done (x, st') => f x st'
    | OutOfBounds => OutOfBounds
    end.

Notation "x <- m ;; f" := (bind m (fun x => f))
  (at level 61, m at next level, right associativity).

Definition in_cache (i : Z) : bool := (0 <=? i) && (i <? 101).

(* [todo] runs of the body of  while (n > ntop) { ++ntop; a[ntop] = ...; },
   which runs n - ntop times *)
Fixpoint factln_fill (todo : nat) (st : factln_static)
  : outcome factln_static :=
  match todo with
  | O => Done st
  | S todo' =>
      let ntop' := ntop st + 1 in
      if in_cache ntop' then
        factln_fill todo'
          {| ntop := ntop';
             a := upd (a st) ntop' (gammaln (of_int ntop' + 1.0)%D) |}
      else OutOfBounds
  end.

Definition factln (n : Z) : Cached D :=
  fun st =>
    if n <=? 1 then Done (0.0%D, st)
    else
      match factln_fill (Z.to_nat (n - ntop st)) st with
      | Done st' =>
          if in_cache n then Done (elem (a st') n, st') else OutOfBounds
      | OutOfBounds => OutOfBounds
      end.

Definition bincoeff (n k : Z) : Cached D :=
  fn <- factln n ;;
  fk <- factln k ;;
  fnk <- factln (n - k) ;;
  ret (dfloor (dlit 5 1 + dexp (fn - fk - fnk)))%D.

(* A counting loop whose body uses the statics *)
Definition for_loop_c {T : Type} (lo hi : Z) (body : Z -> T -> Cached T)
  (s : T) : Cached T :=
  fold_left (fun m i => bind m (body i)) (zrange lo hi) (ret s).

(** ** [nrbsurfderiveval.cc], adaptation of algorithm A4.4 *)

(** The structure [srf] as the function reads it: [number] and [order]
    by direction, the two knot vectors, and the [4 x n0 x n1] array [coefs]
    of homogeneous coordinates. *)
Record nurbs : Type := {
  number : Z * Z;
  order : Z * Z;
  knots : RowVector D * RowVector D;
  coefs : NDArray D
}.

(** [surfderiveval] is declared in low_level_functions.h and defined outside
    these sources; it is a parameter of the model:
    [surfderiveval n p U m q V P u v d] is the matrix it stores in its last
    argument. *)
Variable surfderiveval :
  Z -> Z -> RowVector D -> Z -> Z -> RowVector D -> Matrix D -> D -> D -> Z ->
  Matrix D.

(* The loop  for (j = 1; j <= l; j++) v2 += bincoeff (l, j) * wders (i); *)
Definition v2_loop (wders : Matrix D) (l i : Z) : Cached D :=
  for_loop_c 1 l
    (fun j v2 => b <- bincoeff l j ;; ret (v2 + b * melem1 wders i)%D)
    0.0%D.

(* The body of the loop on [l]: lines 124 to 142 *)
Definition unweight (wders Aders : Matrix D) (idim iu k l : Z)
  (skl : NDArray D) : Cached (NDArray D) :=
  let v := melem Aders k l in
  v <- for_loop_c 1 l
         (fun j v =>
            b <- bincoeff l j ;;
            ret (v - b * melem wders 0 j * ndelem skl [idim; k; l; iu])%D)
         v ;;
  v <- for_loop_c 1 k
         (fun i v =>
            b <- bincoeff k i ;;
            let v := (v - b * melem wders i 0
                            * ndelem skl [idim; (k - i)%Z; l; iu])%D in
            v2 <- v2_loop wders l i ;;
            b <- bincoeff k i ;;
            ret (v - b * v2)%D)
         v ;;
  ret (ndupd skl [idim; k; l; iu] (v / melem wders 0 0)%D).

(* The loops on [k] and [l]: lines 120 to 144 *)
Definition unweight_all (d : Z) (wders Aders : Matrix D) (idim iu : Z)
  (skl : NDArray D) : Cached (NDArray D) :=
  for_loop_c 0 d
    (fun k skl => for_loop_c 0 (d - k) (unweight wders Aders idim iu k) skl)
    skl.

Definition nrbsurfderiveval_point (srf : nurbs) (uv : Matrix D) (d : Z)
  (iu : Z) (skl : NDArray D) : Cached (NDArray D) :=
  let n := fst (number srf) - 1 in
  let m := snd (number srf) - 1 in
  let p := fst (order srf) - 1 in
  let q := snd (order srf) - 1 in
  let knotsu := fst (knots srf) in
  let knotsv := snd (knots srf) in
  let weights := plane (coefs srf) 3 in
  let wders :=
    surfderiveval n p knotsu m q knotsv weights
      (melem uv 0 iu) (melem uv 1 iu) d in
  for_loop_c 0 2
    (fun idim skl =>
       let P := plane (coefs srf) idim in
       let Aders :=
         surfderiveval n p knotsu m q knotsv P
           (melem uv 0 iu) (melem uv 1 iu) d in
       unweight_all d wders Aders idim iu skl)
    skl.

(* [None] in the result: [retval] is left empty *)
Definition nrbsurfderiveval (error_state : bool) (srf : nurbs) (uv : Matrix D)
  (d : Z) : Cached (option (NDArray D)) :=
  if negb error_state then
    let skl := ndfilled [3; d + 1; d + 1; cols uv] 0.0%D in
    skl <- for_loop_c 0 (cols uv - 1) (nrbsurfderiveval_point srf uv d) skl ;;
    ret (Some skl)
  else ret None.

End Binomial.

Arguments Done {A} x.
Arguments OutOfBounds {A}.
Arguments factln_static D : clear implicits.
Arguments Cached D A : clear implicits.
Arguments nurbs D : clear implicits.

Notation "x <- m ;; f" := (bind m (fun x => f))
  (at level 61, m at next level, right associativity).

(** ** The binary64 instance: the sources' [double] *)

Definition float_of_int (z : Z) : float :=
  match z with
  | Z0 => PrimFloat.zero
  | Zpos _ => PrimFloat.of_uint63 (Uint63.of_Z z)
  | Zneg p => PrimFloat.opp (PrimFloat.of_uint63 (Uint63.of_Z (Zpos p)))
  end.

#[export] Instance float_Scalar : Scalar float := {
  of_int := float_of_int;
  dadd := PrimFloat.add;
  dsub := PrimFloat.sub;
  dmul := PrimFloat.mul;
  ddiv := PrimFloat.div;
  dneg := PrimFloat.opp;
  dltb := PrimFloat.ltb;
  dleb := PrimFloat.leb;
  deqb := PrimFloat.eqb
}.

(** ** The real instance: exact arithmetic *)

Definition R_ltb (x y : R) : bool := if Rlt_dec x y then true else false.
Definition R_leb (x y : R) : bool := if Rle_dec x y then true else false.
Definition R_eqb (x y : R) : bool := if Req_dec_T x y then true else false.

#[export] Instance R_Scalar : Scalar R := {
  of_int := IZR;
  dadd := Rplus;
  dsub := Rminus;
  dmul := Rmult;
  ddiv := Rdiv;
  dneg := Ropp;
  dltb := R_ltb;
  dleb := R_leb;
  deqb := R_eqb
}.

#[export] Instance R_MathLib : MathLib R := {
  dlog := ln;
  dexp := exp;
  dfloor := fun x => IZR (Zfloor x);
  dlit := fun m e => (IZR m / IZR (10 ^ e))%R
}.

(** ** Vocabulary of the statements *)

Section Vocabulary.
Context {D : Type} `{Scalar D}.
Local Open Scope Z_scope.

Definition le_d (x y : D) : Prop := (x <=? y)%D = true.
Definition lt_d (x y : D) : Prop := (x <? y)%D = true.

(* A knot vector is non-decreasing *)
Definition nondecreasing (U : RowVector D) : Prop :=
  forall i, 0 <= i -> i + 1 < numel U -> le_d (elem U i) (elem U (i + 1)).

(* A matrix whose block has rows x cols cells *)
Definition wf_matrix (m : Matrix D) : Prop :=
  0 <= rows m /\ 0 <= cols m /\ numel (mdata m) = rows m * cols m.

(* The sum of f(lo), ..., f(hi), accumulated from 0.0 in this order *)
Definition dsum (lo hi : Z) (f : Z -> D) : D :=
  for_loop lo hi (fun i acc => (acc + f i)%D) 0.0%D.

(* Two vectors of one length that hold the same values below index j *)
Definition agree (j : Z) (N N' : RowVector D) : Prop :=
  numel N = numel N' /\ forall r, 0 <= r < j -> elem N r = elem N' r.

(* The value the sources store in p(row, col) *)
Definition bspeval_entry (fuel : nat) (d : Z) (c : Matrix D)
  (k u : RowVector D) (p : Matrix D) (row col : Z) : Prop :=
  exists s,
    findspan fuel (cols c - 1) d (elem u col) k = Some s /\
    melem p row col =
    dsum 0 d (fun i =>
      (elem (basisfun s (elem u col) d k (filled (d + 1) 0.0%D)) i
       * melem c row (s - d + i))%D).

End Vocabulary.

Section CacheVocabulary.
Context {D : Type} `{Scalar D} `{MathLib D}.
Local Open Scope Z_scope.

(* The statics of [factln] as a run can find them: [ntop] cells of the 101
   are filled *)
Definition wf_cache (st : factln_static D) : Prop :=
  0 <= ntop st <= 100 /\ numel (a st) = 101.

(* [m] stays inside the cache from every such state, and its result
   satisfies [Q] *)
Definition safe {A : Type} (m : Cached D A) (Q : A -> Prop) : Prop :=
  forall st, wf_cache st ->
    exists x st', m st = Done (x, st') /\ wf_cache st' /\ Q x.

(* The array [skl] of a call with order [d] and [n] samples *)
Definition wf_skl (d n : Z) (skl : NDArray D) : Prop :=
  dims skl = [3; d + 1; d + 1; n] /\
  numel (nddata skl) = 3 * ((d + 1) * ((d + 1) * (n * 1))).

(* [wders] of a weight field that is 1 everywhere: the weight is 1 and its
   derivatives of order 1 to d vanish *)
Definition uniform_weights (d : Z) (wders : Matrix D) : Prop :=
  melem wders 0 0 = 1.0%D /\
  forall k l, 0 <= k <= d -> 0 <= l <= d -> 1 <= k + l ->
              melem wders k l = 0.0%D.

(** The body of the loop on [l] as section 4.6 of the specification words
    it: [skl(i,k,l-j)] in the first loop, [wders(r,j)] in the cross term.
    [binom] is [bincoeff]. *)
Definition unweight_doc (wders Aders : Matrix D) (idim iu k l : Z)
  (skl : NDArray D) : Cached D (NDArray D) :=
  let v := melem Aders k l in
  v <- for_loop_c 1 l
         (fun j v =>
            b <- bincoeff l j ;;
            ret (v - b * melem wders 0 j
                       * ndelem skl [idim; k; (l - j)%Z; iu])%D)
         v ;;
  v <- for_loop_c 1 k
         (fun r v =>
            b <- bincoeff k r ;;
            let v := (v - b * melem wders r 0
                            * ndelem skl [idim; (k - r)%Z; l; iu])%D in
            v2 <- for_loop_c 1 l
                    (fun j v2 =>
                       b <- bincoeff l j ;; ret (v2 + b * melem wders r j)%D)
                    0.0%D ;;
            b <- bincoeff k r ;;
            ret (v - b * v2)%D)
         v ;;
  ret (ndupd skl [idim; k; l; iu] (v / melem wders 0 0)%D).

(* The cells (i', k', l', u') of [skl] with k' + l' <= d that the loops
   have stored when they reach sample iu, dimension idim, orders k, l *)
Definition finished (d iu idim k l : Z) (i' k' l' u' : Z) : Prop :=
  k' + l' <= d /\
  (u' < iu \/
   (u' = iu /\
    (i' < idim \/ (i' = idim /\ (k' < k \/ (k' = k /\ l' < l)))))).

(* [skl] holds [V] in every cell stored so far *)
Definition skl_inv (d n : Z) (V : Z -> Z -> Z -> Z -> D) (iu idim k l : Z)
  (skl : NDArray D) : Prop :=
  wf_skl d n skl /\
  forall i' k' l' u',
    0 <= i' <= 2 -> 0 <= k' -> 0 <= l' -> 0 <= u' < n ->
    finished d iu idim k l i' k' l' u' ->
    ndelem skl [i'; k'; l'; u'] = V i' k' l' u'.

Section Ders.
Variable surfderiveval :
  Z -> Z -> RowVector D -> Z -> Z -> RowVector D -> Matrix D -> D -> D -> Z ->
  Matrix D.

(* What [nrbsurfderiveval] gets from [surfderiveval] at sample [iu] for the
   plane [c] of [coefs]: [wders] for c = 3, [Aders] for c = idim *)
Definition ders_of (srf : nurbs D) (uv : Matrix D) (d c iu : Z) : Matrix D :=
  surfderiveval (fst (number srf) - 1) (fst (order srf) - 1) (fst (knots srf))
    (snd (number srf) - 1) (snd (order srf) - 1) (snd (knots srf))
    (plane (coefs srf) c) (melem uv 0 iu) (melem uv 1 iu) d.

End Ders.

End CacheVocabulary.

(** ** Data of the tests *)

(* The knot vector of the test in low_level_functions.cc *)
Definition U_test : RowVector float := [0; 0; 0; 0.5; 1; 1; 1]%float.

(* The reference values of that test *)
#[warnings="-inexact-float"]
Definition Bref : list (RowVector float) :=
  [ [1.00000; 0.00000; 0.00000];
    [0.60494; 0.37037; 0.02469];
    [0.30864; 0.59259; 0.09877];
    [0.11111; 0.66667; 0.22222];
    [0.01235; 0.59259; 0.39506];
    [0.39506; 0.59259; 0.01235];
    [0.22222; 0.66667; 0.11111];
    [0.09877; 0.59259; 0.30864];
    [0.02469; 0.37037; 0.60494];
    [0.00000; 0.00000; 1.00000] ]%float.

(* A knot vector that is not clamped *)
Definition U_uniform : RowVector float := [0; 1; 2; 3; 4; 5; 6]%float.


(* Control points of a planar quadratic curve on [U_test], by columns *)
Definition c_test : Matrix float :=
  {| rows := 2; cols := 4; mdata := [0; 0; 1; 2; 3; 1; 4; 0]%float |}.

(* One control point short of what [U_test] and degree 2 ask for *)
Definition c_short : Matrix float :=
  {| rows := 2; cols := 3; mdata := [0; 0; 1; 2; 3; 1]%float |}.

Definition u_test : RowVector float := [0; 0.25; 1]%float.

(* The derivatives at (u, v) = (0, 0), up to order 2 and by columns, of the
   weight field W = 1 + u v and of the numerator field A = 1 + 5 u v of the
   rational surface x = A / W *)
Definition wders_bug : Matrix R :=
  {| rows := 3; cols := 3; mdata := [1; 0; 0; 0; 1; 0; 0; 0; 0]%R |}.

Definition Aders_bug : Matrix R :=
  {| rows := 3; cols := 3; mdata := [1; 0; 0; 0; 5; 0; 0; 0; 0]%R |}.

(* [skl] of a call with d = 2 and one sample, once the loops on k and l
   have passed the cell (0,1,1,0) *)
Definition passed_1_1 (k l : Z) (skl : NDArray R) : Prop :=
  wf_skl 2 1 skl /\
  ((1 < k \/ (k = 1 /\ 1 < l))%Z -> ndelem skl [0; 1; 1; 0]%Z = 5%R).

(* The knots of [U_test] as real numbers *)
Definition U_exact : RowVector R := [0; 0; 0; 1 / 2; 1; 1; 1]%R.

(* The derivatives of a field that is constant over the surface: the value
   P(0,0) at order (0,0) and 0 at every other order.  It stands for
   [surfderiveval] on the one-patch surface [srf_flat]. *)
Definition surfderiveval_const (n p : Z) (U : RowVector R) (m q : Z)
  (V : RowVector R) (P : Matrix R) (u v : R) (d : Z) : Matrix R :=
  {| rows := (d + 1)%Z; cols := (d + 1)%Z;
     mdata := upd (filled ((d + 1) * (d + 1))%Z 0%R) 0%Z (melem P 0%Z 0%Z) |}.

(* One control point (2, 3, 4) of weight 1 *)
Definition srf_flat : nurbs R :=
  {| number := (1, 1)%Z; order := (1, 1)%Z;
     knots := ([0; 1]%R, [0; 1]%R);
     coefs := {| dims := [4; 1; 1]%Z; nddata := [2; 3; 4; 1]%R |} |}.

Definition uv_one : Matrix R :=
  {| rows := 2; cols := 1; mdata := [0; 0]%R |}.

(** ** The interpreter entry points [findspan] and [basisfun]

    [DEFUN_DLD (findspan)] and [DEFUN_DLD (basisfun)] of
    low_level_functions.cc apply the two static functions to every sample of
    an array, here a vector, for which [u.length ()] is the number of its
    elements.  The spans reach [basisfun] as doubles and are converted by
    [int (...)]. *)

(* int (x): the conversion of a double to an int, truncating towards zero *)
Class ToInt (D : Type) : Type := { to_int : D -> Z }.

Section EntryPoints.
Context {D : Type} `{Scalar D} `{ToInt D}.
Local Open Scope Z_scope.

(* Octave's Matrix::insert (const RowVector& a, r, c): the cells
   (r, c), ..., (r, c + length(a) - 1) receive [a]; outside the matrix the
   library reports a range error and leaves the matrix as it is *)
Definition minsert (B : Matrix D) (a' : RowVector D) (r c : Z) : Matrix D :=
  if (r <? 0) || (rows B <=? r) || (c <? 0) || (cols B <? c + numel a')
  then B
  else for_loop 0 (numel a' - 1) (fun i B => mupd B r (c + i) (elem a' i)) B.

(* DEFUN_DLD (findspan): [retval(0)], if set, is the array of spans.  The
   outer [None]: some search is still running when its fuel is spent. *)
Definition findspan_oct (fuel : nat) (error_state : bool) (n p : Z)
  (u U : RowVector D) : option (option (RowVector D)) :=
  let s := u in
  if negb error_state then
    match
      for_loop_opt 0 (numel u - 1)
        (fun ii s =>
           match findspan fuel n p (elem u ii) U with
           | Some sp => Some (upd s ii (of_int sp))
           | None => None
           end)
        s
    with
    | Some s => Some (Some s)
    | None => None
    end
  else Some None.

Definition basisfun_oct_row (i u : RowVector D) (p : Z) (U : RowVector D)
  (ii : Z) (st : Matrix D * RowVector D) : Matrix D * RowVector D :=
  let '(B, N) := st in
  let N := basisfun (to_int (elem i ii)) (elem u ii) p U N in
  (minsert B N ii 0, N).

(* DEFUN_DLD (basisfun): [retval(0)], if set, is the matrix B with one row
   of basis functions per sample *)
Definition basisfun_oct (error_state : bool) (i u : RowVector D) (p : Z)
  (U : RowVector D) : option (Matrix D) :=
  let N := filled (p + 1) 0.0%D in
  let B := mfilled (numel u) (p + 1) 0.0%D in
  if negb error_state then
    Some (fst (for_loop 0 (numel u - 1) (basisfun_oct_row i u p U) (B, N)))
  else None.

End EntryPoints.

Definition float_to_int (f : float) : Z :=
  match Prim2SF f with
  | S754_finite s m e =>
      let z := if (0 <=? e)%Z then (Z.pos m * 2 ^ e)%Z
               else Z.quot (Z.pos m) (2 ^ (- e)) in
      if s then (- z)%Z else z
  | _ => 0%Z
  end.

#[export] Instance float_ToInt : ToInt float := { to_int := float_to_int }.

(* towards zero: the floor of a value >= 0, the ceiling of a negative one *)
Definition R_to_int (x : R) : Z :=
  if Rlt_dec x 0 then Zceil x else Zfloor x.

#[export] Instance R_ToInt : ToInt R := { to_int := R_to_int }.

(** ** Vocabulary of the further statements *)

Section SampleVocabulary.
Context {D : Type} `{Scalar D}.
Local Open Scope Z_scope.

(* The sum that [bspeval] stores for the sample [x] and the row [row], from
   the span [s] that [findspan] returned *)
Definition bspeval_value (d : Z) (c : Matrix D) (k : RowVector D) (x : D)
  (s row : Z) : D :=
  dsum 0 d (fun i =>
    (elem (basisfun s x d k (filled (d + 1) 0.0%D)) i
     * melem c row (s - d + i))%D).

End SampleVocabulary.

Section MoreVocabulary.
Context {D : Type} `{Scalar D} `{MathLib D}.
Local Open Scope Z_scope.

(* ln (n!) as [factln] computes it when nothing is cached *)
Definition factln_value (n : Z) : D :=
  if n <=? 1 then 0.0%D else gammaln (of_int n + 1.0)%D.

(* Every filled cell of the cache holds the value computed for its index *)
Definition cache_coherent (st : factln_static D) : Prop :=
  wf_cache st /\
  forall i, 1 <= i <= ntop st -> elem (a st) i = gammaln (of_int i + 1.0)%D.

(* [m] returns from every coherent cache, leaves it coherent, and its
   result satisfies [Q] *)
Definition coherently {A : Type} (m : Cached D A) (Q : A -> Prop) : Prop :=
  forall st, cache_coherent st ->
    exists x st', m st = Done (x, st') /\ cache_coherent st' /\ Q x.

(* What [bincoeff (n, k)] returns from a coherent cache *)
Definition binom_value (n k : Z) : D :=
  dfloor (dlit 5 1 + dexp (factln_value n - factln_value k
                             - factln_value (n - k)))%D.

(* What the body of the loop on [l] stores in skl(idim, k, l, iu) when it
   finds 0.0 in that cell and [prev i] in the cell (idim, k - i, l, iu) *)
Definition unweight_value (wders Aders : Matrix D) (k l : Z) (prev : Z -> D)
  : D :=
  let v := melem Aders k l in
  let v :=
    for_loop 1 l
      (fun j v => (v - binom_value l j * melem wders 0 j * 0.0)%D) v in
  let v :=
    for_loop 1 k
      (fun i v =>
         let v := (v - binom_value k i * melem wders i 0 * prev i)%D in
         let v2 :=
           for_loop 1 l
             (fun j v2 => (v2 + binom_value l j * melem1 wders i)%D) 0.0%D in
         (v - binom_value k i * v2)%D)
      v in
  (v / melem wders 0 0)%D.

(* Every cell of [skl] not stored yet holds 0.0, and every cell stored holds
   the value of [unweight_value] for the derivatives [W u], [A i u] of its
   sample and the cells of [skl] it refers to *)
Definition skl_state (d n : Z) (W : Z -> Matrix D) (A : Z -> Z -> Matrix D)
  (iu idim k l : Z) (skl : NDArray D) : Prop :=
  wf_skl d n skl /\
  forall i' k' l' u',
    0 <= i' <= 2 -> 0 <= k' <= d -> 0 <= l' <= d -> 0 <= u' < n ->
    (finished d iu idim k l i' k' l' u' ->
     ndelem skl [i'; k'; l'; u']
     = unweight_value (W u') (A i' u') k' l'
         (fun r => ndelem skl [i'; k' - r; l'; u'])) /\
    (~ finished d iu idim k l i' k' l' u' ->
     ndelem skl [i'; k'; l'; u'] = 0.0%D).

End MoreVocabulary.

(** ** Data of the further examples *)

(* One row of four equal control points, for [U_exact] and degree 2 *)
Definition c_level : Matrix R :=
  {| rows := 1; cols := 4; mdata := [7; 7; 7; 7]%R |}.

(* The samples of [u_test] as real numbers *)
Definition u_exact : RowVector R := [0; 1 / 4; 1]%R.

(** * Properties *)

(** ** Counting loops *)

Lemma zrange_nil (lo hi : Z) : (hi < lo)%Z -> zrange lo hi = [].
Proof.
  intros Hlt. unfold zrange.
  replace (Z.to_nat (hi + 1 - lo)) with O by lia. reflexivity.
Qed.

Lemma zrange_cons (lo hi : Z) :
  (lo <= hi)%Z -> zrange lo hi = lo :: zrange (lo + 1) hi.
Proof.
  intros Hle. unfold zrange.
  replace (Z.to_nat (hi + 1 - lo)) with (S (Z.to_nat (hi + 1 - (lo + 1)))) by lia.
  simpl. f_equal; [lia|].
  rewrite <- seq_shift, map_map. apply map_ext. intros k. lia.
Qed.

Lemma zrange_snoc (lo hi : Z) :
  (lo <= hi)%Z -> zrange lo hi = zrange lo (hi - 1) ++ [hi].
Proof.
  intros Hle. unfold zrange.
  replace (Z.to_nat (hi + 1 - lo)) with (Z.to_nat (hi - 1 + 1 - lo) + 1)%nat by lia.
  rewrite seq_app, map_app. simpl. do 2 f_equal. lia.
Qed.

Lemma in_zrange (lo hi i : Z) : In i (zrange lo hi) <-> (lo <= i <= hi)%Z.
Proof.
  unfold zrange. rewrite in_map_iff. split.
  - intros [k [Hk Hin]]. apply in_seq in Hin. lia.
  - intros Hi. exists (Z.to_nat (i - lo)). split; [lia|]. apply in_seq. lia.
Qed.

Lemma for_loop_nil {T : Type} (lo hi : Z) (body : Z -> T -> T) (s : T) :
  (hi < lo)%Z -> for_loop lo hi body s = s.
Proof. intros Hlt. unfold for_loop. rewrite zrange_nil by assumption. reflexivity. Qed.

Lemma for_loop_cons {T : Type} (lo hi : Z) (body : Z -> T -> T) (s : T) :
  (lo <= hi)%Z -> for_loop lo hi body s = for_loop (lo + 1) hi body (body lo s).
Proof. intros Hle. unfold for_loop. rewrite zrange_cons by assumption. reflexivity. Qed.

Lemma for_loop_snoc {T : Type} (lo hi : Z) (body : Z -> T -> T) (s : T) :
  (lo <= hi)%Z -> for_loop lo hi body s = body hi (for_loop lo (hi - 1) body s).
Proof.
  intros Hle. unfold for_loop. rewrite zrange_snoc by assumption.
  rewrite fold_left_app. reflexivity.
Qed.

(** The invariant rule: [P i s] holds of the state before iteration [i]. *)
Lemma for_loop_inv {T : Type} (P : Z -> T -> Prop) (lo hi : Z)
  (body : Z -> T -> T) (s : T) :
  (lo <= hi + 1)%Z ->
  P lo s ->
  (forall i s, (lo <= i <= hi)%Z -> P i s -> P (i + 1)%Z (body i s)) ->
  P (hi + 1)%Z (for_loop lo hi body s).
Proof.
  intros Hle H0 Hstep.
  assert (Hgen : forall n : nat, (lo + Z.of_nat n <= hi + 1)%Z ->
            P (lo + Z.of_nat n)%Z (for_loop lo (lo + Z.of_nat n - 1) body s)).
  { induction n as [|n IH]; intros Hn.
    - rewrite for_loop_nil by lia. replace (lo + Z.of_nat 0)%Z with lo by lia.
      exact H0.
    - rewrite for_loop_snoc by lia.
      replace (lo + Z.of_nat (S n))%Z with (lo + Z.of_nat n + 1)%Z by lia.
      replace (lo + Z.of_nat n + 1 - 1 - 1)%Z with (lo + Z.of_nat n - 1)%Z by lia.
      replace (lo + Z.of_nat n + 1 - 1)%Z with (lo + Z.of_nat n)%Z by lia.
      apply Hstep; [lia|]. apply IH. lia. }
  specialize (Hgen (Z.to_nat (hi + 1 - lo))).
  replace (lo + Z.of_nat (Z.to_nat (hi + 1 - lo)))%Z with (hi + 1)%Z in Hgen by lia.
  replace (hi + 1 - 1)%Z with hi in Hgen by lia.
  apply Hgen. lia.
Qed.

Lemma for_loop_ext {T : Type} (lo hi : Z) (f g : Z -> T -> T) (s : T) :
  (forall i s, (lo <= i <= hi)%Z -> f i s = g i s) ->
  for_loop lo hi f s = for_loop lo hi g s.
Proof.
  intros Hfg. unfold for_loop.
  assert (Hin : forall i, In i (zrange lo hi) -> (lo <= i <= hi)%Z)
    by (intros i; apply in_zrange).
  revert s. induction (zrange lo hi) as [|x l IH]; intros s; simpl.
  - reflexivity.
  - rewrite Hfg by (apply Hin; left; reflexivity).
    apply IH. intros i Hi. apply Hin. right. exact Hi.
Qed.

(** ** Arrays *)

Section ArrayFacts.
Context {D : Type} `{Scalar D}.
Local Open Scope Z_scope.

Lemma length_upd_nat (U : RowVector D) (i : nat) (x : D) :
  length (upd_nat U i x) = length U.
Proof.
  revert i. induction U as [|h t IH]; intros [|i]; simpl; auto.
Qed.

Lemma numel_upd (U : RowVector D) (i : Z) (x : D) : numel (upd U i x) = numel U.
Proof.
  unfold numel, upd. destruct (i <? 0); [reflexivity|].
  rewrite length_upd_nat. reflexivity.
Qed.

Lemma nth_upd_nat_same (U : RowVector D) (i : nat) (x d : D) :
  (i < length U)%nat -> nth i (upd_nat U i x) d = x.
Proof.
  revert i. induction U as [|h t IH]; intros [|i]; simpl; intros Hi;
    try lia; auto. apply IH. lia.
Qed.

Lemma nth_upd_nat_other (U : RowVector D) (i j : nat) (x d : D) :
  i <> j -> nth j (upd_nat U i x) d = nth j U d.
Proof.
  revert i j. induction U as [|h t IH]; intros [|i] [|j] Hij; simpl;
    try reflexivity; try congruence.
  apply IH. congruence.
Qed.

Lemma elem_upd_same (U : RowVector D) (i : Z) (x : D) :
  0 <= i < numel U -> elem (upd U i x) i = x.
Proof.
  unfold elem, upd, numel. intros Hi.
  destruct (i <? 0) eqn:E; [lia|]. apply nth_upd_nat_same. lia.
Qed.

Lemma elem_upd_other (U : RowVector D) (i j : Z) (x : D) :
  i <> j -> elem (upd U i x) j = elem U j.
Proof.
  unfold elem, upd. intros Hij.
  destruct (j <? 0) eqn:Ej; [reflexivity|].
  destruct (i <? 0) eqn:Ei; [reflexivity|].
  apply nth_upd_nat_other. lia.
Qed.

Lemma numel_filled (n : Z) (x : D) : numel (filled n x) = Z.max 0 n.
Proof. unfold numel, filled. rewrite repeat_length. lia. Qed.

Lemma elem_filled (n i : Z) : elem (filled n 0.0%D) i = 0.0%D.
Proof.
  unfold elem, filled. destruct (i <? 0); [reflexivity|].
  destruct (Nat.lt_ge_cases (Z.to_nat i) (Z.to_nat n)) as [Hlt|Hge].
  - apply nth_repeat_lt. exact Hlt.
  - apply nth_overflow. rewrite repeat_length. exact Hge.
Qed.

End ArrayFacts.

(** ** The instances obey the comparison laws *)

Lemma SFcompare_antisym (x y : spec_float) :
  SFcompare y x = option_map CompOpp (SFcompare x y).
Proof.
  destruct x as [sx|sx| |sx mx ex], y as [sy|sy| |sy my ey]; simpl;
    try reflexivity;
    try (destruct sx; reflexivity);
    try (destruct sy; reflexivity);
    try (destruct sx, sy; reflexivity).
  destruct sx, sy; simpl; try reflexivity;
    rewrite (Z.compare_antisym ex ey);
    destruct (ex ?= ey)%Z; simpl; try reflexivity;
    fold (Pos.compare my mx); fold (Pos.compare mx my);
    rewrite (Pos.compare_antisym mx my); reflexivity.
Qed.

Lemma SFcompare_refl_number (x y : spec_float) :
  SFcompare x y <> None -> SFcompare x x = Some Eq.
Proof.
  destruct x as [sx|sx| |sx mx ex]; simpl.
  - reflexivity.
  - destruct sx; reflexivity.
  - destruct y; simpl; congruence.
  - intros _. destruct sx; rewrite Z.compare_refl, Pos.compare_cont_refl; reflexivity.
Qed.

Lemma SFcompare_number (x y : spec_float) :
  SFcompare x x = Some Eq -> SFcompare y y = Some Eq -> SFcompare x y <> None.
Proof.
  destruct x as [sx|sx| |sx mx ex], y as [sy|sy| |sy my ey]; simpl;
    congruence.
Qed.

Lemma SFleb_refl_number (x : spec_float) :
  SFleb x x = true -> SFcompare x x = Some Eq.
Proof.
  unfold SFleb. intros Hle. apply (SFcompare_refl_number x x).
  destruct (SFcompare x x); congruence.
Qed.

Ltac cmp_cases :=
  repeat match goal with
    | |- context [(?a ?= ?b)%Z] =>
        destruct (Z.compare_spec a b); subst; simpl
    | H : context [(?a ?= ?b)%Z] |- _ =>
        destruct (Z.compare_spec a b); subst; simpl in H
    | |- context [Pos.compare_cont Eq ?a ?b] =>
        change (Pos.compare_cont Eq a b) with (Pos.compare a b);
        destruct (Pos.compare_spec a b); subst; simpl
    | H : context [Pos.compare_cont Eq ?a ?b] |- _ =>
        change (Pos.compare_cont Eq a b) with (Pos.compare a b) in H;
        destruct (Pos.compare_spec a b); subst; simpl in H
    end;
  try reflexivity; try discriminate; try lia.

Lemma SFleb_trans (x y z : spec_float) :
  SFleb x y = true -> SFleb y z = true -> SFleb x z = true.
Proof.
  unfold SFleb.
  destruct x as [sx|sx| |sx mx ex], y as [sy|sy| |sy my ey],
    z as [sz|sz| |sz mz ez]; simpl;
    try discriminate; try reflexivity;
    try (destruct sx; simpl; try discriminate; try reflexivity);
    try (destruct sy; simpl; try discriminate; try reflexivity);
    try (destruct sz; simpl; try discriminate; try reflexivity);
    intros Hxy Hyz; cmp_cases.
Qed.

Ltac float_cmp x y :=
  rewrite ?ltb_spec, ?leb_spec, ?eqb_spec in *;
  unfold SFltb, SFleb, SFeqb in *;
  try rewrite (SFcompare_antisym (Prim2SF x) (Prim2SF y)) in *;
  destruct (SFcompare (Prim2SF x) (Prim2SF y)) as [[ | | ]|];
  simpl in *; try congruence; auto.

#[export] Instance float_OrderLaws : OrderLaws float.
Proof.
  split; simpl.
  - intros x y. float_cmp x y.
  - intros x y Hle. rewrite !leb_spec in *. unfold SFleb in *.
    assert (Hxy : SFcompare (Prim2SF x) (Prim2SF y) <> None)
      by (destruct (SFcompare (Prim2SF x) (Prim2SF y)); congruence).
    assert (Hyx : SFcompare (Prim2SF y) (Prim2SF x) <> None)
      by (rewrite SFcompare_antisym;
          destruct (SFcompare (Prim2SF x) (Prim2SF y)); simpl; congruence).
    rewrite (SFcompare_refl_number _ _ Hxy), (SFcompare_refl_number _ _ Hyx).
    auto.
  - intros x y Hx Hy. rewrite !leb_spec in Hx, Hy.
    pose proof (SFcompare_number _ _ (SFleb_refl_number _ Hx)
                  (SFleb_refl_number _ Hy)) as Hxy.
    clear Hx Hy. float_cmp x y.
  - intros x y Hx Hy. rewrite !leb_spec in Hx, Hy.
    pose proof (SFcompare_number _ _ (SFleb_refl_number _ Hx)
                  (SFleb_refl_number _ Hy)) as Hxy.
    clear Hx Hy. float_cmp x y.
  - intros x y. float_cmp x y.
  - intros x y z. rewrite !leb_spec. apply SFleb_trans.
Qed.

Lemma R_ltb_true (x y : R) : R_ltb x y = true <-> (x < y)%R.
Proof. unfold R_ltb. destruct (Rlt_dec x y); split; intros; try lra; congruence. Qed.

Lemma R_ltb_false (x y : R) : R_ltb x y = false <-> (y <= x)%R.
Proof. unfold R_ltb. destruct (Rlt_dec x y); split; intros; try lra; congruence. Qed.

Lemma R_leb_true (x y : R) : R_leb x y = true <-> (x <= y)%R.
Proof. unfold R_leb. destruct (Rle_dec x y); split; intros; try lra; congruence. Qed.

Lemma R_leb_false (x y : R) : R_leb x y = false <-> (y < x)%R.
Proof. unfold R_leb. destruct (Rle_dec x y); split; intros; try lra; congruence. Qed.

Lemma R_eqb_true (x y : R) : R_eqb x y = true <-> x = y.
Proof. unfold R_eqb. destruct (Req_dec_T x y); split; intros; try lra; congruence. Qed.

Lemma R_eqb_false (x y : R) : R_eqb x y = false <-> x <> y.
Proof. unfold R_eqb. destruct (Req_dec_T x y); split; intros; try lra; congruence. Qed.

#[export] Instance R_OrderLaws : OrderLaws R.
Proof.
  split; simpl; intros;
    rewrite ?R_ltb_true, ?R_ltb_false, ?R_leb_true, ?R_leb_false,
      ?R_eqb_true, ?R_eqb_false in *; lra.
Qed.

(* Shows the operations of the real instance as those of [R] *)
Ltac r_ops :=
  cbn [dadd dsub dmul ddiv dneg of_int dltb dleb deqb R_Scalar
       dlog dexp dfloor dlit R_MathLib] in *.

(** ** [findspan] *)

Section FindSpanFacts.
Context {D : Type} `{Scalar D} {HO : OrderLaws D}.
Local Open Scope Z_scope.

Lemma nondecreasing_lt (U : RowVector D) (i j : Z) :
  nondecreasing U -> 0 <= i -> i < j -> j < numel U ->
  le_d (elem U i) (elem U j).
Proof.
  intros Hs Hi Hij Hj.
  assert (Hgen : forall k : nat, i + 1 + Z.of_nat k < numel U ->
            le_d (elem U i) (elem U (i + 1 + Z.of_nat k))).
  { induction k as [|k IH]; intros Hk.
    - replace (i + 1 + Z.of_nat 0) with (i + 1) by lia. apply Hs; lia.
    - apply (le_trans _ (elem U (i + 1 + Z.of_nat k))).
      + apply IH. lia.
      + replace (i + 1 + Z.of_nat (S k)) with (i + 1 + Z.of_nat k + 1) by lia.
        apply Hs; lia. }
  specialize (Hgen (Z.to_nat (j - i - 1))).
  replace (i + 1 + Z.of_nat (Z.to_nat (j - i - 1))) with j in Hgen by lia.
  apply Hgen. exact Hj.
Qed.

Lemma nondecreasing_number (U : RowVector D) (i : Z) :
  nondecreasing U -> 0 <= i -> i + 1 < numel U ->
  le_d (elem U i) (elem U i) /\ le_d (elem U (i + 1)) (elem U (i + 1)).
Proof. intros Hs Hi Hi'. apply le_number. apply Hs; assumption. Qed.

Lemma quot2_between (low high : Z) :
  0 <= low -> low < high ->
  low <= Z.quot (low + high) 2 < high /\
  (Z.quot (low + high) 2 = low -> high = low + 1).
Proof.
  intros Hlow Hlt. rewrite Z.quot_div_nonneg by lia.
  pose proof (Z.div_mod (low + high) 2 ltac:(lia)) as Hdm.
  pose proof (Z.mod_pos_bound (low + high) 2 ltac:(lia)) as Hmod.
  split; [|intros Heq]; lia.
Qed.

(** The search keeps [not (u < U(low))] and [u < U(high)]; [high - low]
    shrinks with every run of the body. *)
Lemma findspan_loop_returns (u : D) (U : RowVector D) (fuel : nat) :
  forall low high,
    0 <= low -> low < high ->
    (u <? elem U low)%D = false ->
    (u <? elem U high)%D = true ->
    (Z.to_nat (high - low) <= fuel)%nat ->
    exists s,
      findspan_loop fuel u U (low, high, Z.quot (low + high) 2) = Some s /\
      low <= s < high /\
      (u <? elem U s)%D = false /\ (u >=? elem U (s + 1))%D = false.
Proof.
  induction fuel as [|fuel IH]; intros low high Hlow Hlt Hl Hh Hfuel.
  - lia.
  - destruct (quot2_between low high Hlow Hlt) as [Hmid Hmid1].
    set (mid := Z.quot (low + high) 2) in *.
    simpl. unfold findspan_step.
    destruct (u <? elem U mid)%D eqn:E1; simpl.
    + (* high = mid *)
      assert (Hne : mid <> low) by (intros Heq; rewrite Heq in E1; congruence).
      destruct (IH low mid Hlow ltac:(lia) Hl E1 ltac:(lia))
        as [s [Hrun [Hrange Hexit]]].
      exists s. repeat split; try apply Hexit; try assumption; lia.
    + destruct (u >=? elem U (mid + 1))%D eqn:E2.
      * (* low = mid *)
        assert (Hne : mid <> low).
        { intros Heq. rewrite (Hmid1 Heq), <- Heq in Hh.
          apply lt_not_ge in Hh. congruence. }
        destruct (IH mid high ltac:(lia) ltac:(lia) E1 Hh ltac:(lia))
          as [s [Hrun [Hrange Hexit]]].
        exists s. repeat split; try apply Hexit; try assumption; lia.
      * exists mid. simpl. repeat split; try assumption; lia.
Qed.

Lemma findspan_special (fuel : nat) (n p : Z) (u : D) (U : RowVector D) :
  (u ==? elem U (n + 1))%D = true -> findspan fuel n p u U = Some n.
Proof. intros Heq. unfold findspan. rewrite Heq. reflexivity. Qed.

Lemma findspan_search (n p : Z) (u : D) (U : RowVector D) :
  nondecreasing U ->
  0 <= p < numel U -> 0 <= n + 1 < numel U ->
  le_d (elem U p) u -> lt_d u (elem U (n + 1)) ->
  (u ==? elem U (n + 1))%D = false ->
  exists s,
    (forall fuel, (Z.to_nat (n + 1 - p) <= fuel)%nat ->
                  findspan fuel n p u U = Some s) /\
    p <= s <= n /\ le_d (elem U s) u /\ lt_d u (elem U (s + 1)).
Proof.
  intros Hs Hp Hn Hpu Hun Hne.
  assert (Hlt : p < n + 1).
  { destruct (Z_lt_le_dec p (n + 1)) as [Hl|Hg]; [exact Hl|exfalso].
    apply lt_not_ge in Hun.
    destruct (Z.eq_dec p (n + 1)) as [He|Hd].
    - rewrite He in Hpu. unfold le_d in Hpu. congruence.
    - assert (Hnp : le_d (elem U (n + 1)) (elem U p))
        by (apply nondecreasing_lt; try assumption; lia).
      pose proof (le_trans _ _ _ Hnp Hpu) as Hc. unfold le_d in Hc. congruence. }
  assert (Hl : (u <? elem U p)%D = false).
  { destruct (u <? elem U p)%D eqn:E; [|reflexivity].
    apply lt_not_ge in E. unfold le_d in Hpu. congruence. }
  destruct (findspan_loop_returns u U (Z.to_nat (n + 1 - p)) p (n + 1)
              ltac:(lia) Hlt Hl Hun ltac:(lia))
    as [s [Hrun [Hrange [Hs1 Hs2]]]].
  exists s. split; [|split; [lia|]].
  - intros fuel Hfuel. unfold findspan. rewrite Hne.
    destruct (findspan_loop_returns u U fuel p (n + 1)
                ltac:(lia) Hlt Hl Hun Hfuel) as [s' [Hrun' _]].
    rewrite Hrun'. f_equal.
    (* more fuel never changes the answer *)
    clear - Hrun Hrun' Hfuel.
    revert Hrun Hrun'. generalize (p, n + 1, Z.quot (p + (n + 1)) 2).
    revert fuel Hfuel. induction (Z.to_nat (n + 1 - p)) as [|k IH];
      intros fuel Hfuel st Hrun Hrun'; [discriminate|].
    destruct fuel as [|fuel]; [lia|]. simpl in *.
    destruct (findspan_step u U st) as [st'|].
    + apply (IH fuel ltac:(lia) st'); assumption.
    + congruence.
  - assert (Hu : le_d u u) by (apply (le_number _ _ Hpu)).
    destruct (nondecreasing_number U s Hs ltac:(lia) ltac:(lia)) as [Hn1 Hn2].
    split.
    + apply not_lt_le; assumption.
    + apply not_le_lt; assumption.
Qed.

(* What a caller needs: in the domain the call returns *)
Lemma findspan_in_domain (fuel : nat) (n p : Z) (u : D) (U : RowVector D) :
  nondecreasing U ->
  0 <= p < numel U -> 0 <= n + 1 < numel U ->
  le_d (elem U p) u -> le_d u (elem U (n + 1)) ->
  (Z.to_nat (n + 1 - p) <= fuel)%nat ->
  exists s, findspan fuel n p u U = Some s.
Proof.
  intros Hs Hp Hn Hpu Hun Hfuel.
  destruct (u ==? elem U (n + 1))%D eqn:E.
  - exists n. apply findspan_special. exact E.
  - destruct (findspan_search n p u U Hs Hp Hn Hpu
                (le_neq_lt _ _ Hun E) E) as [s [Hrun _]].
    exists s. apply Hrun. exact Hfuel.
Qed.

(** C8.  For a non-decreasing knot vector [U], valid indices [p] and [n+1],
    and [U(p) <= u < U(n+1)], the binary search of [findspan] terminates:
    one result is returned for every supply of [n + 1 - p] loop tests or
    more.  Repeated knots are allowed. *)
Theorem findspan_terminates (n p : Z) (u : D) (U : RowVector D) :
  nondecreasing U ->
  0 <= p < numel U -> 0 <= n + 1 < numel U ->
  le_d (elem U p) u -> lt_d u (elem U (n + 1)) ->
  exists s, forall fuel, (Z.to_nat (n + 1 - p) <= fuel)%nat ->
                         findspan fuel n p u U = Some s.
Proof.
  intros Hs Hp Hn Hpu Hun.
  destruct (u ==? elem U (n + 1))%D eqn:E.
  - exists n. intros fuel _. apply findspan_special. exact E.
  - destruct (findspan_search n p u U Hs Hp Hn Hpu Hun E) as [s [Hrun _]].
    exists s. exact Hrun.
Qed.

(* From the lower end [U(p)] of the search: the call returns [n] when
   [u == U(n+1)], and otherwise the index [s] with [p <= s <= n] and
   [U(s) <= u < U(s+1)] *)
Lemma findspan_bracket (n p : Z) (u : D) (U : RowVector D) :
  nondecreasing U ->
  0 <= p < numel U -> 0 <= n + 1 < numel U ->
  le_d (elem U p) u -> le_d u (elem U (n + 1)) ->
  exists s,
    (forall fuel, (Z.to_nat (n + 1 - p) <= fuel)%nat ->
                  findspan fuel n p u U = Some s) /\
    if (u ==? elem U (n + 1))%D then s = n
    else p <= s <= n /\ le_d (elem U s) u /\ lt_d u (elem U (s + 1)).
Proof.
  intros Hs Hp Hn Hpu Hun.
  destruct (u ==? elem U (n + 1))%D eqn:E.
  - exists n. split; [|reflexivity].
    intros fuel _. apply findspan_special. exact E.
  - apply findspan_search; try assumption.
    apply le_neq_lt; assumption.
Qed.

(** C2.  For valid input: a non-decreasing knot vector [U] whose first
    [p + 1] knots are equal (a clamped vector; with the order of the knots
    this is [U(p) <= U(0)]), valid indices [p] and [n+1], and
    [U(0) <= u <= U(n+1)], [findspan] returns: it returns [n] when
    [u == U(n+1)], and otherwise the index [s] with [p <= s <= n] and
    [U(s) <= u < U(s+1)]. *)
Theorem findspan_correct (n p : Z) (u : D) (U : RowVector D) :
  nondecreasing U ->
  0 <= p < numel U -> 0 <= n + 1 < numel U ->
  le_d (elem U p) (elem U 0) ->
  le_d (elem U 0) u -> le_d u (elem U (n + 1)) ->
  exists s,
    (forall fuel, (Z.to_nat (n + 1 - p) <= fuel)%nat ->
                  findspan fuel n p u U = Some s) /\
    if (u ==? elem U (n + 1))%D then s = n
    else p <= s <= n /\ le_d (elem U s) u /\ lt_d u (elem U (s + 1)).
Proof.
  intros Hs Hp Hn Hclamp Hlo Hhi.
  assert (Hpu : le_d (elem U p) u)
    by (apply (le_trans _ (elem U 0)); assumption).
  apply findspan_bracket; assumption.
Qed.

End FindSpanFacts.

(** *** Runs on binary64 *)

Lemma U_test_nondecreasing : nondecreasing U_test.
Proof.
  intros i Hlo Hhi. change (numel U_test) with 7%Z in Hhi.
  assert (Hi : (i = 0 \/ i = 1 \/ i = 2 \/ i = 3 \/ i = 4 \/ i = 5)%Z) by lia.
  destruct Hi as [Hi|[Hi|[Hi|[Hi|[Hi|Hi]]]]]; subst i; vm_compute; reflexivity.
Defined.

Lemma U_uniform_nondecreasing : nondecreasing U_uniform.
Proof.
  intros i Hlo Hhi. change (numel U_uniform) with 7%Z in Hhi.
  assert (Hi : (i = 0 \/ i = 1 \/ i = 2 \/ i = 3 \/ i = 4 \/ i = 5)%Z) by lia.
  destruct Hi as [Hi|[Hi|[Hi|[Hi|[Hi|Hi]]]]]; subst i; vm_compute; reflexivity.
Defined.

(* The test of the sources: spans of linspace (0, 1, 10) *)
Example findspan_test :
  map (fun i => findspan 3 3 2 (float_of_int i / 9)%float U_test) (zrange 0 9)
  = map Some [2; 2; 2; 2; 2; 3; 3; 3; 3; 3]%Z.
Proof. vm_compute. reflexivity. Qed.

Lemma findspan_terminates_witness :
  exists s, forall fuel, (Z.to_nat (3 + 1 - 2) <= fuel)%nat ->
                         findspan fuel 3 2 0.75%float U_test = Some s.
Proof.
  apply (@findspan_terminates float _ _ 3 2 0.75%float U_test).
  - exact U_test_nondecreasing.
  - vm_compute. split; [discriminate | reflexivity].
  - vm_compute. split; [discriminate | reflexivity].
  - vm_compute. reflexivity.
  - vm_compute. reflexivity.
Defined.

Lemma findspan_correct_witness :
  exists s,
    (forall fuel, (Z.to_nat (3 + 1 - 2) <= fuel)%nat ->
                  findspan fuel 3 2 0.75%float U_test = Some s) /\
    (2 <= s <= 3)%Z /\ le_d (elem U_test s) 0.75%float
    /\ lt_d 0.75%float (elem U_test (s + 1)).
Proof.
  assert (Hp : (0 <= 2 < numel U_test)%Z)
    by (vm_compute; split; [discriminate | reflexivity]).
  assert (Hn : (0 <= 3 + 1 < numel U_test)%Z)
    by (vm_compute; split; [discriminate | reflexivity]).
  assert (Hclamp : le_d (elem U_test 2) (elem U_test 0))
    by (vm_compute; reflexivity).
  assert (Hlo : le_d (elem U_test 0) 0.75%float) by (vm_compute; reflexivity).
  assert (Hhi : le_d 0.75%float (elem U_test (3 + 1))) by (vm_compute; reflexivity).
  exact (@findspan_correct float _ _ 3 2 0.75%float U_test
           U_test_nondecreasing Hp Hn Hclamp Hlo Hhi).
Defined.

Lemma findspan_stuck (fuel : nat) :
  findspan_loop fuel 0.5%float U_uniform (2, 2, 2)%Z = None.
Proof.
  induction fuel as [|fuel IH]; [reflexivity|].
  change (findspan_loop (S fuel) 0.5%float U_uniform (2, 2, 2)%Z)
    with (match findspan_step 0.5%float U_uniform (2, 2, 2)%Z with
          | Some st' => findspan_loop fuel 0.5%float U_uniform st'
          | None => Some 2%Z
          end).
  replace (findspan_step 0.5%float U_uniform (2, 2, 2)%Z)
    with (Some (2, 2, 2)%Z) by (vm_compute; reflexivity).
  exact IH.
Qed.

(* Why the clamp is asked for: [U_uniform] is non-decreasing, has
   n + p + 2 knots for n = 3 and p = 2, and [U(0) <= 0.5 <= U(n+1)], but its
   first p + 1 knots differ and 0.5 lies below [U(p)]: the search for 0.5
   never returns.  After two runs of the body low = high = mid = 2, and the
   body leaves that state as it is. *)
Lemma findspan_unclamped_diverges :
  nondecreasing U_uniform /\
  numel U_uniform = (3 + 2 + 2)%Z /\
  le_d (elem U_uniform 0) 0.5%float /\
  le_d 0.5%float (elem U_uniform (3 + 1)) /\
  forall fuel, findspan fuel 3 2 0.5%float U_uniform = None.
Proof.
  split; [exact U_uniform_nondecreasing|].
  repeat split.
  intros fuel. unfold findspan.
  replace (0.5%float ==? elem U_uniform (3 + 1)%Z)%D with false
    by (vm_compute; reflexivity).
  change (Z.quot (2 + (3 + 1)) 2) with 3%Z. change (3 + 1)%Z with 4%Z.
  destruct fuel as [|[|fuel]]; try reflexivity.
  change (findspan_loop (S (S fuel)) 0.5%float U_uniform (2, 4, 3)%Z)
    with (match findspan_step 0.5%float U_uniform (2, 4, 3)%Z with
          | Some st' =>
              match findspan_step 0.5%float U_uniform st' with
              | Some st'' => findspan_loop fuel 0.5%float U_uniform st''
              | None => Some (snd st')
              end
          | None => Some 3%Z
          end).
  replace (findspan_step 0.5%float U_uniform (2, 4, 3)%Z)
    with (Some (2, 3, 2)%Z) by (vm_compute; reflexivity).
  replace (findspan_step 0.5%float U_uniform (2, 3, 2)%Z)
    with (Some (2, 2, 2)%Z) by (vm_compute; reflexivity).
  apply findspan_stuck.
Qed.

(** ** Matrices *)

Section MatrixFacts.
Context {D : Type} `{Scalar D}.
Local Open Scope Z_scope.

Lemma cell_inj (r i j i' j' : Z) :
  0 <= i < r -> 0 <= i' < r -> i + j * r = i' + j' * r -> i = i' /\ j = j'.
Proof. intros Hi Hi' Heq. assert (j = j') by nia. split; [nia | assumption]. Qed.

Lemma cell_range (r c i j : Z) :
  0 <= i < r -> 0 <= j < c -> 0 <= i + j * r < r * c.
Proof. intros Hi Hj. split; nia. Qed.

Lemma melem_mupd_same (m : Matrix D) (i j : Z) (x : D) :
  wf_matrix m -> 0 <= i < rows m -> 0 <= j < cols m ->
  melem (mupd m i j x) i j = x.
Proof.
  intros [Hr [Hc Hn]] Hi Hj. unfold melem, mupd. simpl.
  apply elem_upd_same. rewrite Hn. apply cell_range; assumption.
Qed.

Lemma melem_mupd_other (m : Matrix D) (i j i' j' : Z) (x : D) :
  0 <= i < rows m -> 0 <= i' < rows m -> (i, j) <> (i', j') ->
  melem (mupd m i j x) i' j' = melem m i' j'.
Proof.
  intros Hi Hi' Hne. unfold melem, mupd. simpl.
  apply elem_upd_other. intros Heq.
  destruct (cell_inj (rows m) i j i' j' Hi Hi' Heq). congruence.
Qed.

Lemma wf_mupd (m : Matrix D) (i j : Z) (x : D) :
  wf_matrix m -> wf_matrix (mupd m i j x).
Proof.
  intros [Hr [Hc Hn]]. unfold wf_matrix, mupd. simpl.
  rewrite numel_upd. auto.
Qed.

Lemma wf_mfilled (r c : Z) (x : D) :
  0 <= r -> 0 <= c -> wf_matrix (mfilled r c x).
Proof.
  intros Hr Hc. unfold wf_matrix, mfilled. simpl.
  rewrite numel_filled. repeat split; try assumption. nia.
Qed.

Lemma melem_mfilled (r c i j : Z) : melem (mfilled r c 0.0%D) i j = 0.0%D.
Proof. unfold melem, mfilled. simpl. apply elem_filled. Qed.

End MatrixFacts.

Lemma for_loop_opt_nil {T : Type} (lo hi : Z) (body : Z -> T -> option T) (s : T) :
  (hi < lo)%Z -> for_loop_opt lo hi body s = Some s.
Proof. intros Hlt. unfold for_loop_opt. rewrite zrange_nil by assumption. reflexivity. Qed.

Lemma for_loop_opt_snoc {T : Type} (lo hi : Z) (body : Z -> T -> option T) (s : T) :
  (lo <= hi)%Z ->
  for_loop_opt lo hi body s =
  match for_loop_opt lo (hi - 1) body s with
  | Some s' => body hi s'
  | None => None
  end.
Proof.
  intros Hle. unfold for_loop_opt. rewrite zrange_snoc by assumption.
  rewrite fold_left_app. reflexivity.
Qed.

Lemma for_loop_opt_inv {T : Type} (P : Z -> T -> Prop) (lo hi : Z)
  (body : Z -> T -> option T) (s : T) :
  (lo <= hi + 1)%Z ->
  P lo s ->
  (forall i s, (lo <= i <= hi)%Z -> P i s ->
               exists s', body i s = Some s' /\ P (i + 1)%Z s') ->
  exists s', for_loop_opt lo hi body s = Some s' /\ P (hi + 1)%Z s'.
Proof.
  intros Hle H0 Hstep.
  assert (Hgen : forall n : nat, (lo + Z.of_nat n <= hi + 1)%Z ->
            exists s', for_loop_opt lo (lo + Z.of_nat n - 1) body s = Some s' /\
                       P (lo + Z.of_nat n)%Z s').
  { induction n as [|n IH]; intros Hn.
    - exists s. rewrite for_loop_opt_nil by lia.
      replace (lo + Z.of_nat 0)%Z with lo by lia. auto.
    - destruct (IH ltac:(lia)) as [s1 [Hrun HP]].
      rewrite for_loop_opt_snoc by lia.
      replace (lo + Z.of_nat (S n) - 1 - 1)%Z with (lo + Z.of_nat n - 1)%Z by lia.
      rewrite Hrun.
      replace (lo + Z.of_nat (S n) - 1)%Z with (lo + Z.of_nat n)%Z by lia.
      replace (lo + Z.of_nat (S n))%Z with (lo + Z.of_nat n + 1)%Z by lia.
      apply Hstep; [lia | exact HP]. }
  specialize (Hgen (Z.to_nat (hi + 1 - lo))).
  replace (lo + Z.of_nat (Z.to_nat (hi + 1 - lo)))%Z with (hi + 1)%Z in Hgen by lia.
  replace (hi + 1 - 1)%Z with hi in Hgen by lia.
  apply Hgen. lia.
Qed.

(** ** [basisfun]: shape of the result *)

Lemma for_loop_inv2 {T T' : Type} (P : Z -> T -> T' -> Prop) (lo hi : Z)
  (body : Z -> T -> T) (body' : Z -> T' -> T') (s : T) (s' : T') :
  (lo <= hi + 1)%Z ->
  P lo s s' ->
  (forall i s s', (lo <= i <= hi)%Z -> P i s s' ->
                  P (i + 1)%Z (body i s) (body' i s')) ->
  P (hi + 1)%Z (for_loop lo hi body s) (for_loop lo hi body' s').
Proof.
  intros Hle H0 Hstep.
  assert (Hgen : forall n : nat, (lo + Z.of_nat n <= hi + 1)%Z ->
            P (lo + Z.of_nat n)%Z (for_loop lo (lo + Z.of_nat n - 1) body s)
              (for_loop lo (lo + Z.of_nat n - 1) body' s')).
  { induction n as [|n IH]; intros Hn.
    - rewrite !for_loop_nil by lia. replace (lo + Z.of_nat 0)%Z with lo by lia.
      exact H0.
    - rewrite (for_loop_snoc lo (lo + Z.of_nat (S n) - 1) body),
        (for_loop_snoc lo (lo + Z.of_nat (S n) - 1) body') by lia.
      replace (lo + Z.of_nat (S n))%Z with (lo + Z.of_nat n + 1)%Z by lia.
      replace (lo + Z.of_nat n + 1 - 1 - 1)%Z with (lo + Z.of_nat n - 1)%Z by lia.
      replace (lo + Z.of_nat n + 1 - 1)%Z with (lo + Z.of_nat n)%Z by lia.
      apply Hstep; [lia|]. apply IH. lia. }
  specialize (Hgen (Z.to_nat (hi + 1 - lo))).
  replace (lo + Z.of_nat (Z.to_nat (hi + 1 - lo)))%Z with (hi + 1)%Z in Hgen by lia.
  replace (hi + 1 - 1)%Z with hi in Hgen by lia.
  apply Hgen. lia.
Qed.

Section BasisShape.
Context {D : Type} `{Scalar D}.
Local Open Scope Z_scope.

Lemma elem_upd (U : RowVector D) (i j : Z) (x : D) :
  elem (upd U i x) j =
  if (i =? j) && (0 <=? i) && (i <? numel U) then x else elem U j.
Proof.
  destruct (Z.eqb_spec i j) as [Heq|Hne]; simpl.
  - subst j. destruct (Z.leb_spec 0 i) as [H0|H0]; simpl.
    + destruct (Z.ltb_spec i (numel U)) as [H1|H1].
      * apply elem_upd_same. lia.
      * unfold elem, upd. destruct (i <? 0); [reflexivity|].
        rewrite !nth_overflow; try reflexivity; try rewrite length_upd_nat;
          unfold numel in H1; lia.
    + unfold elem, upd. destruct (Z.ltb_spec i 0); [reflexivity | lia].
  - apply elem_upd_other. exact Hne.
Qed.

Lemma elem_ext (U V : RowVector D) :
  numel U = numel V ->
  (forall i, 0 <= i < numel U -> elem U i = elem V i) -> U = V.
Proof.
  unfold numel. intros Hlen Hel.
  apply (nth_ext U V 0.0%D 0.0%D); [lia|].
  intros n Hn. specialize (Hel (Z.of_nat n) ltac:(lia)).
  unfold elem in Hel. destruct (Z.ltb_spec (Z.of_nat n) 0); [lia|].
  rewrite Nat2Z.id in Hel. exact Hel.
Qed.

Lemma elem_outside (U : RowVector D) (i : Z) :
  ~ (0 <= i < numel U) -> elem U i = 0.0%D.
Proof.
  unfold elem, numel. intros Hi. destruct (Z.ltb_spec i 0); [reflexivity|].
  apply nth_overflow. lia.
Qed.

Lemma numel_basisfun_inner (j : Z) (l r : RowVector D) (lo hi : Z)
  (N : RowVector D) (saved : D) :
  numel (fst (for_loop lo hi (basisfun_inner j l r) (N, saved))) = numel N.
Proof.
  destruct (Z_lt_le_dec hi (lo - 1)) as [Hlt|Hle].
  - rewrite for_loop_nil by lia. reflexivity.
  - apply (for_loop_inv (fun _ st => numel (fst st) = numel N)); try lia.
    + reflexivity.
    + intros i [N1 s1] _ HN. simpl in *. rewrite numel_upd. exact HN.
Qed.

Lemma numel_basisfun (i : Z) (u : D) (p : Z) (U N : RowVector D) :
  numel (basisfun i u p U N) = numel N.
Proof.
  unfold basisfun.
  destruct (for_loop 1 p (basisfun_outer i u U)
              (upd N 0 1.0%D, filled (p + 1) 0.0%D, filled (p + 1) 0.0%D))
    as [[N1 l1] r1] eqn:E.
  change N1 with (fst (fst (N1, l1, r1))). rewrite <- E. clear E.
  destruct (Z_lt_le_dec p 0) as [Hlt|Hle].
  - rewrite for_loop_nil by lia. simpl. apply numel_upd.
  - apply (for_loop_inv (fun _ st => numel (fst (fst st)) = numel N)); try lia.
    + simpl. apply numel_upd.
    + intros j [[N2 l2] r2] _ HN. simpl in *.
      pose proof (numel_basisfun_inner j
                    (upd l2 j (u - elem U (i + 1 - j))%D)
                    (upd r2 j (elem U (i + j) - u)%D) 0 (j - 1) N2 0.0%D) as Hin.
      destruct (for_loop 0 (j - 1) _ (N2, 0.0%D)) as [N3 s3]. simpl in *.
      rewrite numel_upd. congruence.
Qed.

(** Every cell below [j] of [N] is written before it is read: the result
    does not depend on what the caller left in [N]. *)

Lemma agree_upd (j t : Z) (N N' : RowVector D) (x : D) :
  agree j N N' -> agree j (upd N t x) (upd N' t x).
Proof.
  intros [Hlen Hag]. split; [rewrite !numel_upd; exact Hlen|].
  intros r Hr. rewrite !elem_upd, Hlen.
  destruct ((t =? r) && (0 <=? t) && (t <? numel N')); auto.
Qed.

Lemma agree_upd_next (j : Z) (N N' : RowVector D) (x : D) :
  agree j N N' -> agree (j + 1) (upd N j x) (upd N' j x).
Proof.
  intros [Hlen Hag]. split; [rewrite !numel_upd; exact Hlen|].
  intros r Hr. rewrite !elem_upd, Hlen.
  destruct (Z.eqb_spec j r) as [Heq|Hne]; simpl.
  - destruct ((0 <=? j) && (j <? numel N')) eqn:E; [reflexivity|].
    subst r. rewrite !elem_outside; try reflexivity; lia.
  - apply Hag. lia.
Qed.

Lemma basisfun_inner_agree (j : Z) (l r : RowVector D) (N N' : RowVector D) :
  agree j N N' ->
  let st := for_loop 0 (j - 1) (basisfun_inner j l r) (N, 0.0%D) in
  let st' := for_loop 0 (j - 1) (basisfun_inner j l r) (N', 0.0%D) in
  agree j (fst st) (fst st') /\ snd st = snd st'.
Proof.
  intros Hag. simpl.
  destruct (Z_lt_le_dec j 0) as [Hlt|Hle].
  - rewrite !for_loop_nil by lia. simpl. auto.
  - apply (for_loop_inv2
             (fun t st st' => agree j (fst st) (fst st') /\ snd st = snd st'));
      try lia.
    + simpl. auto.
    + intros t [N1 s1] [N2 s2] Ht [Hag1 Hs]. simpl in *. subst s2.
      destruct Hag1 as [Hlen Hel].
      rewrite (Hel t ltac:(lia)). split; [|reflexivity].
      apply agree_upd. split; assumption.
Qed.

Lemma basisfun_indep (i : Z) (u : D) (p : Z) (U N N' : RowVector D) :
  0 <= p -> numel N = p + 1 -> numel N' = p + 1 ->
  basisfun i u p U N = basisfun i u p U N'.
Proof.
  intros Hp HN HN'.
  assert (Hag : agree (p + 1) (basisfun i u p U N) (basisfun i u p U N')).
  { unfold basisfun.
    set (l0 := filled (p + 1) 0.0%D).
    pose proof (for_loop_inv2
      (fun j (st st' : RowVector D * RowVector D * RowVector D) =>
         agree j (fst (fst st)) (fst (fst st')) /\
         snd (fst st) = snd (fst st') /\ snd st = snd st')
      1 p (basisfun_outer i u U) (basisfun_outer i u U)
      (upd N 0 1.0%D, l0, l0) (upd N' 0 1.0%D, l0, l0) ltac:(lia)) as Hloop.
    destruct (for_loop 1 p (basisfun_outer i u U) (upd N 0 1.0%D, l0, l0))
      as [[N1 l1] r1].
    destruct (for_loop 1 p (basisfun_outer i u U) (upd N' 0 1.0%D, l0, l0))
      as [[N2 l2] r2].
    simpl in Hloop. apply Hloop.
    - repeat split; try reflexivity.
      + rewrite !numel_upd. congruence.
      + intros r Hr. assert (r = 0) by lia. subst r.
        rewrite !elem_upd, HN, HN'.
        destruct (Z.ltb_spec 0 (p + 1)); [reflexivity | lia].
    - intros j [[N3 l3] r3] [[N4 l4] r4] Hj [Hag [Hl Hr]]. simpl in *.
      subst l4 r4.
      pose proof (basisfun_inner_agree j
                    (upd l3 j (u - elem U (i + 1 - j))%D)
                    (upd r3 j (elem U (i + j) - u)%D) N3 N4 Hag) as Hin.
      simpl in Hin.
      destruct (for_loop 0 (j - 1) _ (N3, 0.0%D)) as [N5 s5].
      destruct (for_loop 0 (j - 1) _ (N4, 0.0%D)) as [N6 s6].
      simpl in *. destruct Hin as [Hag' Hs]. subst s6.
      repeat split; try reflexivity; apply agree_upd_next; exact Hag'. }
  destruct Hag as [Hlen Hel].
  apply elem_ext; [exact Hlen|].
  intros r Hr. apply Hel. rewrite numel_basisfun in Hr. lia.
Qed.

End BasisShape.

(** ** [bspeval] *)

Section BspevalFacts.
Context {D : Type} `{Scalar D}.
Local Open Scope Z_scope.

(** C3.  Called with converted arguments ([error_state] clear), [bspeval]
    raises the "inconsistent bspline data" error exactly when
    [columns(c) + d <> length(k) - 1].  In that case the error is raised
    once, and no sample is evaluated: the call returns the zero matrix
    [p] as allocated, even with no fuel at all for [findspan]. *)
Theorem bspeval_inconsistent (fuel : nat) (d : Z) (c : Matrix D)
  (k u : RowVector D) :
  ((exists p msgs, bspeval fuel false d c k u = Some (p, msgs) /\
                   In bspeval_msg msgs)
   <-> cols c + d <> numel k - 1) /\
  (cols c + d <> numel k - 1 ->
   bspeval fuel false d c k u
     = Some (mfilled (rows c) (numel u) 0.0%D, [bspeval_msg]) /\
   bspeval 0 false d c k u = bspeval fuel false d c k u).
Proof.
  unfold bspeval. simpl.
  destruct (Z.eqb_spec (cols c + d) (numel k - 1)) as [Heq|Hne].
  - split; [|intros Hc; contradiction].
    split; [|intros Hc; contradiction].
    intros [p [msgs [Hrun Hin]]].
    destruct (for_loop_opt 0 (numel u - 1) (bspeval_col fuel d c k u) _)
      as [[p' N']|]; [|discriminate].
    injection Hrun as _ Hm. subst msgs. destruct Hin.
  - split; [|intros _; split; reflexivity].
    split; [intros _; exact Hne|intros _].
    eexists. eexists. split; [reflexivity|]. left. reflexivity.
Qed.

(* With [error_state] set on entry the function leaves [p] as allocated
   and raises nothing of its own. *)
Lemma bspeval_error_state (fuel : nat) (d : Z) (c : Matrix D)
  (k u : RowVector D) :
  bspeval fuel true d c k u = Some (mfilled (rows c) (numel u) 0.0%D, []).
Proof. reflexivity. Qed.

Context {HO : OrderLaws D}.

Lemma bspeval_rows (d : Z) (c : Matrix D) (N : RowVector D) (tmp1 col : Z)
  (p : Matrix D) :
  wf_matrix p -> rows p = rows c -> 0 <= col < cols p ->
  let p' := for_loop 0 (rows c - 1) (bspeval_row d c N tmp1 col) p in
  wf_matrix p' /\ rows p' = rows p /\ cols p' = cols p /\
  (forall row col', 0 <= row < rows c -> col' <> col ->
                    melem p' row col' = melem p row col') /\
  (forall row, 0 <= row < rows c ->
     melem p' row col =
     dsum 0 d (fun i => (elem N i * melem c row (tmp1 + i))%D)).
Proof.
  intros Hwf Hrows Hcol. simpl.
  pose proof Hwf as [Hr0 _].
  pose proof (for_loop_inv
    (fun r (q : Matrix D) =>
       wf_matrix q /\ rows q = rows p /\ cols q = cols p /\
       (forall row col', 0 <= row < rows c -> col' <> col ->
                         melem q row col' = melem p row col') /\
       (forall row, 0 <= row < r ->
          melem q row col =
          dsum 0 d (fun i => (elem N i * melem c row (tmp1 + i))%D)))
    0 (rows c - 1) (bspeval_row d c N tmp1 col) p ltac:(lia)) as Hloop.
  replace (rows c - 1 + 1) with (rows c) in Hloop by lia.
  apply Hloop; clear Hloop.
  - repeat split; try apply Hwf; auto. intros row Hrow. lia.
  - intros r q Hr [Hwfq [Hrq [Hcq [Hother Hdone]]]].
    unfold bspeval_row.
    repeat split; try apply wf_mupd; try assumption.
    + intros row col' Hrow Hne. rewrite melem_mupd_other; try lia.
      * apply Hother; assumption.
      * congruence.
    + intros row Hrow. destruct (Z.eq_dec row r) as [Heq|Hne].
      * subst row. rewrite melem_mupd_same; try assumption; try lia.
        reflexivity.
      * rewrite melem_mupd_other; try lia.
        -- apply Hdone. lia.
        -- congruence.
Qed.

(** C4.  For consistent data ([columns(c) + d = length(k) - 1]), a
    non-decreasing knot vector and samples in the domain
    [k(d) <= u(col) <= k(nc)], [bspeval] returns, raises nothing, and its
    matrix holds at (row, col) the sum over i = 0..d of
    [N(i) * c(row, s - d + i)], accumulated in this order from 0.0, where
    [s = findspan (nc - 1, d, u(col), k)] and
    [N = basisfun (s, u(col), d, k)]. *)
Theorem bspeval_sum (fuel : nat) (d : Z) (c : Matrix D) (k u : RowVector D) :
  wf_matrix c -> 0 <= d ->
  cols c + d = numel k - 1 ->
  nondecreasing k ->
  (forall col, 0 <= col < numel u ->
     le_d (elem k d) (elem u col) /\ le_d (elem u col) (elem k (cols c))) ->
  (Z.to_nat (cols c - d) <= fuel)%nat ->
  exists p,
    bspeval fuel false d c k u = Some (p, []) /\
    rows p = rows c /\ cols p = numel u /\
    forall row col, 0 <= row < rows c -> 0 <= col < numel u ->
                    bspeval_entry fuel d c k u p row col.
Proof.
  intros Hwfc Hd Hcons Hsorted Hdom Hfuel.
  destruct Hwfc as [Hr0 [Hc0 Hlen]].
  assert (Hnu : 0 <= numel u) by (unfold numel; lia).
  destruct (for_loop_opt_inv
    (fun col (st : Matrix D * RowVector D) =>
       wf_matrix (fst st) /\ rows (fst st) = rows c /\
       cols (fst st) = numel u /\ numel (snd st) = d + 1 /\
       forall row col', 0 <= row < rows c -> 0 <= col' < col ->
                        bspeval_entry fuel d c k u (fst st) row col')
    0 (numel u - 1) (bspeval_col fuel d c k u)
    (mfilled (rows c) (numel u) 0.0%D, filled (d + 1) 0.0%D) ltac:(lia))
    as [[p N] [Hrun Hinv]].
  - simpl. repeat split; try (apply wf_mfilled; assumption).
    + rewrite numel_filled. lia.
    + intros row col' _ Hcol'. lia.
  - intros col [p N] Hcol [Hwfp [Hrp [Hcp [HN Hdone]]]]. simpl in *.
    destruct (Hdom col ltac:(lia)) as [Hlo Hhi].
    destruct (findspan_in_domain fuel (cols c - 1) d (elem u col) k Hsorted
                ltac:(lia) ltac:(lia) Hlo
                ltac:(replace (cols c - 1 + 1) with (cols c) by lia; exact Hhi)
                ltac:(lia))
      as [s Hs].
    unfold bspeval_col. rewrite Hs. eexists. split; [reflexivity|]. simpl.
    pose proof (bspeval_rows d c (basisfun s (elem u col) d k N) (s - d) col p
                  Hwfp Hrp ltac:(lia)) as Hrows.
    simpl in Hrows. destruct Hrows as [Hwf' [Hr' [Hc' [Hother Hnew]]]].
    repeat split; try apply Hwf'; try congruence.
    + rewrite numel_basisfun. exact HN.
    + intros row col' Hrow Hcol'.
      destruct (Z.eq_dec col' col) as [Heq|Hne].
      * subst col'. exists s. split; [exact Hs|].
        rewrite (Hnew row Hrow).
        rewrite (basisfun_indep s (elem u col) d k N (filled (d + 1) 0.0%D) Hd HN)
          by (rewrite numel_filled; lia).
        reflexivity.
      * destruct (Hdone row col' Hrow ltac:(lia)) as [s' [Hs' Hval]].
        exists s'. split; [exact Hs'|].
        rewrite (Hother row col' Hrow Hne). exact Hval.
  - replace (numel u - 1 + 1) with (numel u) in Hinv by lia.
    simpl in Hinv. destruct Hinv as [_ [Hrp [Hcp [_ Hall]]]].
    exists p. unfold bspeval. simpl.
    rewrite Hcons, Z.eqb_refl, Hrun. auto.
Qed.

End BspevalFacts.

Lemma bspeval_sum_witness :
  exists p,
    bspeval 2 false 2 c_test U_test u_test = Some (p, []) /\
    rows p = 2%Z /\ cols p = 3%Z /\
    forall row col, (0 <= row < 2)%Z -> (0 <= col < 3)%Z ->
                    bspeval_entry 2 2 c_test U_test u_test p row col.
Proof.
  assert (Hwf : wf_matrix c_test)
    by (vm_compute; repeat split; discriminate).
  assert (Hdom : forall col, (0 <= col < numel u_test)%Z ->
            le_d (elem U_test 2) (elem u_test col) /\
            le_d (elem u_test col) (elem U_test (cols c_test))).
  { intros col Hcol. change (numel u_test) with 3%Z in Hcol.
    assert (Hc : (col = 0 \/ col = 1 \/ col = 2)%Z) by lia.
    destruct Hc as [Hc|[Hc|Hc]]; subst col; vm_compute; split; reflexivity. }
  exact (@bspeval_sum float _ _ 2%nat 2%Z c_test U_test u_test Hwf
           ltac:(discriminate) eq_refl U_test_nondecreasing Hdom
           ltac:(vm_compute; lia)).
Defined.

(** ** [bspderiv] *)

Section BspderivFacts.
Context {D : Type} `{Scalar D}.
Local Open Scope Z_scope.

Lemma bspderiv_col_spec (d : Z) (c : Matrix D) (k : RowVector D) (i : Z)
  (dc : Matrix D) :
  wf_matrix dc -> rows dc = rows c -> 0 <= i < cols dc ->
  let dc' := bspderiv_col d c k i dc in
  wf_matrix dc' /\ rows dc' = rows dc /\ cols dc' = cols dc /\
  (forall j i', 0 <= j < rows c -> i' <> i ->
                melem dc' j i' = melem dc j i') /\
  (forall j, 0 <= j < rows c ->
     melem dc' j i =
     (of_int d / (elem k (i + d + 1) - elem k (i + 1))
      * (melem c j (i + 1) - melem c j i))%D).
Proof.
  intros Hwf Hrows Hi. simpl. unfold bspderiv_col.
  pose proof Hwf as [Hr0 _].
  set (tmp := (of_int d / (elem k (i + d + 1) - elem k (i + 1)))%D).
  pose proof (for_loop_inv
    (fun r (q : Matrix D) =>
       wf_matrix q /\ rows q = rows dc /\ cols q = cols dc /\
       (forall j i', 0 <= j < rows c -> i' <> i ->
                     melem q j i' = melem dc j i') /\
       (forall j, 0 <= j < r ->
          melem q j i = (tmp * (melem c j (i + 1) - melem c j i))%D))
    0 (rows c - 1)
    (fun j dc => mupd dc j i (tmp * (melem c j (i + 1) - melem c j i))%D)
    dc ltac:(lia)) as Hloop.
  replace (rows c - 1 + 1) with (rows c) in Hloop by lia.
  apply Hloop; clear Hloop.
  - repeat split; try apply Hwf; auto. intros j Hj. lia.
  - intros r q Hr [Hwfq [Hrq [Hcq [Hother Hdone]]]].
    repeat split; try apply wf_mupd; try assumption.
    + intros j i' Hj Hne. rewrite melem_mupd_other; try lia.
      * apply Hother; assumption.
      * congruence.
    + intros j Hj. destruct (Z.eq_dec j r) as [Heq|Hne].
      * subst j. rewrite melem_mupd_same; try assumption; try lia.
        reflexivity.
      * rewrite melem_mupd_other; try lia.
        -- apply Hdone. lia.
        -- congruence.
Qed.

Lemma bspderiv_knots (k : RowVector D) :
  2 <= numel k ->
  let dk := for_loop 1 (numel k - 2) (fun i dk => upd dk (i - 1) (elem k i))
              (filled (numel k - 2) 0.0%D) in
  numel dk = numel k - 2 /\
  forall i, 0 <= i < numel k - 2 -> elem dk i = elem k (i + 1).
Proof.
  intros Hk. simpl.
  pose proof (for_loop_inv
    (fun i (dk : RowVector D) =>
       numel dk = numel k - 2 /\
       forall t, 0 <= t < i - 1 -> elem dk t = elem k (t + 1))
    1 (numel k - 2) (fun i dk => upd dk (i - 1) (elem k i))
    (filled (numel k - 2) 0.0%D) ltac:(lia)) as Hloop.
  cbv beta in Hloop.
  replace (numel k - 2 + 1 - 1) with (numel k - 2) in Hloop by lia.
  apply Hloop; clear Hloop.
  - split; [rewrite numel_filled; lia|]. intros t Ht. lia.
  - intros i dk Hi [Hlen Hdone]. split; [rewrite numel_upd; exact Hlen|].
    intros t Ht. rewrite elem_upd, Hlen.
    destruct (Z.eqb_spec (i - 1) t) as [Heq|Hne]; simpl.
    + destruct (Z.leb_spec 0 (i - 1)); [|lia].
      destruct (Z.ltb_spec (i - 1) (numel k - 2)); [|lia].
      simpl. f_equal. lia.
    + apply Hdone. lia.
Qed.

(** C5.  For control points [c] of size mc x nc (nc >= 1) and nk >= 2
    knots, [bspderiv] returns [dc] of size mc x (nc - 1) whose column
    i = 0..nc-2 is [(d / (k(i+d+1) - k(i+1))) * (c(:,i+1) - c(:,i))], and
    as second value, when it is asked for, the nk - 2 knots
    [k(1), ..., k(nk-2)]: the knot vector without its first and last
    knot. *)
Theorem bspderiv_formula (nargout d : Z) (c : Matrix D) (k : RowVector D) :
  wf_matrix c -> 1 <= cols c -> 2 <= numel k ->
  exists dc dk,
    bspderiv false nargout d c k
      = (Some dc, if nargout >? 1 then Some dk else None, []) /\
    wf_matrix dc /\ rows dc = rows c /\ cols dc = cols c - 1 /\
    (forall i j, 0 <= i <= cols c - 2 -> 0 <= j < rows c ->
       melem dc j i =
       (of_int d / (elem k (i + d + 1) - elem k (i + 1))
        * (melem c j (i + 1) - melem c j i))%D) /\
    numel dk = numel k - 2 /\
    (forall i, 0 <= i < numel k - 2 -> elem dk i = elem k (i + 1)).
Proof.
  intros [Hr0 [Hc0 Hlen]] Hnc Hnk.
  eexists. eexists. split; [unfold bspderiv; simpl; reflexivity|].
  pose proof (bspderiv_knots k Hnk) as [Hdk1 Hdk2].
  pose proof (for_loop_inv
    (fun i (q : Matrix D) =>
       wf_matrix q /\ rows q = rows c /\ cols q = cols c - 1 /\
       forall i' j, 0 <= i' < i -> 0 <= j < rows c ->
         melem q j i' =
         (of_int d / (elem k (i' + d + 1) - elem k (i' + 1))
          * (melem c j (i' + 1) - melem c j i'))%D)
    0 (cols c - 2) (bspderiv_col d c k)
    (mfilled (rows c) (cols c - 1) 0.0%D) ltac:(lia)) as Hloop.
  replace (cols c - 2 + 1) with (cols c - 1) in Hloop by lia.
  destruct Hloop as [Hwf [Hr [Hc Hall]]].
  - repeat split; try (apply wf_mfilled; lia). intros i' j Hi'. lia.
  - intros i q Hi [Hwfq [Hrq [Hcq Hdone]]].
    pose proof (bspderiv_col_spec d c k i q Hwfq Hrq ltac:(lia)) as Hcol.
    simpl in Hcol. destruct Hcol as [Hwf' [Hr' [Hc' [Hother Hnew]]]].
    repeat split; try apply Hwf'; try congruence.
    intros i' j Hi' Hj. destruct (Z.eq_dec i' i) as [Heq|Hne].
    + subst i'. apply Hnew. exact Hj.
    + rewrite (Hother j i' Hj Hne). apply Hdone; [lia | exact Hj].
  - repeat split; try apply Hwf; try assumption.
    intros i j Hi Hj. apply Hall; [lia | exact Hj].
Qed.

(* Shapes survive the loops whatever the data are *)
Lemma bspderiv_col_shape (d : Z) (c : Matrix D) (k : RowVector D) (i : Z)
  (dc : Matrix D) :
  rows (bspderiv_col d c k i dc) = rows dc /\
  cols (bspderiv_col d c k i dc) = cols dc /\
  numel (mdata (bspderiv_col d c k i dc)) = numel (mdata dc).
Proof.
  unfold bspderiv_col.
  set (body := fun j dc0 => mupd dc0 j i _).
  destruct (Z_lt_le_dec (rows c - 1) (0 - 1)) as [Hlt|Hle].
  - rewrite for_loop_nil by lia. auto.
  - apply (for_loop_inv
             (fun _ (q : Matrix D) =>
                rows q = rows dc /\ cols q = cols dc /\
                numel (mdata q) = numel (mdata dc))); [lia | auto |].
    intros j q _ [Hr [Hc Hn]]. unfold body, mupd. simpl.
    rewrite numel_upd. auto.
Qed.

(* The control points that the first loop leaves *)
Lemma bspderiv_dc (d : Z) (c : Matrix D) (k : RowVector D) :
  wf_matrix c -> 1 <= cols c ->
  let dc := for_loop 0 (cols c - 2) (bspderiv_col d c k)
              (mfilled (rows c) (cols c - 1) 0.0%D) in
  wf_matrix dc /\ rows dc = rows c /\ cols dc = cols c - 1 /\
  forall i j, 0 <= i <= cols c - 2 -> 0 <= j < rows c ->
    melem dc j i =
    (of_int d / (elem k (i + d + 1) - elem k (i + 1))
     * (melem c j (i + 1) - melem c j i))%D.
Proof.
  intros [Hr0 [Hc0 Hlen]] Hnc. simpl.
  pose proof (for_loop_inv
    (fun i (q : Matrix D) =>
       wf_matrix q /\ rows q = rows c /\ cols q = cols c - 1 /\
       forall i' j, 0 <= i' < i -> 0 <= j < rows c ->
         melem q j i' =
         (of_int d / (elem k (i' + d + 1) - elem k (i' + 1))
          * (melem c j (i' + 1) - melem c j i'))%D)
    0 (cols c - 2) (bspderiv_col d c k)
    (mfilled (rows c) (cols c - 1) 0.0%D) ltac:(lia)) as Hloop.
  cbv beta in Hloop.
  replace (cols c - 2 + 1) with (cols c - 1) in Hloop by lia.
  destruct Hloop as [Hwf [Hr [Hc Hall]]].
  - repeat split; try (apply wf_mfilled; lia). intros i' j Hi'. lia.
  - intros i q Hi [Hwfq [Hrq [Hcq Hdone]]].
    pose proof (bspderiv_col_spec d c k i q Hwfq Hrq ltac:(lia)) as Hcol.
    simpl in Hcol. destruct Hcol as [Hwf' [Hr' [Hc' [Hother Hnew]]]].
    repeat split; try apply Hwf'; try congruence.
    intros i' j Hi' Hj. destruct (Z.eq_dec i' i) as [Heq|Hne].
    + subst i'. apply Hnew. exact Hj.
    + rewrite (Hother j i' Hj Hne). apply Hdone; [lia | exact Hj].
  - repeat split; try apply Hwf; try assumption.
    intros i j Hi Hj. apply Hall; [lia | exact Hj].
Qed.

(** C10.  [bspderiv] checks nothing about its data: no relation between
    [d], the columns of [c] and the length of [k] is asked for, and the
    function never raises an error.  For [c] with at least one column and
    [k] with at least two knots (the sizes nc - 1 and nk - 2 exist), a call
    with converted arguments computes and returns the pair: [dc], shaped
    rows(c) x (columns(c) - 1), holds in every cell whose knots
    [k(i+1)], [k(i+d+1)] exist the value
    [(d / (k(i+d+1) - k(i+1))) * (c(j,i+1) - c(j,i))], and [dk], returned
    when a second value is asked for, holds [k(1), ..., k(nk-2)]. *)
Theorem bspderiv_unchecked (nargout d : Z) (c : Matrix D) (k : RowVector D) :
  wf_matrix c -> 1 <= cols c -> 2 <= numel k ->
  (forall error_state, snd (bspderiv error_state nargout d c k) = []) /\
  exists dc dk,
    bspderiv false nargout d c k
      = (Some dc, if nargout >? 1 then Some dk else None, []) /\
    rows dc = rows c /\ cols dc = cols c - 1 /\
    (forall i j, 0 <= i <= cols c - 2 -> 0 <= j < rows c ->
       i + 1 < numel k -> 0 <= i + d + 1 < numel k ->
       melem dc j i =
       (of_int d / (elem k (i + d + 1) - elem k (i + 1))
        * (melem c j (i + 1) - melem c j i))%D) /\
    numel dk = numel k - 2 /\
    (forall i, 0 <= i < numel k - 2 -> elem dk i = elem k (i + 1)).
Proof.
  intros Hwf Hnc Hnk.
  split; [intros [|]; reflexivity|].
  pose proof (bspderiv_dc d c k Hwf Hnc) as Hdc. simpl in Hdc.
  destruct Hdc as [_ [Hr [Hc Hall]]].
  pose proof (bspderiv_knots k Hnk) as Hdk. simpl in Hdk.
  destruct Hdk as [Hlen Hval].
  eexists. eexists. split; [unfold bspderiv; simpl; reflexivity|].
  split; [exact Hr|]. split; [exact Hc|]. split.
  - intros i j Hi Hj _ _. apply Hall; assumption.
  - split; [exact Hlen | exact Hval].
Qed.

End BspderivFacts.

Lemma bspderiv_formula_witness :
  exists dc dk,
    bspderiv false 2 2 c_test U_test = (Some dc, Some dk, []) /\
    wf_matrix dc /\ rows dc = 2%Z /\ cols dc = 3%Z /\
    (forall i j, (0 <= i <= 2)%Z -> (0 <= j < 2)%Z ->
       melem dc j i =
       (2 / (elem U_test (i + 2 + 1) - elem U_test (i + 1))
        * (melem c_test j (i + 1) - melem c_test j i))%float) /\
    numel dk = 5%Z /\
    (forall i, (0 <= i < 5)%Z -> elem dk i = elem U_test (i + 1)).
Proof.
  assert (Hwf : wf_matrix c_test)
    by (vm_compute; repeat split; discriminate).
  exact (@bspderiv_formula float _ 2%Z 2%Z c_test U_test Hwf
           ltac:(vm_compute; discriminate) ltac:(vm_compute; discriminate)).
Defined.

(* The same inconsistent data: [bspeval] refuses them, [bspderiv] does not *)
Example inconsistent_data :
  bspeval 0 false 2 c_short U_test u_test
    = Some (mfilled 2 3 0.0%D, [bspeval_msg]) /\
  bspderiv false 2 2 c_short U_test
    = (Some {| rows := 2; cols := 2; mdata := [4; 8; 4; -2]%float |},
       Some [0; 0; 0.5; 1; 1]%float, []).
Proof. split; vm_compute; reflexivity. Qed.

Lemma bspderiv_unchecked_witness :
  (cols c_short + 2 <> numel U_test - 1)%Z /\
  (forall error_state, snd (bspderiv error_state 2 2 c_short U_test) = []) /\
  exists dc dk,
    bspderiv false 2 2 c_short U_test = (Some dc, Some dk, []) /\
    rows dc = rows c_short /\ cols dc = (cols c_short - 1)%Z /\
    (forall i j, (0 <= i <= cols c_short - 2)%Z -> (0 <= j < rows c_short)%Z ->
       (i + 1 < numel U_test)%Z -> (0 <= i + 2 + 1 < numel U_test)%Z ->
       melem dc j i =
       (2 / (elem U_test (i + 2 + 1) - elem U_test (i + 1))
        * (melem c_short j (i + 1) - melem c_short j i))%float) /\
    numel dk = (numel U_test - 2)%Z /\
    (forall i, (0 <= i < numel U_test - 2)%Z ->
               elem dk i = elem U_test (i + 1)).
Proof.
  split; [vm_compute; discriminate|].
  assert (Hwf : wf_matrix c_short)
    by (vm_compute; repeat split; discriminate).
  exact (@bspderiv_unchecked float _ 2%Z 2%Z c_short U_test Hwf
           ltac:(vm_compute; discriminate) ltac:(vm_compute; discriminate)).
Defined.

(** ** Sums *)

Section SumFacts.
Context {D : Type} `{Scalar D}.
Local Open Scope Z_scope.

Lemma dsum_nil (lo hi : Z) (f : Z -> D) : hi < lo -> dsum lo hi f = 0.0%D.
Proof. intros Hlt. unfold dsum. apply for_loop_nil. exact Hlt. Qed.

Lemma dsum_snoc (lo hi : Z) (f : Z -> D) :
  lo <= hi -> dsum lo hi f = (dsum lo (hi - 1) f + f hi)%D.
Proof. intros Hle. unfold dsum. rewrite for_loop_snoc by assumption. reflexivity. Qed.

Lemma dsum_ext (lo hi : Z) (f g : Z -> D) :
  (forall i, lo <= i <= hi -> f i = g i) -> dsum lo hi f = dsum lo hi g.
Proof.
  intros Hfg. unfold dsum. apply for_loop_ext.
  intros i acc Hi. rewrite (Hfg i Hi). reflexivity.
Qed.

End SumFacts.

(** ** [basisfun] in exact arithmetic *)

Section BasisfunExact.
Local Open Scope Z_scope.

Lemma nondecreasing_Rle (U : RowVector R) (i j : Z) :
  nondecreasing U -> 0 <= i -> i <= j -> j < numel U -> 1 < numel U ->
  (elem U i <= elem U j)%R.
Proof.
  intros Hs Hi Hij Hj Hlen.
  destruct (Z.eq_dec i j) as [Heq|Hne].
  - subst j. lra.
  - apply R_leb_true. apply (nondecreasing_lt U i j Hs); lia.
Qed.

Lemma basisfun_inner_exact (j : Z) (l r N : RowVector R) :
  0 <= j <= numel N ->
  (forall t, 0 <= t < j -> (0 <= elem N t)%R) ->
  (forall t, 0 <= t < j ->
     (0 <= elem r (t + 1))%R /\ (0 <= elem l (j - t))%R /\
     (0 < elem r (t + 1) + elem l (j - t))%R) ->
  let st := for_loop 0 (j - 1) (basisfun_inner j l r) (N, 0%R) in
  numel (fst st) = numel N /\
  (forall t, j <= t -> elem (fst st) t = elem N t) /\
  (forall t, 0 <= t < j -> (0 <= elem (fst st) t)%R) /\
  (0 <= snd st)%R /\
  (dsum 0 (j - 1) (elem (fst st)) + snd st = dsum 0 (j - 1) (elem N))%R.
Proof.
  intros Hj HN Hden. simpl.
  pose proof (for_loop_inv
    (fun t (st : RowVector R * R) =>
       numel (fst st) = numel N /\
       (forall t', t <= t' -> elem (fst st) t' = elem N t') /\
       (forall t', 0 <= t' < t -> (0 <= elem (fst st) t')%R) /\
       (0 <= snd st)%R /\
       (dsum 0 (t - 1) (elem (fst st)) + snd st = dsum 0 (t - 1) (elem N))%R)
    0 (j - 1) (basisfun_inner j l r) (N, 0%R) ltac:(lia)) as Hloop.
  cbv beta in Hloop.
  replace (j - 1 + 1) with j in Hloop by lia.
  apply Hloop; clear Hloop.
  - simpl. split; [reflexivity|]. split; [intros; reflexivity|].
    split; [intros; lia|]. split; [lra|].
    rewrite !dsum_nil by lia. r_ops. lra.
  - intros t [N1 s1] Ht [Hlen [Hrest [Hpos [Hs Hsum]]]]. simpl in *.
    destruct (Hden t ltac:(lia)) as [Hr [Hl Hrl]].
    pose proof (HN t ltac:(lia)) as HNt.
    rewrite <- (Hrest t ltac:(lia)) in HNt.
    r_ops.
    set (temp := (elem N1 t / (elem r (t + 1) + elem l (j - t)))%R) in *.
    assert (Htemp : (0 <= temp)%R).
    { unfold temp, Rdiv. apply Rmult_le_pos; [exact HNt|].
      apply Rlt_le, Rinv_0_lt_compat. exact Hrl. }
    assert (Hmul : ((elem r (t + 1) + elem l (j - t)) * temp = elem N1 t)%R).
    { unfold temp. field. lra. }
    assert (Hnew : (0 <= s1 + elem r (t + 1) * temp)%R).
    { pose proof (Rmult_le_pos _ _ Hr Htemp). lra. }
    repeat split.
    + rewrite numel_upd. exact Hlen.
    + intros t' Ht'. rewrite elem_upd_other by lia. apply Hrest. lia.
    + intros t' Ht'. destruct (Z.eq_dec t' t) as [Heq|Hne].
      * subst t'. rewrite elem_upd_same by lia. exact Hnew.
      * rewrite elem_upd_other by lia. apply Hpos. lia.
    + apply Rmult_le_pos; assumption.
    + replace (t + 1 - 1) with t by lia.
      rewrite (dsum_snoc 0 t) by lia. rewrite (dsum_snoc 0 t (elem N)) by lia.
      rewrite (dsum_ext 0 (t - 1) (elem (upd N1 t (s1 + elem r (t + 1) * temp)%R))
                 (elem N1))
        by (intros t' Ht'; apply elem_upd_other; lia).
      rewrite elem_upd_same by lia. r_ops.
      rewrite <- (Hrest t ltac:(lia)). lra.
Qed.

(** C7.  In exact arithmetic: for a span [i] whose knots [i+1-p .. i+p] exist,
    a non-decreasing [U] whose span [i] is not empty ([U(i) < U(i+1)], so
    that no denominator is zero) and [U(i) <= u <= U(i+1)], [basisfun]
    leaves in a vector [N] of p+1 cells p+1 values that are all >= 0 and
    sum to 1. *)
Theorem basisfun_partition (i p : Z) (u : R) (U N : RowVector R) :
  0 <= p -> 0 <= i + 1 - p -> i + p < numel U -> numel N = p + 1 ->
  nondecreasing U ->
  (elem U i <= u <= elem U (i + 1))%R -> (elem U i < elem U (i + 1))%R ->
  numel (basisfun i u p U N) = p + 1 /\
  (forall r, 0 <= r <= p -> (0 <= elem (basisfun i u p U N) r)%R) /\
  dsum 0 p (elem (basisfun i u p U N)) = 1%R.
Proof.
  intros Hp Hi0 Hi1 HN Hs Hu Hspan.
  assert (Hlow : forall t, 1 <= t <= p -> (elem U (i + 1 - t) <= elem U i)%R)
    by (intros t Ht; apply nondecreasing_Rle; try assumption; lia).
  assert (Hhigh : forall t, 1 <= t <= p -> (elem U (i + 1) <= elem U (i + t))%R)
    by (intros t Ht; apply nondecreasing_Rle; try assumption; lia).
  split; [rewrite numel_basisfun; exact HN|].
  unfold basisfun.
  pose proof (for_loop_inv
    (fun j (st : RowVector R * RowVector R * RowVector R) =>
       let '(N1, l1, r1) := st in
       numel N1 = p + 1 /\ numel l1 = p + 1 /\ numel r1 = p + 1 /\
       (forall t, 1 <= t < j ->
          elem l1 t = (u - elem U (i + 1 - t))%R /\
          elem r1 t = (elem U (i + t) - u)%R) /\
       (forall t, 0 <= t < j -> (0 <= elem N1 t)%R) /\
       dsum 0 (j - 1) (elem N1) = 1%R)
    1 p (basisfun_outer i u U)
    (upd N 0 1.0%D, filled (p + 1) 0.0%D, filled (p + 1) 0.0%D)
    ltac:(lia)) as Hloop.
  cbv beta in Hloop.
  destruct (for_loop 1 p (basisfun_outer i u U) _) as [[N1 l1] r1].
  destruct Hloop as [_ [_ [_ [_ [Hpos Hsum]]]]].
  - r_ops. rewrite numel_upd, !numel_filled.
    repeat split; try lia.
    + intros t Ht. assert (t = 0) by lia. subst t.
      rewrite elem_upd_same by lia. lra.
    + replace (1 - 1) with 0 by lia. rewrite (dsum_snoc 0 0) by lia.
      rewrite dsum_nil by lia. rewrite elem_upd_same by lia. r_ops. lra.
  - intros j [[N2 l2] r2] Hj [HN2 [Hl2 [Hr2 [Hbuf [Hpos2 Hsum2]]]]].
    unfold basisfun_outer. r_ops.
    set (l3 := upd l2 j (u - elem U (i + 1 - j))%R).
    set (r3 := upd r2 j (elem U (i + j) - u)%R).
    assert (Hbuf3 : forall t, 1 <= t < j + 1 ->
              elem l3 t = (u - elem U (i + 1 - t))%R /\
              elem r3 t = (elem U (i + t) - u)%R).
    { intros t Ht. unfold l3, r3. destruct (Z.eq_dec t j) as [Heq|Hne].
      - subst t. rewrite !elem_upd_same by lia. auto.
      - rewrite !elem_upd_other by lia. apply Hbuf. lia. }
    pose proof (basisfun_inner_exact j l3 r3 N2 ltac:(lia) Hpos2) as Hin.
    simpl in Hin.
    destruct (for_loop 0 (j - 1) (basisfun_inner j l3 r3) (N2, 0%R))
      as [N4 s4] eqn:E.
    destruct Hin as [HN4 [Hrest [Hpos4 [Hs4 Hsum4]]]].
    { intros t Ht.
      destruct (Hbuf3 (t + 1) ltac:(lia)) as [_ Hr].
      destruct (Hbuf3 (j - t) ltac:(lia)) as [Hl _].
      rewrite Hr, Hl.
      pose proof (Hhigh (t + 1) ltac:(lia)) as Hh.
      pose proof (Hlow (j - t) ltac:(lia)) as Hlo.
      repeat split; lra. }
    simpl in *. r_ops.
    unfold l3, r3. rewrite !numel_upd.
    repeat split; try lia; try apply Hbuf3; try assumption.
    + intros t Ht. destruct (Z.eq_dec t j) as [Heq|Hne].
      * subst t. rewrite elem_upd_same by lia. exact Hs4.
      * rewrite elem_upd_other by lia. apply Hpos4. lia.
    + replace (j + 1 - 1) with j by lia.
      rewrite (dsum_snoc 0 j) by lia.
      rewrite (dsum_ext 0 (j - 1) (elem (upd N4 j s4)) (elem N4))
        by (intros t Ht; apply elem_upd_other; lia).
      rewrite elem_upd_same by lia. r_ops. lra.
  - split.
    + intros r Hr. apply Hpos. lia.
    + replace (p + 1 - 1) with p in Hsum by lia. exact Hsum.
Qed.

End BasisfunExact.

(** ** The cache of [factln] *)

Section CacheFacts.
Context {D : Type} `{Scalar D} `{MathLib D}.
Local Open Scope Z_scope.

Lemma wf_cache_init : wf_cache factln_init.
Proof. unfold wf_cache, factln_init. simpl. rewrite numel_filled. lia. Qed.

Lemma in_cache_true (i : Z) : in_cache i = true <-> 0 <= i <= 100.
Proof. unfold in_cache. rewrite andb_true_iff, Z.leb_le, Z.ltb_lt. lia. Qed.

Lemma in_cache_false (i : Z) : in_cache i = false <-> ~ (0 <= i <= 100).
Proof. rewrite <- in_cache_true. destruct (in_cache i); split; congruence. Qed.

(** Filling [todo] more cells succeeds when they exist; the cells already
    filled are not written. *)
Lemma factln_fill_done (todo : nat) :
  forall st : factln_static D, wf_cache st -> ntop st + Z.of_nat todo <= 100 ->
    exists st',
      factln_fill todo st = Done st' /\ wf_cache st' /\
      ntop st' = ntop st + Z.of_nat todo /\
      forall i, i <= ntop st -> elem (a st') i = elem (a st) i.
Proof.
  induction todo as [|todo IH]; intros st [Hn Hlen] Hroom.
  - exists st. simpl. repeat split; try assumption; lia.
  - simpl. assert (Hin : in_cache (ntop st + 1) = true)
      by (apply in_cache_true; lia).
    rewrite Hin.
    destruct (IH {| ntop := ntop st + 1;
                    a := upd (a st) (ntop st + 1)
                           (gammaln (of_int (ntop st + 1) + 1.0)%D) |})
      as [st' [Hrun [Hwf [Htop Hkeep]]]].
    + split; simpl; [lia | rewrite numel_upd; exact Hlen].
    + simpl. lia.
    + exists st'. simpl in *. repeat split; try apply Hwf; try assumption; try lia.
      intros i Hi. rewrite (Hkeep i ltac:(lia)).
      apply elem_upd_other. lia.
Qed.

(** Filling beyond cell 100 runs out of the array. *)
Lemma factln_fill_overrun (todo : nat) :
  forall st : factln_static D, 0 <= ntop st <= 100 ->
             100 < ntop st + Z.of_nat todo ->
             factln_fill todo st = OutOfBounds.
Proof.
  induction todo as [|todo IH]; intros st Hn Hover.
  - lia.
  - simpl. destruct (in_cache (ntop st + 1)) eqn:Hin; [|reflexivity].
    apply in_cache_true in Hin. apply IH; simpl; lia.
Qed.

(** C9.  The cache [a] has 101 cells and is indexed unchecked.  From any
    state of the statics a run can produce, a call [factln n] with
    [n <= 100] makes every access inside the array; it returns with [ntop]
    no smaller than before and with every cell up to the old [ntop]
    holding the value it held.  The bound is needed: a call with [n > 100]
    stores outside the array. *)
Theorem factln_cache (n : Z) (st : factln_static D) :
  wf_cache st ->
  (n <= 100 ->
   exists v st',
     factln n st = Done (v, st') /\ wf_cache st' /\
     ntop st <= ntop st' /\
     forall i, i <= ntop st -> elem (a st') i = elem (a st) i) /\
  (100 < n -> factln n st = OutOfBounds).
Proof.
  intros Hwf. pose proof Hwf as [Hn Hlen]. split.
  - intros Hle. unfold factln.
    destruct (Z.leb_spec n 1) as [Hsmall|Hbig].
    + exists 0.0%D, st. repeat split; try assumption; try lia.
    + destruct (factln_fill_done (Z.to_nat (n - ntop st)) st Hwf ltac:(lia))
        as [st' [Hrun [Hwf' [Htop Hkeep]]]].
      rewrite Hrun.
      assert (Hin : in_cache n = true) by (apply in_cache_true; lia).
      rewrite Hin. exists (elem (a st') n), st'.
      repeat split; try apply Hwf'; try assumption; lia.
  - intros Hbig. unfold factln.
    destruct (Z.leb_spec n 1) as [Hsmall|_]; [lia|].
    rewrite factln_fill_overrun by lia. reflexivity.
Qed.

(** *** Rules for computations over the cache *)

Lemma safe_ret {A : Type} (x : A) (Q : A -> Prop) :
  Q x -> safe (D:=D) (ret x) Q.
Proof. intros HQ st Hwf. exists x, st. auto. Qed.

Lemma safe_bind {A B : Type} (m : Cached D A) (f : A -> Cached D B)
  (P : A -> Prop) (Q : B -> Prop) :
  safe m P -> (forall x, P x -> safe (f x) Q) -> safe (bind m f) Q.
Proof.
  intros Hm Hf st Hwf. unfold bind.
  destruct (Hm st Hwf) as [x [st1 [Hrun [Hwf1 HP]]]]. rewrite Hrun.
  apply (Hf x HP st1 Hwf1).
Qed.

Lemma safe_weaken {A : Type} (m : Cached D A) (P Q : A -> Prop) :
  safe m P -> (forall x, P x -> Q x) -> safe m Q.
Proof.
  intros Hm HPQ st Hwf. destruct (Hm st Hwf) as [x [st1 [Hrun [Hwf1 HP]]]].
  exists x, st1. auto.
Qed.

Lemma safe_factln (n : Z) : n <= 100 -> safe (factln n) (fun _ => True).
Proof.
  intros Hn st Hwf. pose proof Hwf as [Htop Hlen]. unfold factln.
  destruct (Z.leb_spec n 1) as [Hsmall|Hbig].
  - exists 0.0%D, st. auto.
  - destruct (factln_fill_done (Z.to_nat (n - ntop st)) st Hwf ltac:(lia))
      as [st' [Hrun [Hwf' _]]].
    rewrite Hrun.
    assert (Hin : in_cache n = true) by (apply in_cache_true; lia).
    rewrite Hin. exists (elem (a st') n), st'. auto.
Qed.

Lemma safe_bincoeff (n k : Z) :
  n <= 100 -> k <= 100 -> n - k <= 100 -> safe (bincoeff n k) (fun _ => True).
Proof.
  intros Hn Hk Hnk. unfold bincoeff.
  apply (safe_bind _ _ (fun _ => True)); [apply safe_factln; exact Hn|].
  intros fn _.
  apply (safe_bind _ _ (fun _ => True)); [apply safe_factln; exact Hk|].
  intros fk _.
  apply (safe_bind _ _ (fun _ => True)); [apply safe_factln; exact Hnk|].
  intros fnk _. apply safe_ret. exact I.
Qed.

Lemma for_loop_c_nil {T : Type} (lo hi : Z) (body : Z -> T -> Cached D T) (s : T) :
  hi < lo -> for_loop_c lo hi body s = ret s.
Proof. intros Hlt. unfold for_loop_c. rewrite zrange_nil by assumption. reflexivity. Qed.

Lemma for_loop_c_snoc {T : Type} (lo hi : Z) (body : Z -> T -> Cached D T) (s : T) :
  lo <= hi ->
  for_loop_c lo hi body s = bind (for_loop_c lo (hi - 1) body s) (body hi).
Proof.
  intros Hle. unfold for_loop_c. rewrite zrange_snoc by assumption.
  rewrite fold_left_app. reflexivity.
Qed.

Lemma for_loop_c_inv {T : Type} (P : Z -> T -> Prop) (lo hi : Z)
  (body : Z -> T -> Cached D T) (s : T) :
  lo <= hi + 1 ->
  P lo s ->
  (forall i s, lo <= i <= hi -> P i s -> safe (body i s) (P (i + 1))) ->
  safe (for_loop_c lo hi body s) (P (hi + 1)).
Proof.
  intros Hle Hinit Hstep.
  assert (Hgen : forall n : nat, lo + Z.of_nat n <= hi + 1 ->
            safe (for_loop_c lo (lo + Z.of_nat n - 1) body s)
                 (P (lo + Z.of_nat n))).
  { induction n as [|n IH]; intros Hn.
    - rewrite for_loop_c_nil by lia. apply safe_ret.
      replace (lo + Z.of_nat 0) with lo by lia. exact Hinit.
    - rewrite for_loop_c_snoc by lia.
      replace (lo + Z.of_nat (S n) - 1 - 1) with (lo + Z.of_nat n - 1) by lia.
      apply (safe_bind _ _ (P (lo + Z.of_nat n))); [apply IH; lia|].
      intros x HP.
      replace (lo + Z.of_nat (S n) - 1) with (lo + Z.of_nat n) by lia.
      replace (lo + Z.of_nat (S n)) with (lo + Z.of_nat n + 1) by lia.
      apply Hstep; [lia | exact HP]. }
  specialize (Hgen (Z.to_nat (hi + 1 - lo))).
  replace (lo + Z.of_nat (Z.to_nat (hi + 1 - lo))) with (hi + 1) in Hgen by lia.
  replace (hi + 1 - 1) with hi in Hgen by lia.
  apply Hgen. lia.
Qed.

End CacheFacts.

(** ** Cells of [skl] *)

Section SklFacts.
Context {D : Type} `{Scalar D}.
Local Open Scope Z_scope.

Lemma skl_index_range (d n i k l u : Z) :
  0 <= i <= 2 -> 0 <= k <= d -> 0 <= l <= d -> 0 <= u < n ->
  0 <= ndindex [3; d + 1; d + 1; n] [i; k; l; u]
    < 3 * ((d + 1) * ((d + 1) * (n * 1))).
Proof.
  intros Hi Hk Hl Hu. cbn [ndindex].
  replace (u + n * 0) with u by lia. replace (n * 1) with n by lia.
  assert (H1 : 0 <= l + (d + 1) * u < (d + 1) * n).
  { pose proof (Z.mul_nonneg_nonneg (d + 1) u ltac:(lia) ltac:(lia)).
    pose proof (Z.mul_nonneg_nonneg (d + 1) (n - 1 - u) ltac:(lia) ltac:(lia)).
    lia. }
  set (B := l + (d + 1) * u) in *. clearbody B.
  set (M1 := (d + 1) * n) in *. clearbody M1.
  assert (H2 : 0 <= k + (d + 1) * B < (d + 1) * M1).
  { pose proof (Z.mul_nonneg_nonneg (d + 1) B ltac:(lia) ltac:(lia)).
    pose proof (Z.mul_nonneg_nonneg (d + 1) (M1 - 1 - B) ltac:(lia) ltac:(lia)).
    lia. }
  lia.
Qed.

Lemma skl_index_inj (d n i k l u i' k' l' u' : Z) :
  0 <= i <= 2 -> 0 <= k <= d -> 0 <= l <= d ->
  0 <= i' <= 2 -> 0 <= k' <= d -> 0 <= l' <= d ->
  ndindex [3; d + 1; d + 1; n] [i; k; l; u]
  = ndindex [3; d + 1; d + 1; n] [i'; k'; l'; u'] ->
  i = i' /\ k = k' /\ l = l' /\ u = u'.
Proof.
  intros Hi Hk Hl Hi' Hk' Hl'. cbn [ndindex]. intros Heq.
  assert (E1 : i = i' /\ k + (d + 1) * (l + (d + 1) * (u + n * 0))
               = k' + (d + 1) * (l' + (d + 1) * (u' + n * 0))).
  { assert (k + (d + 1) * (l + (d + 1) * (u + n * 0))
            = k' + (d + 1) * (l' + (d + 1) * (u' + n * 0))) by lia.
    split; lia. }
  destruct E1 as [Ei E1].
  assert (E2 : l + (d + 1) * (u + n * 0) = l' + (d + 1) * (u' + n * 0)) by nia.
  assert (Ek : k = k') by nia.
  assert (E3 : u + n * 0 = u' + n * 0) by nia.
  assert (El : l = l') by nia.
  repeat split; lia.
Qed.

Lemma wf_skl_ndupd (d n : Z) (skl : NDArray D) (idx : list Z) (x : D) :
  wf_skl d n skl -> wf_skl d n (ndupd skl idx x).
Proof.
  intros [Hd Hn]. unfold wf_skl, ndupd. simpl. rewrite numel_upd. auto.
Qed.

Lemma skl_upd_same (d n : Z) (skl : NDArray D) (i k l u : Z) (x : D) :
  wf_skl d n skl ->
  0 <= i <= 2 -> 0 <= k <= d -> 0 <= l <= d -> 0 <= u < n ->
  ndelem (ndupd skl [i; k; l; u] x) [i; k; l; u] = x.
Proof.
  intros [Hd Hn] Hi Hk Hl Hu. unfold ndelem, ndupd. simpl dims. simpl nddata.
  rewrite Hd. apply elem_upd_same. rewrite Hn.
  apply skl_index_range; assumption.
Qed.

Lemma skl_upd_other (d n : Z) (skl : NDArray D) (i k l u i' k' l' u' : Z)
  (x : D) :
  wf_skl d n skl ->
  0 <= i <= 2 -> 0 <= k <= d -> 0 <= l <= d ->
  0 <= i' <= 2 -> 0 <= k' <= d -> 0 <= l' <= d ->
  (i, k, l, u) <> (i', k', l', u') ->
  ndelem (ndupd skl [i; k; l; u] x) [i'; k'; l'; u'] = ndelem skl [i'; k'; l'; u'].
Proof.
  intros [Hd Hn] Hi Hk Hl Hi' Hk' Hl' Hne.
  unfold ndelem, ndupd. simpl dims. simpl nddata.
  rewrite Hd. apply elem_upd_other. intros Heq.
  destruct (skl_index_inj d n i k l u i' k' l' u' Hi Hk Hl Hi' Hk' Hl' Heq)
    as [E1 [E2 [E3 E4]]].
  congruence.
Qed.

Lemma wf_skl_filled (d n : Z) (x : D) :
  0 <= d -> 0 <= n -> wf_skl d n (ndfilled [3; d + 1; d + 1; n] x).
Proof.
  intros Hd Hn. unfold wf_skl, ndfilled. simpl dims. simpl nddata.
  split; [reflexivity|]. rewrite numel_filled. cbn [ndsize].
  apply Z.max_r. repeat apply Z.mul_nonneg_nonneg; lia.
Qed.

End SklFacts.

(** ** [nrbsurfderiveval]: the unweighting in exact arithmetic *)

Section UnweightExact.
Local Open Scope Z_scope.

Lemma bincoeff_1_1 (st : factln_static R) : bincoeff 1 1 st = Done (1%R, st).
Proof.
  unfold bincoeff, bind, factln, ret. simpl. r_ops.
  do 2 f_equal.
  replace (0 - 0 - 0)%R with 0%R by lra. rewrite exp_0.
  rewrite (Zfloor_eq 1); [reflexivity|].
  change (10 ^ 1) with 10. lra.
Qed.

Ltac run_1_1 :=
  unfold for_loop_c; change (zrange 1 1) with [1]; cbn [fold_left];
  unfold bind, ret; cbn beta; rewrite ?bincoeff_1_1; cbn beta iota;
  rewrite ?bincoeff_1_1; cbn beta iota; rewrite ?bincoeff_1_1; cbn beta iota.

(** What the sources compute at k = l = 1 *)
Lemma unweight_1_1 (wders Aders : Matrix R) (idim iu : Z) (skl : NDArray R)
  (st : factln_static R) :
  unweight wders Aders idim iu 1 1 skl st =
  Done (ndupd skl [idim; 1; 1; iu]
          ((melem Aders 1%Z 1%Z
            - 1 * melem wders 0%Z 1%Z * ndelem skl [idim; 1%Z; 1%Z; iu]
            - 1 * melem wders 1%Z 0%Z * ndelem skl [idim; 0%Z; 1%Z; iu]
            - 1 * (0 + 1 * melem1 wders 1%Z)) / melem wders 0%Z 0%Z)%R, st).
Proof.
  unfold unweight, v2_loop. run_1_1. r_ops. reflexivity.
Qed.

(** What section 4.6 of the specification asks for at k = l = 1 *)
Lemma unweight_doc_1_1 (wders Aders : Matrix R) (idim iu : Z) (skl : NDArray R)
  (st : factln_static R) :
  unweight_doc wders Aders idim iu 1 1 skl st =
  Done (ndupd skl [idim; 1; 1; iu]
          ((melem Aders 1%Z 1%Z
            - 1 * melem wders 0%Z 1%Z * ndelem skl [idim; 1%Z; 0%Z; iu]
            - 1 * melem wders 1%Z 0%Z * ndelem skl [idim; 0%Z; 1%Z; iu]
            - 1 * (0 + 1 * melem wders 1%Z 1%Z)) / melem wders 0%Z 0%Z)%R, st).
Proof.
  unfold unweight_doc. run_1_1. r_ops. reflexivity.
Qed.

(** Whatever the data, the body of the loop on [l] stores into its own cell
    of [skl] and nowhere else. *)
Lemma unweight_frame (wders Aders : Matrix R) (idim iu k l : Z)
  (skl : NDArray R) :
  0 <= k <= 100 -> 0 <= l <= 100 ->
  safe (unweight wders Aders idim iu k l skl)
       (fun skl' => exists x, skl' = ndupd skl [idim; k; l; iu] x).
Proof.
  intros Hk Hl. unfold unweight.
  apply (safe_bind _ _ (fun _ => True)).
  { apply (for_loop_c_inv (fun _ (_ : R) => True)); [lia | exact I |].
    intros j v Hj _.
    apply (safe_bind _ _ (fun _ => True)); [apply safe_bincoeff; lia|].
    intros b _. apply safe_ret. exact I. }
  intros v _.
  apply (safe_bind _ _ (fun _ => True)).
  { apply (for_loop_c_inv (fun _ (_ : R) => True)); [lia | exact I |].
    intros i v' Hi _.
    apply (safe_bind _ _ (fun _ => True)); [apply safe_bincoeff; lia|].
    intros b _.
    apply (safe_bind _ _ (fun _ => True)).
    { unfold v2_loop.
      apply (for_loop_c_inv (fun _ (_ : R) => True)); [lia | exact I |].
      intros j v2 Hj _.
      apply (safe_bind _ _ (fun _ => True)); [apply safe_bincoeff; lia|].
      intros b2 _. apply safe_ret. exact I. }
    intros v2 _.
    apply (safe_bind _ _ (fun _ => True)); [apply safe_bincoeff; lia|].
    intros b' _. apply safe_ret. exact I. }
  intros v' _. apply safe_ret. eexists. reflexivity.
Qed.

Lemma unweight_1_1_bug (idim iu : Z) (skl : NDArray R) (st : factln_static R) :
  unweight wders_bug Aders_bug idim iu 1 1 skl st
  = Done (ndupd skl [idim; 1; 1; iu] 5%R, st).
Proof.
  rewrite unweight_1_1. do 3 f_equal.
  unfold melem, melem1, wders_bug, Aders_bug, elem. simpl. field.
Qed.

Lemma unweight_all_bug :
  safe (unweight_all 2 wders_bug Aders_bug 0 0 (ndfilled [3; 3; 3; 1] 0%R))
       (fun skl => ndelem skl [0; 1; 1; 0] = 5%R).
Proof.
  unfold unweight_all.
  apply (safe_weaken _ (passed_1_1 (2 + 1) 0)).
  - apply (for_loop_c_inv (fun k => passed_1_1 k 0)); try lia.
    + split; [apply (wf_skl_filled 2 1); lia | intros Hc; lia].
    + intros k s Hk Hs.
      apply (safe_weaken _ (passed_1_1 k (2 - k + 1))).
      * apply (for_loop_c_inv (fun l => passed_1_1 k l)); try lia.
        -- destruct Hs as [Hwf Hval]. split; [exact Hwf|].
           intros Hc. apply Hval. lia.
        -- intros l s' Hl [Hwf Hval].
           destruct (Z.eq_dec k 1) as [Ek|Nk];
             [destruct (Z.eq_dec l 1) as [El|Nl]|].
           ++ subst k l. intros st Hst. rewrite unweight_1_1_bug.
              eexists. eexists. split; [reflexivity|]. split; [exact Hst|].
              split; [apply wf_skl_ndupd; exact Hwf|]. intros _.
              apply (skl_upd_same 2 1); try assumption; lia.
           ++ apply (safe_weaken _
                (fun x => exists y, x = ndupd s' [0; k; l; 0] y)).
              ** apply unweight_frame; lia.
              ** intros x [y Hx]. subst x.
                 split; [apply wf_skl_ndupd; exact Hwf|]. intros Hc. lia.
           ++ apply (safe_weaken _
                (fun x => exists y, x = ndupd s' [0; k; l; 0] y)).
              ** apply unweight_frame; lia.
              ** intros x [y Hx]. subst x.
                 split; [apply wf_skl_ndupd; exact Hwf|]. intros Hc.
                 rewrite (skl_upd_other 2 1); try assumption; try lia.
                 --- apply Hval. lia.
                 --- intros Heq. injection Heq as E1 E2. lia.
      * intros x [Hwf Hval]. split; [exact Hwf|]. intros Hc. apply Hval. lia.
  - intros x [_ Hval]. apply Hval. lia.
Qed.

(** C1, the code against the claim.  Take the rational surface
    x = (1 + 5 u v) / (1 + u v) at (u, v) = (0, 0) with d = 2: the weight
    derivatives are [wders_bug] (wders(0,0) = wders(1,1) = 1, the others 0)
    and those of the numerator are [Aders_bug] (Aders(0,0) = 1,
    Aders(1,1) = 5).  The sources accumulate the cross term from
    [wders(1)], the cell (1,0) of the block, so it comes out 0; they store
    5 in skl(i,1,1,iu), and the loops on k and l leave 5 there.  The formula
    of the claim accumulates binom(1,1) * wders(1,1) = 1 and stores 4, which
    is the mixed derivative of x. *)
Theorem unweight_cross_term :
  (forall st, v2_loop wders_bug 1 1 st = Done (0%R, st)) /\
  (forall idim iu skl st,
     unweight wders_bug Aders_bug idim iu 1 1 skl st
     = Done (ndupd skl [idim; 1; 1; iu] 5%R, st)) /\
  (forall idim iu skl st,
     unweight_doc wders_bug Aders_bug idim iu 1 1 skl st
     = Done (ndupd skl [idim; 1; 1; iu] 4%R, st)) /\
  exists skl st,
    unweight_all 2 wders_bug Aders_bug 0 0 (ndfilled [3; 3; 3; 1] 0%R)
      factln_init = Done (skl, st) /\
    ndelem skl [0; 1; 1; 0] = 5%R.
Proof.
  split; [|split; [|split]].
  - intros st. unfold v2_loop. run_1_1. r_ops. do 2 f_equal.
    unfold melem1, wders_bug, elem. simpl. lra.
  - intros idim iu skl st. apply unweight_1_1_bug.
  - intros idim iu skl st. rewrite unweight_doc_1_1. do 3 f_equal.
    unfold melem, melem1, wders_bug, Aders_bug, elem. simpl. field.
  - destruct (unweight_all_bug factln_init wf_cache_init)
      as [skl [st [Hrun [_ Hval]]]].
    exists skl, st. split; assumption.
Qed.

End UnweightExact.

Section SklInvariant.
Context {D : Type} `{Scalar D}.
Local Open Scope Z_scope.

Lemma skl_inv_store (d n : Z) (V : Z -> Z -> Z -> Z -> D) (iu idim k l : Z)
  (skl : NDArray D) :
  skl_inv d n V iu idim k l skl ->
  0 <= idim <= 2 -> 0 <= k -> 0 <= l -> k + l <= d -> 0 <= iu < n ->
  skl_inv d n V iu idim k (l + 1) (ndupd skl [idim; k; l; iu] (V idim k l iu)).
Proof.
  intros [Hwf Hold] Hi Hk Hl Hkl Hu. split; [apply wf_skl_ndupd; exact Hwf|].
  intros i' k' l' u' Hi' Hk' Hl' Hu' [Hkl' Hfin].
  destruct (Z.eq_dec i' idim) as [Ei|Ni];
    destruct (Z.eq_dec k' k) as [Ek|Nk];
    destruct (Z.eq_dec l' l) as [El|Nl];
    destruct (Z.eq_dec u' iu) as [Eu|Nu];
    try (subst i' k' l' u';
         apply (skl_upd_same d n); try assumption; lia);
    (rewrite (skl_upd_other d n); try assumption; try lia;
     [ apply Hold; try assumption; split; [exact Hkl' | lia]
     | congruence ]).
Qed.

Lemma skl_inv_shift (d n : Z) (V : Z -> Z -> Z -> Z -> D)
  (iu idim k l iu' idim' k' l' : Z) (skl : NDArray D) :
  skl_inv d n V iu idim k l skl ->
  (forall i1 k1 l1 u1,
     0 <= i1 <= 2 -> 0 <= k1 -> 0 <= l1 -> 0 <= u1 < n ->
     finished d iu' idim' k' l' i1 k1 l1 u1 ->
     finished d iu idim k l i1 k1 l1 u1) ->
  skl_inv d n V iu' idim' k' l' skl.
Proof.
  intros [Hwf Hold] Hsub. split; [exact Hwf|].
  intros i1 k1 l1 u1 Hi1 Hk1 Hl1 Hu1 Hfin.
  apply Hold; try assumption. apply Hsub; assumption.
Qed.

End SklInvariant.

Section UnweightUniform.
Local Open Scope Z_scope.

Variable surfderiveval :
  Z -> Z -> RowVector R -> Z -> Z -> RowVector R -> Matrix R -> R -> R -> Z ->
  Matrix R.

Lemma v2_loop_uniform (d : Z) (wders : Matrix R) (l i : Z) :
  uniform_weights d wders -> 1 <= i <= d -> 0 <= l <= 100 ->
  safe (v2_loop wders l i) (fun v2 => v2 = 0%R).
Proof.
  intros [_ Hzero] Hi Hl. unfold v2_loop.
  apply (for_loop_c_inv (fun _ (v2 : R) => v2 = 0%R)); try lia.
  - reflexivity.
  - intros j v2 Hj Hv2. subst v2.
    apply (safe_bind _ _ (fun _ => True)); [apply safe_bincoeff; lia|].
    intros b _. apply safe_ret.
    pose proof (Hzero i 0 ltac:(lia) ltac:(lia) ltac:(lia)) as Hw.
    unfold melem in Hw. replace (i + 0 * rows wders) with i in Hw by lia.
    unfold melem1. rewrite Hw. r_ops. ring.
Qed.

Lemma unweight_uniform (d : Z) (wders Aders : Matrix R) (idim iu k l : Z)
  (skl : NDArray R) :
  uniform_weights d wders -> 0 <= d <= 100 -> 0 <= k <= d -> 0 <= l <= d ->
  safe (unweight wders Aders idim iu k l skl)
       (fun skl' => skl' = ndupd skl [idim; k; l; iu] (melem Aders k l)).
Proof.
  intros Hu Hd Hk Hl. pose proof Hu as [Hone Hzero]. unfold unweight.
  apply (safe_bind _ _ (fun v => v = melem Aders k l)).
  { apply (for_loop_c_inv (fun _ (v : R) => v = melem Aders k l)); try lia.
    - reflexivity.
    - intros j v Hj Hv. subst v.
      apply (safe_bind _ _ (fun _ => True)); [apply safe_bincoeff; lia|].
      intros b _. apply safe_ret.
      rewrite (Hzero 0 j ltac:(lia) ltac:(lia) ltac:(lia)). r_ops. ring. }
  intros v Hv. subst v.
  apply (safe_bind _ _ (fun v => v = melem Aders k l)).
  { apply (for_loop_c_inv (fun _ (v : R) => v = melem Aders k l)); try lia.
    - reflexivity.
    - intros i v Hi Hv. subst v.
      apply (safe_bind _ _ (fun _ => True)); [apply safe_bincoeff; lia|].
      intros b _.
      apply (safe_bind _ _ (fun v2 => v2 = 0%R));
        [apply (v2_loop_uniform d); try assumption; lia|].
      intros v2 Hv2. subst v2.
      apply (safe_bind _ _ (fun _ => True)); [apply safe_bincoeff; lia|].
      intros b' _. apply safe_ret.
      rewrite (Hzero i 0 ltac:(lia) ltac:(lia) ltac:(lia)). r_ops. ring. }
  intros v Hv. subst v. apply safe_ret.
  rewrite Hone. r_ops. f_equal. field.
Qed.

Lemma unweight_all_uniform (d n : Z) (V : Z -> Z -> Z -> Z -> R)
  (wders Aders : Matrix R) (idim iu : Z) (skl : NDArray R) :
  uniform_weights d wders -> 0 <= d <= 100 ->
  0 <= idim <= 2 -> 0 <= iu < n ->
  (forall k l, melem Aders k l = V idim k l iu) ->
  skl_inv d n V iu idim 0 0 skl ->
  safe (unweight_all d wders Aders idim iu skl)
       (skl_inv d n V iu (idim + 1) 0 0).
Proof.
  intros Hu Hd Hi Hiu HV Hinv. unfold unweight_all.
  apply (safe_weaken _ (skl_inv d n V iu idim (d + 1) 0)).
  - apply (for_loop_c_inv (fun k => skl_inv d n V iu idim k 0)); try lia.
    + exact Hinv.
    + intros k s Hk Hs.
      apply (safe_weaken _ (skl_inv d n V iu idim k (d - k + 1))).
      * apply (for_loop_c_inv (fun l => skl_inv d n V iu idim k l)); try lia.
        -- exact Hs.
        -- intros l s' Hl Hs'.
           apply (safe_weaken _
                    (fun x => x = ndupd s' [idim; k; l; iu] (melem Aders k l))).
           ++ apply (unweight_uniform d); try assumption; lia.
           ++ intros x Hx. subst x. rewrite HV.
              apply skl_inv_store; try assumption; lia.
      * intros x Hx. apply (skl_inv_shift d n V iu idim k (d - k + 1)); [exact Hx|].
        intros i1 k1 l1 u1 Hi1 Hk1 Hl1 Hu1 [Hsum Hfin]. split; [exact Hsum|]. lia.
  - intros x Hx. apply (skl_inv_shift d n V iu idim (d + 1) 0); [exact Hx|].
    intros i1 k1 l1 u1 Hi1 Hk1 Hl1 Hu1 [Hsum Hfin]. split; [exact Hsum|]. lia.
Qed.

(** C6.  In exact arithmetic: when the weight field is 1 everywhere, so that
    at every sample [wders(0,0) = 1] and [wders(k,l) = 0] for
    [k + l >= 1], the call returns (for an order d <= 100, which keeps
    [bincoeff] inside its cache) and [skl(i,k,l,iu) = Aders(k,l)] for every
    dimension i, every sample iu and every k, l with [k + l <= d], where
    [Aders] is what [surfderiveval] gave for dimension i at sample iu. *)
Theorem unweighting_identity (srf : nurbs R) (uv : Matrix R) (d : Z)
  (st : factln_static R) :
  0 <= d <= 100 -> 0 <= cols uv -> wf_cache st ->
  (forall iu, 0 <= iu < cols uv ->
              uniform_weights d (ders_of surfderiveval srf uv d 3 iu)) ->
  exists skl st',
    nrbsurfderiveval surfderiveval false srf uv d st = Done (Some skl, st') /\
    forall i k l iu,
      0 <= i <= 2 -> 0 <= k -> 0 <= l -> k + l <= d -> 0 <= iu < cols uv ->
      ndelem skl [i; k; l; iu]
      = melem (ders_of surfderiveval srf uv d i iu) k l.
Proof.
  intros Hd Hn Hwf Hu.
  set (V := fun i k l iu => melem (ders_of surfderiveval srf uv d i iu) k l).
  assert (Hloop :
    safe (for_loop_c 0 (cols uv - 1) (nrbsurfderiveval_point surfderiveval srf uv d)
            (ndfilled [3; d + 1; d + 1; cols uv] 0.0%D))
         (skl_inv d (cols uv) V (cols uv - 1 + 1) 0 0 0)).
  { apply (for_loop_c_inv (fun iu => skl_inv d (cols uv) V iu 0 0 0)); try lia.
    - split; [apply wf_skl_filled; lia|].
      intros i' k' l' u' Hi' Hk' Hl' Hu' [_ Hfin]. lia.
    - intros iu s Hiu Hs. unfold nrbsurfderiveval_point.
      apply (safe_weaken _ (skl_inv d (cols uv) V iu (2 + 1) 0 0)).
      + apply (for_loop_c_inv (fun i => skl_inv d (cols uv) V iu i 0 0));
          try lia; [exact Hs|].
        intros i s' Hi Hs'.
        apply (unweight_all_uniform d (cols uv) V); try assumption; try lia.
        * apply Hu. lia.
        * intros k l. reflexivity.
      + intros x Hx. apply (skl_inv_shift d (cols uv) V iu (2 + 1) 0 0); [exact Hx|].
        intros i1 k1 l1 u1 Hi1 Hk1 Hl1 Hu1 [Hsum Hfin]. split; [exact Hsum|]. lia. }
  destruct (Hloop st Hwf) as [skl [st' [Hrun [_ [_ Hall]]]]].
  exists skl, st'. split.
  - unfold nrbsurfderiveval, bind. cbn [negb]. rewrite Hrun. reflexivity.
  - intros i k l iu Hi Hk Hl Hkl Hiu.
    apply (Hall i k l iu Hi Hk Hl Hiu). split; [exact Hkl | lia].
Qed.

End UnweightUniform.

(** ** Runs in exact arithmetic *)

Lemma U_exact_nondecreasing : nondecreasing U_exact.
Proof.
  intros i Hlo Hhi. change (numel U_exact) with 7%Z in Hhi.
  assert (Hi : (i = 0 \/ i = 1 \/ i = 2 \/ i = 3 \/ i = 4 \/ i = 5)%Z) by lia.
  destruct Hi as [Hi|[Hi|[Hi|[Hi|[Hi|Hi]]]]]; subst i;
    apply R_leb_true; unfold elem, U_exact; simpl; lra.
Defined.

Lemma basisfun_partition_witness :
  numel (basisfun 2 (1 / 4)%R 2 U_exact [0; 0; 0]%R) = 3%Z /\
  (forall r, (0 <= r <= 2)%Z ->
             (0 <= elem (basisfun 2 (1 / 4)%R 2 U_exact [0; 0; 0]%R) r)%R) /\
  dsum 0 2 (elem (basisfun 2 (1 / 4)%R 2 U_exact [0; 0; 0]%R)) = 1%R.
Proof.
  apply (basisfun_partition 2 2 (1 / 4)%R U_exact [0; 0; 0]%R).
  - lia.
  - lia.
  - change (numel U_exact) with 7%Z. lia.
  - reflexivity.
  - exact U_exact_nondecreasing.
  - unfold elem, U_exact. simpl. lra.
  - unfold elem, U_exact. simpl. lra.
Defined.

Lemma factln_cache_witness :
  (3 <= 100 ->
   exists v st',
     factln 3 (factln_init (D:=R)) = Done (v, st') /\ wf_cache st' /\
     (ntop (factln_init (D:=R)) <= ntop st')%Z /\
     forall i, (i <= ntop (factln_init (D:=R)))%Z ->
               elem (a st') i = elem (a (factln_init (D:=R))) i)%Z /\
  (100 < 3 -> factln 3 (factln_init (D:=R)) = OutOfBounds)%Z.
Proof.
  apply (factln_cache (D:=R) 3 factln_init).
  split; [simpl; lia | reflexivity].
Defined.

Lemma uniform_const (iu : Z) :
  uniform_weights 1 (ders_of surfderiveval_const srf_flat uv_one 1 3 iu).
Proof.
  split; [reflexivity|].
  intros k l Hk Hl Hkl.
  assert (Hc : ((k = 0 /\ l = 1) \/ (k = 1 /\ l = 0) \/ (k = 1 /\ l = 1))%Z) by lia.
  destruct Hc as [[Ek El]|[[Ek El]|[Ek El]]]; subst k l; reflexivity.
Defined.

Lemma unweighting_identity_witness :
  exists skl st',
    nrbsurfderiveval surfderiveval_const false srf_flat uv_one 1 factln_init
      = Done (Some skl, st') /\
    forall i k l iu,
      (0 <= i <= 2)%Z -> (0 <= k)%Z -> (0 <= l)%Z -> (k + l <= 1)%Z ->
      (0 <= iu < 1)%Z ->
      ndelem skl [i; k; l; iu]
      = melem (ders_of surfderiveval_const srf_flat uv_one 1 i iu) k l.
Proof.
  apply (unweighting_identity surfderiveval_const srf_flat uv_one 1 factln_init).
  - lia.
  - simpl. lia.
  - split; [simpl; lia | reflexivity].
  - intros iu _. exact (uniform_const iu).
Defined.

(* The scenario of the specification: at u = 0 the basis functions on
   [U_test] are (1, 0, 0), and at u = 1 they are (0, 0, 1) *)
Example basisfun_ends :
  basisfun 2 0%float 2 U_test [0; 0; 0]%float = [1; 0; 0]%float /\
  basisfun 3 1%float 2 U_test [0; 0; 0]%float = [0; 0; 1]%float.
Proof. split; vm_compute; reflexivity. Qed.

(* The test of the sources: the basis functions on [U_test] at
   linspace (0, 1, 10), against the reference table within 1e-5 *)
#[warnings="-inexact-float"]
Example basisfun_test :
  let us := map (fun i => (float_of_int i / 9)%float) (zrange 0 9) in
  let B :=
    map (fun u =>
           match findspan 3 3 2 u U_test with
           | Some s => basisfun s u 2 U_test [0; 0; 0]%float
           | None => []
           end) us in
  forallb (fun row =>
             forallb (fun bx => (abs (fst bx - snd bx) <=? 1e-5)%float)
                     (combine (fst row) (snd row)))
          (combine B Bref) = true /\
  forallb (fun N => forallb (fun x => (0 <=? x)%float) N) B = true /\
  forallb (fun N => (abs (fold_left PrimFloat.add N 0%float - 1) <=? 1e-15)%float)
          B = true.
Proof. vm_compute. repeat split. Qed.

(** * Further properties *)

(** ** [findspan] outside its domain *)

Section FindSpanOutside.
Context {D : Type} `{Scalar D} {HO : OrderLaws D}.
Local Open Scope Z_scope.

Lemma quot2_mid (low high : Z) :
  0 <= low -> low <= high -> low <= Z.quot (low + high) 2 <= high.
Proof.
  intros Hlow Hle. rewrite Z.quot_div_nonneg by lia.
  pose proof (Z.div_mod (low + high) 2 ltac:(lia)) as Hdm.
  pose proof (Z.mod_pos_bound (low + high) 2 ltac:(lia)) as Hmod.
  lia.
Qed.

Lemma quot2_below (low high n : Z) :
  0 <= low -> low <= n -> low <= high <= n + 1 ->
  Z.quot (low + high) 2 <= n.
Proof.
  intros Hlow Hn Hhigh. rewrite Z.quot_div_nonneg by lia.
  assert ((low + high) / 2 < n + 1) by (apply Z.div_lt_upper_bound; lia).
  lia.
Qed.

(* Above the last knot of the domain the loop condition holds for ever *)
Lemma findspan_loop_above (n : Z) (u : D) (U : RowVector D) (fuel : nat) :
  nondecreasing U -> n + 1 < numel U -> le_d (elem U (n + 1)) u ->
  forall low high,
    0 <= low <= n -> low <= high <= n + 1 ->
    findspan_loop fuel u U (low, high, Z.quot (low + high) 2) = None.
Proof.
  intros Hs Hn Hu. induction fuel as [|fuel IH]; intros low high Hlow Hhigh.
  - reflexivity.
  - pose proof (quot2_mid low high ltac:(lia) ltac:(lia)) as Hmid.
    pose proof (quot2_below low high n ltac:(lia) ltac:(lia) ltac:(lia)) as Hmidn.
    set (mid := Z.quot (low + high) 2) in *.
    assert (Hge : (u >=? elem U (mid + 1))%D = true).
    { destruct (Z.eq_dec (mid + 1) (n + 1)) as [Heq|Hne].
      - rewrite Heq. exact Hu.
      - apply (le_trans _ (elem U (n + 1))); [|exact Hu].
        apply nondecreasing_lt; try assumption; lia. }
    simpl. unfold findspan_step. fold mid. rewrite Hge, orb_true_r.
    destruct (u <? elem U mid)%D; apply IH; lia.
Qed.

(** X1.  A sample beyond the upper end of the domain hangs the search: for a
    non-decreasing [U], [0 <= p <= n], and [u >= U(n+1)] with
    [u != U(n+1)], the loop of [findspan] is still running after any number
    of tests. *)
Theorem findspan_above_domain (n p : Z) (u : D) (U : RowVector D) :
  nondecreasing U -> 0 <= p <= n -> n + 1 < numel U ->
  le_d (elem U (n + 1)) u -> (u ==? elem U (n + 1))%D = false ->
  forall fuel, findspan fuel n p u U = None.
Proof.
  intros Hs Hp Hn Hu Hne fuel. unfold findspan. rewrite Hne.
  apply (findspan_loop_above n); try assumption; lia.
Qed.

End FindSpanOutside.

Lemma findspan_above_domain_witness :
  findspan 1000 3 2 2%float U_test = None.
Proof.
  apply (@findspan_above_domain float _ _ 3 2 2%float U_test).
  - exact U_test_nondecreasing.
  - lia.
  - vm_compute. reflexivity.
  - vm_compute. reflexivity.
  - vm_compute. reflexivity.
Defined.

(** *** Not a number *)

Lemma SFeqb_irrefl_nan (x : spec_float) : SFeqb x x = false -> x = S754_nan.
Proof.
  unfold SFeqb. destruct x as [s|s| |s m e]; simpl; try discriminate.
  - destruct s; discriminate.
  - reflexivity.
  - destruct s; rewrite Z.compare_refl, Pos.compare_cont_refl; discriminate.
Qed.

Lemma SFcompare_nan_r (x : spec_float) : SFcompare x S754_nan = None.
Proof. destruct x; reflexivity. Qed.

(* Every comparison with a NaN is false *)
Lemma nan_compares (u x : float) :
  (u =? u)%float = false ->
  (u =? x)%float = false /\ (u <? x)%float = false /\ (x <=? u)%float = false.
Proof.
  intros Hnan. rewrite eqb_spec in Hnan. apply SFeqb_irrefl_nan in Hnan.
  rewrite eqb_spec, ltb_spec, leb_spec, Hnan.
  unfold SFeqb, SFltb, SFleb. rewrite SFcompare_nan_r. simpl. auto.
Qed.

(** X2.  On binary64, a sample that is not a number ([u == u] is false) is
    not searched for: [findspan] leaves the loop at its first test and
    returns the middle index [(p + n + 1) / 2], whatever the knots are. *)
Theorem findspan_nan (fuel : nat) (n p : Z) (u : float) (U : RowVector float) :
  (u =? u)%float = false ->
  findspan (S fuel) n p u U = Some (Z.quot (p + (n + 1)) 2).
Proof.
  intros Hnan. unfold findspan. simpl.
  destruct (nan_compares u (elem U (n + 1)%Z) Hnan) as [He _]. rewrite He.
  unfold findspan_step. simpl.
  destruct (nan_compares u (elem U (Z.quot (p + (n + 1)) 2)) Hnan)
    as [_ [Hl _]].
  destruct (nan_compares u (elem U (Z.quot (p + (n + 1)) 2 + 1)%Z) Hnan)
    as [_ [_ Hg]].
  rewrite Hl, Hg. reflexivity.
Qed.

Lemma findspan_nan_witness :
  findspan 1 3 2 nan U_test = Some (Z.quot (2 + (3 + 1)) 2).
Proof.
  apply (findspan_nan 0 3 2 nan U_test). vm_compute. reflexivity.
Defined.

(** ** The memo of [factln] and the values of [bincoeff] *)

Section MemoFacts.
Context {D : Type} `{Scalar D} `{MathLib D}.
Local Open Scope Z_scope.

Lemma cache_coherent_init : cache_coherent (factln_init (D:=D)).
Proof.
  split; [apply wf_cache_init|]. simpl. intros i Hi. lia.
Qed.

Lemma factln_fill_coherent (todo : nat) :
  forall st : factln_static D,
    cache_coherent st -> ntop st + Z.of_nat todo <= 100 ->
    exists st',
      factln_fill todo st = Done st' /\ cache_coherent st' /\
      ntop st' = ntop st + Z.of_nat todo.
Proof.
  induction todo as [|todo IH]; intros st [[Hn Hlen] Hval] Hroom.
  - exists st. simpl. repeat split; try assumption; lia.
  - cbn [factln_fill]. assert (Hin : in_cache (ntop st + 1) = true)
      by (apply in_cache_true; lia).
    rewrite Hin.
    destruct (IH {| ntop := ntop st + 1;
                    a := upd (a st) (ntop st + 1)
                           (gammaln (of_int (ntop st + 1) + 1.0)%D) |})
      as [st' [Hrun [Hco Htop]]].
    + split; [split; cbn [ntop a]; [lia | rewrite numel_upd; exact Hlen]|].
      cbn [ntop a]. intros i Hi.
      destruct (Z.eq_dec i (ntop st + 1)) as [Heq|Hne].
      * subst i. apply elem_upd_same. lia.
      * rewrite elem_upd_other by lia. apply Hval. lia.
    + cbn [ntop]. lia.
    + exists st'. cbn [ntop] in Htop. repeat split; try apply Hco;
        try assumption. lia.
Qed.

(* From a coherent cache [factln] returns the value of a direct computation *)
Lemma factln_coherent (n : Z) (st : factln_static D) :
  cache_coherent st -> n <= 100 ->
  exists st',
    factln n st = Done (factln_value n, st') /\ cache_coherent st' /\
    ntop st <= ntop st'.
Proof.
  intros Hco Hn. pose proof Hco as [[Htop Hlen] Hval].
  unfold factln, factln_value.
  destruct (Z.leb_spec n 1) as [Hsmall|Hbig].
  - exists st. repeat split; try assumption; lia.
  - destruct (factln_fill_coherent (Z.to_nat (n - ntop st)) st Hco ltac:(lia))
      as [st' [Hrun [Hco' Htop']]].
    rewrite Hrun.
    assert (Hin : in_cache n = true) by (apply in_cache_true; lia).
    rewrite Hin. exists st'. destruct Hco' as [Hwf' Hval'].
    rewrite (Hval' n ltac:(lia)).
    split; [reflexivity|]. split; [split; assumption | lia].
Qed.

(* A call within the filled part of the cache reads and does not write *)
Lemma factln_cached (n : Z) (st : factln_static D) :
  wf_cache st -> n <= ntop st ->
  factln n st = Done (if n <=? 1 then 0.0%D else elem (a st) n, st).
Proof.
  intros [Htop Hlen] Hn. unfold factln.
  destruct (Z.leb_spec n 1) as [Hsmall|Hbig]; [reflexivity|].
  replace (Z.to_nat (n - ntop st)) with O by lia. simpl.
  assert (Hin : in_cache n = true) by (apply in_cache_true; lia).
  rewrite Hin. reflexivity.
Qed.

(* What a first call leaves behind *)
Lemma factln_run (n : Z) (st : factln_static D) :
  wf_cache st -> n <= 100 ->
  exists v st',
    factln n st = Done (v, st') /\ wf_cache st' /\
    (1 < n -> n <= ntop st' /\ v = elem (a st') n) /\
    (n <= 1 -> st' = st /\ v = 0.0%D).
Proof.
  intros Hwf Hn. pose proof Hwf as [Htop Hlen]. unfold factln.
  destruct (Z.leb_spec n 1) as [Hsmall|Hbig].
  - exists 0.0%D, st. split; [reflexivity|]. split; [exact Hwf|].
    split; [intros Hc; lia | auto].
  - destruct (factln_fill_done (Z.to_nat (n - ntop st)) st Hwf ltac:(lia))
      as [st' [Hrun [Hwf' [Htop' _]]]].
    rewrite Hrun.
    assert (Hin : in_cache n = true) by (apply in_cache_true; lia).
    rewrite Hin. exists (elem (a st') n), st'.
    split; [reflexivity|]. split; [exact Hwf'|].
    split; [intros _; split; [lia | reflexivity] | intros Hc; lia].
Qed.

(** X3.  Once [factln n] has returned, the arguments up to [n] are served
    from the cache: a call [factln m] with [m <= n] returns without writing
    the statics, and [factln n] returns the same value again. *)
Theorem factln_served (n m : Z) (st st' : factln_static D) (v : D) :
  wf_cache st -> n <= 100 -> m <= n ->
  factln n st = Done (v, st') ->
  (exists w, factln m st' = Done (w, st')) /\ factln n st' = Done (v, st').
Proof.
  intros Hwf Hn Hm Hrun.
  destruct (factln_run n st Hwf Hn) as [v1 [st1 [Hrun1 [Hwf1 [Hbig Hsmall]]]]].
  rewrite Hrun in Hrun1. injection Hrun1 as Ev Est. subst v1 st1.
  destruct (Z_le_gt_dec n 1) as [Hle|Hgt].
  - destruct (Hsmall Hle) as [Est Ev]. subst st' v. unfold factln.
    destruct (Z.leb_spec m 1); [|lia]. destruct (Z.leb_spec n 1); [|lia].
    split; [eexists|]; reflexivity.
  - destruct (Hbig ltac:(lia)) as [Htop Ev].
    split.
    + eexists. apply factln_cached; [exact Hwf1 | lia].
    + rewrite factln_cached by (try exact Hwf1; lia).
      destruct (Z.leb_spec n 1); [lia|]. rewrite Ev. reflexivity.
Qed.

(* From a coherent cache [bincoeff] returns the value of a direct
   computation *)
Lemma bincoeff_value (n k : Z) (st : factln_static D) :
  cache_coherent st -> n <= 100 -> k <= 100 -> n - k <= 100 ->
  exists st',
    bincoeff n k st =
    Done (dfloor (dlit 5 1 + dexp (factln_value n - factln_value k
                                     - factln_value (n - k)))%D, st') /\
    cache_coherent st'.
Proof.
  intros Hco Hn Hk Hnk. unfold bincoeff, bind, ret.
  destruct (factln_coherent n st Hco Hn) as [st1 [Hrun1 [Hco1 _]]].
  rewrite Hrun1.
  destruct (factln_coherent k st1 Hco1 Hk) as [st2 [Hrun2 [Hco2 _]]].
  rewrite Hrun2.
  destruct (factln_coherent (n - k) st2 Hco2 Hnk) as [st3 [Hrun3 [Hco3 _]]].
  rewrite Hrun3. exists st3. auto.
Qed.

(** X4.  The memo does not change results: from any two caches whose filled
    cells hold the values computed for their indices (the initial cache is
    one, and calls keep the property), [bincoeff n k] returns the same
    number, and leaves such caches. *)
Theorem bincoeff_history_free (n k : Z) (st st' : factln_static D) :
  cache_coherent st -> cache_coherent st' ->
  n <= 100 -> k <= 100 -> n - k <= 100 ->
  exists v s1 s2,
    bincoeff n k st = Done (v, s1) /\ bincoeff n k st' = Done (v, s2) /\
    cache_coherent s1 /\ cache_coherent s2.
Proof.
  intros Hco Hco' Hn Hk Hnk.
  destruct (bincoeff_value n k st Hco Hn Hk Hnk) as [s1 [Hrun1 Hco1]].
  destruct (bincoeff_value n k st' Hco' Hn Hk Hnk) as [s2 [Hrun2 Hco2]].
  eexists. exists s1, s2. split; [exact Hrun1|].
  split; [exact Hrun2|]. split; assumption.
Qed.

End MemoFacts.

Lemma factln_served_witness :
  exists v st',
    factln 3 (factln_init (D:=R)) = Done (v, st') /\
    (exists w, factln 2 st' = Done (w, st')) /\ factln 3 st' = Done (v, st').
Proof.
  destruct (factln_run (D:=R) 3 factln_init wf_cache_init ltac:(lia))
    as [v [st' [Hrun _]]].
  exists v, st'. split; [exact Hrun|].
  apply (factln_served (D:=R) 3 2 factln_init st' v).
  - exact wf_cache_init.
  - lia.
  - lia.
  - exact Hrun.
Defined.

Lemma bincoeff_history_free_witness :
  exists st',
    cache_coherent st' /\ (7 <= ntop st')%Z /\
    exists v s1 s2,
      bincoeff 5 2 (factln_init (D:=R)) = Done (v, s1) /\
      bincoeff 5 2 st' = Done (v, s2) /\
      cache_coherent s1 /\ cache_coherent s2.
Proof.
  destruct (factln_fill_coherent (D:=R) 7 factln_init cache_coherent_init
              ltac:(simpl; lia)) as [st' [_ [Hco Htop]]].
  exists st'. split; [exact Hco|]. split; [simpl in Htop; lia|].
  apply (bincoeff_history_free (D:=R) 5 2 factln_init st').
  - exact cache_coherent_init.
  - exact Hco.
  - lia.
  - lia.
  - lia.
Defined.

(** *** Exact values *)

Section BinomialExact.
Local Open Scope Z_scope.

Lemma floor_half_exp_0 (x : R) :
  x = 0%R -> dfloor (dlit 5 1 + dexp x)%D = 1%R.
Proof.
  intros Hx. subst x. r_ops. rewrite exp_0.
  rewrite (Zfloor_eq 1); [reflexivity|].
  change (10 ^ 1) with 10. lra.
Qed.

(** X5.  In exact arithmetic, whatever the cache holds: for
    [0 <= n <= 100], [bincoeff (n, 0)] and [bincoeff (n, n)] are exactly 1,
    since the logarithms that are subtracted are read from the same
    cell. *)
Theorem bincoeff_ends (n : Z) (st : factln_static R) :
  wf_cache st -> 0 <= n <= 100 ->
  (exists st', bincoeff n 0 st = Done (1%R, st')) /\
  (exists st', bincoeff n n st = Done (1%R, st')).
Proof.
  intros Hwf Hn.
  destruct (factln_run n st Hwf ltac:(lia))
    as [v [st1 [Hrun [Hwf1 [Hbig Hsmall]]]]].
  assert (Hagain : factln n st1 = Done (v, st1)).
  { destruct (Z_le_gt_dec n 1) as [Hle|Hgt].
    - destruct (Hsmall Hle) as [Est Ev]. subst st1 v. unfold factln.
      destruct (Z.leb_spec n 1); [reflexivity | lia].
    - destruct (Hbig ltac:(lia)) as [Htop Ev].
      rewrite factln_cached by (try exact Hwf1; lia).
      destruct (Z.leb_spec n 1); [lia|]. rewrite Ev. reflexivity. }
  assert (Hzero : factln 0 st1 = Done (0%R, st1)) by reflexivity.
  split; exists st1; unfold bincoeff, bind, ret.
  - rewrite Hrun, Hzero. replace (n - 0) with n by lia. rewrite Hagain.
    do 2 f_equal. apply floor_half_exp_0. r_ops. lra.
  - rewrite Hrun, Hagain. replace (n - n) with 0 by lia. rewrite Hzero.
    do 2 f_equal. apply floor_half_exp_0. r_ops. lra.
Qed.

(** X6.  In exact arithmetic, from a cache whose filled cells hold the values
    computed for their indices: [bincoeff (n, k)] and [bincoeff (n, n - k)]
    return the same number, for [0 <= k <= n <= 100]. *)
Theorem bincoeff_symmetric (n k : Z) (st : factln_static R) :
  cache_coherent st -> 0 <= k <= n -> n <= 100 ->
  exists v st1 st2,
    bincoeff n k st = Done (v, st1) /\ bincoeff n (n - k) st = Done (v, st2).
Proof.
  intros Hco Hk Hn.
  destruct (bincoeff_value n k st Hco) as [st1 [Hrun1 _]]; try lia.
  destruct (bincoeff_value n (n - k) st Hco) as [st2 [Hrun2 _]]; try lia.
  eexists. exists st1, st2. split; [exact Hrun1|].
  rewrite Hrun2. do 2 f_equal. replace (n - (n - k)) with k by lia.
  r_ops.
  replace (factln_value n - factln_value (n - k) - factln_value k)%R
    with (factln_value n - factln_value k - factln_value (n - k))%R by lra.
  reflexivity.
Qed.

End BinomialExact.

Lemma bincoeff_ends_witness :
  (exists st', bincoeff 4 0 (factln_init (D:=R)) = Done (1%R, st')) /\
  (exists st', bincoeff 4 4 (factln_init (D:=R)) = Done (1%R, st')).
Proof.
  apply (bincoeff_ends 4 factln_init).
  - exact wf_cache_init.
  - lia.
Defined.

Lemma bincoeff_symmetric_witness :
  exists v st1 st2,
    bincoeff 5 2 (factln_init (D:=R)) = Done (v, st1) /\
    bincoeff 5 (5 - 2) (factln_init (D:=R)) = Done (v, st2).
Proof.
  apply (bincoeff_symmetric 5 2 factln_init).
  - exact cache_coherent_init.
  - lia.
  - lia.
Defined.

(** ** [bspderiv]: its result as data of a spline *)

Section BspderivMore.
Context {D : Type} `{Scalar D}.
Local Open Scope Z_scope.

(** X7.  The result of [bspderiv] is again the data of a spline, of degree
    [d - 1]: for consistent data ([columns(c) + d = length(k) - 1],
    [d >= 0], at least one control point) with non-decreasing knots, [dc]
    and [dk] satisfy [columns(dc) + (d - 1) = length(dk) - 1], [dk] is
    non-decreasing, and [bspeval] called on them with degree [d - 1] never
    raises its inconsistency error. *)
Theorem bspderiv_reusable (d : Z) (c : Matrix D) (k : RowVector D) :
  wf_matrix c -> 1 <= cols c -> 0 <= d ->
  cols c + d = numel k - 1 ->
  nondecreasing k ->
  exists dc dk,
    bspderiv false 2 d c k = (Some dc, Some dk, []) /\
    wf_matrix dc /\
    cols dc + (d - 1) = numel dk - 1 /\
    nondecreasing dk /\
    forall fuel u p msgs,
      bspeval fuel false (d - 1) dc dk u = Some (p, msgs) -> msgs = [].
Proof.
  intros Hwf Hnc Hd Hcons Hsorted.
  pose proof (bspderiv_dc d c k Hwf Hnc) as Hdc. simpl in Hdc.
  destruct Hdc as [Hwfdc [Hrdc [Hcdc _]]].
  pose proof (bspderiv_knots k ltac:(lia)) as Hdk. simpl in Hdk.
  destruct Hdk as [Hlen Hval].
  eexists. eexists. split; [unfold bspderiv; simpl; reflexivity|].
  split; [exact Hwfdc|].
  assert (Hshape : cols (for_loop 0 (cols c - 2) (bspderiv_col d c k)
                           (mfilled (rows c) (cols c - 1) 0.0%D)) + (d - 1)
                   = numel (for_loop 1 (numel k - 2)
                              (fun i dk => upd dk (i - 1) (elem k i))
                              (filled (numel k - 2) 0.0%D)) - 1)
    by (rewrite Hcdc, Hlen; lia).
  split; [exact Hshape|]. split.
  - intros i Hi Hi'. rewrite Hlen in Hi'. unfold le_d.
    rewrite (Hval i ltac:(lia)), (Hval (i + 1) ltac:(lia)).
    apply Hsorted; lia.
  - intros fuel u p msgs Hrun. unfold bspeval in Hrun. simpl in Hrun.
    rewrite Hshape, Z.eqb_refl in Hrun.
    destruct (for_loop_opt 0 (numel u - 1) _ _) as [[p' N']|];
      [|discriminate].
    injection Hrun as _ Hm. auto.
Qed.

End BspderivMore.

Lemma bspderiv_reusable_witness :
  exists dc dk,
    bspderiv false 2 2 c_test U_test = (Some dc, Some dk, []) /\
    wf_matrix dc /\
    (cols dc + (2 - 1) = numel dk - 1)%Z /\
    nondecreasing dk /\
    forall fuel u p msgs,
      bspeval fuel false (2 - 1) dc dk u = Some (p, msgs) -> msgs = [].
Proof.
  assert (Hwf : wf_matrix c_test)
    by (vm_compute; repeat split; discriminate).
  exact (@bspderiv_reusable float _ 2%Z c_test U_test Hwf
           ltac:(vm_compute; discriminate) ltac:(discriminate) eq_refl
           U_test_nondecreasing).
Defined.

Section BspderivExact.
Local Open Scope Z_scope.

(** X8.  In exact arithmetic the derivative of a constant curve vanishes:
    for consistent data ([columns(c) + d = length(k) - 1], [d >= 0]) whose
    knot differences [k(i+d+1) - k(i+1)] are not zero, when the control
    points of every row are all equal, every control point that [bspderiv]
    returns is 0. *)
Theorem bspderiv_constant (nargout d : Z) (c : Matrix R) (k : RowVector R) :
  wf_matrix c -> 1 <= cols c -> 0 <= d ->
  cols c + d = numel k - 1 ->
  (forall i, 0 <= i <= cols c - 2 -> elem k (i + d + 1) <> elem k (i + 1)) ->
  (forall j i, 0 <= j < rows c -> 0 <= i < cols c ->
               melem c j i = melem c j 0) ->
  exists dc,
    fst (fst (bspderiv false nargout d c k)) = Some dc /\
    rows dc = rows c /\ cols dc = cols c - 1 /\
    forall i j, 0 <= i <= cols c - 2 -> 0 <= j < rows c ->
                melem dc j i = 0%R.
Proof.
  intros Hwf Hnc Hd Hcons Hknots Hconst.
  pose proof (bspderiv_dc d c k Hwf Hnc) as Hdc. simpl in Hdc.
  destruct Hdc as [_ [Hr [Hc Hall]]].
  eexists. split; [unfold bspderiv; simpl; reflexivity|].
  split; [exact Hr|]. split; [exact Hc|].
  intros i j Hi Hj. rewrite (Hall i j Hi Hj).
  rewrite (Hconst j (i + 1) Hj ltac:(lia)), (Hconst j i Hj ltac:(lia)).
  pose proof (Hknots i Hi) as Hne.
  r_ops. field. lra.
Qed.

End BspderivExact.

Lemma bspderiv_constant_witness :
  exists dc,
    fst (fst (bspderiv false 2 2 c_level U_exact)) = Some dc /\
    rows dc = rows c_level /\ cols dc = (cols c_level - 1)%Z /\
    forall i j, (0 <= i <= cols c_level - 2)%Z -> (0 <= j < rows c_level)%Z ->
                melem dc j i = 0%R.
Proof.
  apply (bspderiv_constant 2 2 c_level U_exact).
  - unfold wf_matrix. simpl. repeat split; try lia; reflexivity.
  - simpl. lia.
  - lia.
  - reflexivity.
  - simpl. intros i Hi.
    assert (Hc : (i = 0 \/ i = 1 \/ i = 2)%Z) by lia.
    destruct Hc as [Hc|[Hc|Hc]]; subst i; unfold elem, U_exact; simpl; lra.
  - simpl. intros j i Hj Hi.
    assert (Hj0 : j = 0%Z) by lia. subst j.
    assert (Hc : (i = 0 \/ i = 1 \/ i = 2 \/ i = 3)%Z) by lia.
    destruct Hc as [Hc|[Hc|[Hc|Hc]]]; subst i; reflexivity.
Defined.

(** ** [bspeval], sample by sample *)

(* What a loop that has returned went through *)
Lemma for_loop_opt_run {T : Type} (P : Z -> T -> Prop) (lo hi : Z)
  (body : Z -> T -> option T) (s s' : T) :
  (lo <= hi + 1)%Z ->
  for_loop_opt lo hi body s = Some s' ->
  P lo s ->
  (forall i t t', (lo <= i <= hi)%Z -> P i t -> body i t = Some t' ->
                  P (i + 1)%Z t') ->
  P (hi + 1)%Z s'.
Proof.
  intros Hle Hrun H0 Hstep.
  assert (Hgen : forall n : nat, (lo + Z.of_nat n <= hi + 1)%Z ->
            forall t, for_loop_opt lo (lo + Z.of_nat n - 1) body s = Some t ->
                      P (lo + Z.of_nat n)%Z t).
  { induction n as [|n IH]; intros Hn t Ht.
    - rewrite for_loop_opt_nil in Ht by lia. injection Ht as <-.
      replace (lo + Z.of_nat 0)%Z with lo by lia. exact H0.
    - rewrite for_loop_opt_snoc in Ht by lia.
      replace (lo + Z.of_nat (S n) - 1 - 1)%Z with (lo + Z.of_nat n - 1)%Z
        in Ht by lia.
      destruct (for_loop_opt lo (lo + Z.of_nat n - 1) body s) as [t1|] eqn:E;
        [|discriminate].
      replace (lo + Z.of_nat (S n) - 1)%Z with (lo + Z.of_nat n)%Z in Ht by lia.
      replace (lo + Z.of_nat (S n))%Z with (lo + Z.of_nat n + 1)%Z by lia.
      apply (Hstep _ t1); [lia | apply IH; [lia | reflexivity] | exact Ht]. }
  specialize (Hgen (Z.to_nat (hi + 1 - lo))).
  replace (lo + Z.of_nat (Z.to_nat (hi + 1 - lo)))%Z with (hi + 1)%Z in Hgen by lia.
  replace (hi + 1 - 1)%Z with hi in Hgen by lia.
  apply Hgen; [lia | exact Hrun].
Qed.

Section BspevalMore.
Context {D : Type} `{Scalar D}.
Local Open Scope Z_scope.

(* A call that has returned has searched the span of every sample *)
Lemma bspeval_spans (fuel : nat) (d : Z) (c : Matrix D) (k u : RowVector D)
  (hi : Z) (st st' : Matrix D * RowVector D) :
  -1 <= hi ->
  for_loop_opt 0 hi (bspeval_col fuel d c k u) st = Some st' ->
  forall col, 0 <= col <= hi ->
    exists s, findspan fuel (cols c - 1) d (elem u col) k = Some s.
Proof.
  intros Hhi Hrun.
  pose proof (for_loop_opt_run
    (fun col (_ : Matrix D * RowVector D) =>
       forall col', 0 <= col' < col ->
         exists s, findspan fuel (cols c - 1) d (elem u col') k = Some s)
    0 hi (bspeval_col fuel d c k u) st st' ltac:(lia) Hrun) as Hinv.
  cbv beta in Hinv.
  intros col Hcol. apply Hinv; try lia.
  intros i [p N] t' Hi Hdone Hbody col' Hcol'.
  destruct (Z.eq_dec col' i) as [Heq|Hne].
  - subst col'. unfold bspeval_col in Hbody.
    destruct (findspan fuel (cols c - 1) d (elem u i) k) as [s|];
      [exists s; reflexivity | discriminate].
  - apply Hdone. lia.
Qed.

(* What a call on consistent data has stored when it returns *)
Lemma bspeval_run (fuel : nat) (d : Z) (c : Matrix D) (k u : RowVector D)
  (p : Matrix D) (msgs : list string) :
  wf_matrix c -> 0 <= d -> cols c + d = numel k - 1 ->
  bspeval fuel false d c k u = Some (p, msgs) ->
  msgs = [] /\ wf_matrix p /\ rows p = rows c /\ cols p = numel u /\
  forall col, 0 <= col < numel u ->
    exists s,
      findspan fuel (cols c - 1) d (elem u col) k = Some s /\
      forall row, 0 <= row < rows c ->
        melem p row col = bspeval_value d c k (elem u col) s row.
Proof.
  intros [Hr0 [Hc0 Hlen]] Hd Hcons Hrun.
  assert (Hnu : 0 <= numel u) by (unfold numel; lia).
  unfold bspeval in Hrun. simpl in Hrun. rewrite Hcons, Z.eqb_refl in Hrun.
  destruct (for_loop_opt 0 (numel u - 1) (bspeval_col fuel d c k u) _)
    as [[p' N']|] eqn:Hloop; [|discriminate].
  injection Hrun as Hp Hm. subst p'. split; [auto|].
  pose proof (for_loop_opt_run
    (fun col (st : Matrix D * RowVector D) =>
       wf_matrix (fst st) /\ rows (fst st) = rows c /\
       cols (fst st) = numel u /\ numel (snd st) = d + 1 /\
       forall col', 0 <= col' < col ->
         exists s,
           findspan fuel (cols c - 1) d (elem u col') k = Some s /\
           forall row, 0 <= row < rows c ->
             melem (fst st) row col' = bspeval_value d c k (elem u col') s row)
    0 (numel u - 1) (bspeval_col fuel d c k u) _ _ ltac:(lia) Hloop) as Hinv.
  cbv beta in Hinv.
  replace (numel u - 1 + 1) with (numel u) in Hinv by lia.
  simpl in Hinv.
  destruct Hinv as [Hwf [Hr [Hc [_ Hall]]]].
  - repeat split; try (apply wf_mfilled; assumption).
    + rewrite numel_filled. lia.
    + intros col' Hcol'. lia.
  - intros col [q N] t' Hcol [Hwfq [Hrq [Hcq [HN Hdone]]]] Hbody.
    simpl in *. unfold bspeval_col in Hbody.
    destruct (findspan fuel (cols c - 1) d (elem u col) k) as [s|] eqn:Hs;
      [|discriminate].
    injection Hbody as <-. simpl.
    pose proof (bspeval_rows d c (basisfun s (elem u col) d k N) (s - d) col q
                  Hwfq Hrq ltac:(lia)) as Hrows.
    simpl in Hrows. destruct Hrows as [Hwf' [Hr' [Hc' [Hother Hnew]]]].
    repeat split; try apply Hwf'; try congruence.
    + rewrite numel_basisfun. exact HN.
    + intros col' Hcol'. destruct (Z.eq_dec col' col) as [Heq|Hne].
      * subst col'. exists s. split; [exact Hs|]. intros row Hrow.
        rewrite (Hnew row Hrow). unfold bspeval_value.
        rewrite (basisfun_indep s (elem u col) d k N (filled (d + 1) 0.0%D) Hd HN)
          by (rewrite numel_filled; lia).
        reflexivity.
      * destruct (Hdone col' ltac:(lia)) as [s' [Hs' Hval]].
        exists s'. split; [exact Hs'|]. intros row Hrow.
        rewrite (Hother row col' Hrow Hne). apply Hval. exact Hrow.
  - repeat split; try apply Hwf; assumption.
Qed.

(* One sample *)
Lemma bspeval_single (fuel : nat) (d : Z) (c : Matrix D) (k : RowVector D)
  (x : D) (s : Z) :
  wf_matrix c -> 0 <= d -> cols c + d = numel k - 1 ->
  findspan fuel (cols c - 1) d x k = Some s ->
  exists p1,
    bspeval fuel false d c k [x] = Some (p1, []) /\
    forall row, 0 <= row < rows c ->
      melem p1 row 0 = bspeval_value d c k x s row.
Proof.
  intros Hwf Hd Hcons Hs. pose proof Hwf as [Hr0 [Hc0 Hlen]].
  unfold bspeval. cbn [negb]. rewrite Hcons, Z.eqb_refl.
  change (numel [x]) with 1. replace (1 - 1) with 0 by lia.
  rewrite for_loop_opt_snoc by lia. rewrite for_loop_opt_nil by lia.
  unfold bspeval_col. change (elem [x] 0) with x. rewrite Hs.
  eexists. split; [reflexivity|].
  intros row Hrow.
  pose proof (bspeval_rows d c
                (basisfun s x d k (filled (d + 1) 0.0%D)) (s - d) 0
                (mfilled (rows c) 1 0.0%D)
                ltac:(apply wf_mfilled; lia) eq_refl
                ltac:(simpl; lia)) as Hrows.
  simpl in Hrows. destruct Hrows as [_ [_ [_ [_ Hnew]]]].
  apply Hnew. exact Hrow.
Qed.

(** X9.  [bspeval] treats its samples independently: when a call on
    consistent data returns, each column of the result is what a call with
    that sample alone returns, value for value. *)
Theorem bspeval_pointwise (fuel : nat) (d : Z) (c : Matrix D)
  (k u : RowVector D) (p : Matrix D) (msgs : list string) :
  wf_matrix c -> 0 <= d -> cols c + d = numel k - 1 ->
  bspeval fuel false d c k u = Some (p, msgs) ->
  forall col, 0 <= col < numel u ->
    exists p1,
      bspeval fuel false d c k [elem u col] = Some (p1, []) /\
      forall row, 0 <= row < rows c -> melem p1 row 0 = melem p row col.
Proof.
  intros Hwf Hd Hcons Hrun col Hcol.
  destruct (bspeval_run fuel d c k u p msgs Hwf Hd Hcons Hrun)
    as [_ [_ [_ [_ Hall]]]].
  destruct (Hall col Hcol) as [s [Hs Hval]].
  destruct (bspeval_single fuel d c k (elem u col) s Hwf Hd Hcons Hs)
    as [p1 [Hrun1 Hval1]].
  exists p1. split; [exact Hrun1|].
  intros row Hrow. rewrite (Hval1 row Hrow), (Hval row Hrow). reflexivity.
Qed.

Context {HO : OrderLaws D}.

(** X10.  One sample beyond the upper end of the domain hangs the whole
    call: for consistent data with non-decreasing knots and
    [0 <= d < columns(c)], if some [u(col) >= k(nc)] differs from [k(nc)],
    [bspeval] has not returned after any number of loop tests, whatever the
    other samples are. *)
Theorem bspeval_above_domain (d : Z) (c : Matrix D) (k u : RowVector D)
  (col : Z) :
  0 <= d <= cols c - 1 -> cols c + d = numel k - 1 ->
  nondecreasing k ->
  0 <= col < numel u ->
  le_d (elem k (cols c)) (elem u col) ->
  (elem u col ==? elem k (cols c))%D = false ->
  forall fuel, bspeval fuel false d c k u = None.
Proof.
  intros Hd Hcons Hsorted Hcol Hge Hne fuel.
  destruct (bspeval fuel false d c k u) as [[p msgs]|] eqn:Hrun;
    [exfalso|reflexivity].
  unfold bspeval in Hrun. simpl in Hrun. rewrite Hcons, Z.eqb_refl in Hrun.
  destruct (for_loop_opt 0 (numel u - 1) (bspeval_col fuel d c k u) _)
    as [st'|] eqn:Hloop; [|discriminate].
  destruct (bspeval_spans fuel d c k u (numel u - 1) _ st' ltac:(lia) Hloop
              col ltac:(lia)) as [s Hs].
  unfold findspan in Hs.
  replace (cols c - 1 + 1) with (cols c) in Hs by lia.
  rewrite Hne in Hs.
  rewrite (findspan_loop_above (cols c - 1)) in Hs; try discriminate;
    try assumption; try lia.
  replace (cols c - 1 + 1) with (cols c) by lia. exact Hge.
Qed.

End BspevalMore.

Lemma bspeval_pointwise_witness :
  exists p,
    bspeval 10 false 2 c_test U_test u_test = Some (p, []) /\
    forall col, (0 <= col < numel u_test)%Z ->
      exists p1,
        bspeval 10 false 2 c_test U_test [elem u_test col] = Some (p1, []) /\
        forall row, (0 <= row < rows c_test)%Z ->
                    melem p1 row 0 = melem p row col.
Proof.
  assert (Hwf : wf_matrix c_test)
    by (vm_compute; repeat split; discriminate).
  eexists. split; [vm_compute; reflexivity|].
  exact (@bspeval_pointwise float _ 10%nat 2%Z c_test U_test u_test _ []
           Hwf ltac:(discriminate) eq_refl eq_refl).
Defined.

Lemma bspeval_above_domain_witness :
  bspeval 1000 false 2 c_test U_test [0.5; 2; 0.25]%float = None.
Proof.
  exact (@bspeval_above_domain float _ _ 2%Z c_test U_test
           [0.5; 2; 0.25]%float 1%Z
           ltac:(vm_compute; split; discriminate) eq_refl
           U_test_nondecreasing ltac:(vm_compute; split; [discriminate|reflexivity])
           eq_refl eq_refl 1000%nat).
Defined.

(** ** The callers of [findspan] and [basisfun] *)

Section Callers.
Context {D : Type} `{Scalar D} {HO : OrderLaws D}.
Local Open Scope Z_scope.

(* In the domain every search returns, and so does the call *)
Lemma bspeval_total (fuel : nat) (d : Z) (c : Matrix D) (k u : RowVector D) :
  0 <= cols c -> 0 <= d -> cols c + d = numel k - 1 ->
  nondecreasing k ->
  (forall col, 0 <= col < numel u ->
     le_d (elem k d) (elem u col) /\ le_d (elem u col) (elem k (cols c))) ->
  (Z.to_nat (cols c - d) <= fuel)%nat ->
  exists p, bspeval fuel false d c k u = Some (p, []).
Proof.
  intros Hc0 Hd Hcons Hsorted Hdom Hfuel.
  assert (Hnu : 0 <= numel u) by (unfold numel; lia).
  destruct (for_loop_opt_inv
    (fun (_ : Z) (_ : Matrix D * RowVector D) => True)
    0 (numel u - 1) (bspeval_col fuel d c k u)
    (mfilled (rows c) (numel u) 0.0%D, filled (d + 1) 0.0%D) ltac:(lia) I)
    as [[p N] [Hrun _]].
  - intros col [p N] Hcol _.
    destruct (Hdom col ltac:(lia)) as [Hlo Hhi].
    destruct (findspan_in_domain fuel (cols c - 1) d (elem u col) k Hsorted
                ltac:(lia) ltac:(lia) Hlo
                ltac:(replace (cols c - 1 + 1) with (cols c) by lia; exact Hhi)
                ltac:(lia))
      as [s Hs].
    unfold bspeval_col. rewrite Hs. eexists. split; [reflexivity|exact I].
  - exists p. unfold bspeval. simpl. rewrite Hcons, Z.eqb_refl, Hrun.
    reflexivity.
Qed.

(** X11.  The entry point [findspan] returns one span per sample: for a
    non-decreasing [U] and samples with [U(p) <= u(ii) <= U(n+1)] the call
    returns an array of the length of [u] whose cell [ii] is the span
    [sp] of [u(ii)] as a double, with [U(sp) <= u(ii) < U(sp+1)], or
    [sp = n] when [u(ii) = U(n+1)]. *)
Theorem findspan_oct_spans (fuel : nat) (n p : Z) (u U : RowVector D) :
  nondecreasing U ->
  0 <= p < numel U -> 0 <= n + 1 < numel U ->
  (forall ii, 0 <= ii < numel u ->
     le_d (elem U p) (elem u ii) /\ le_d (elem u ii) (elem U (n + 1))) ->
  (Z.to_nat (n + 1 - p) <= fuel)%nat ->
  exists s,
    findspan_oct fuel false n p u U = Some (Some s) /\
    numel s = numel u /\
    forall ii, 0 <= ii < numel u ->
      exists sp,
        findspan fuel n p (elem u ii) U = Some sp /\
        elem s ii = of_int sp /\
        ((elem u ii ==? elem U (n + 1))%D = true /\ sp = n \/
         p <= sp <= n /\ le_d (elem U sp) (elem u ii) /\
         lt_d (elem u ii) (elem U (sp + 1))).
Proof.
  intros Hsorted Hp Hn Hdom Hfuel.
  assert (Hnu : 0 <= numel u) by (unfold numel; lia).
  destruct (for_loop_opt_inv
    (fun ii (s : RowVector D) =>
       numel s = numel u /\
       forall j, 0 <= j < ii ->
         exists sp,
           findspan fuel n p (elem u j) U = Some sp /\
           elem s j = of_int sp /\
           ((elem u j ==? elem U (n + 1))%D = true /\ sp = n \/
            p <= sp <= n /\ le_d (elem U sp) (elem u j) /\
            lt_d (elem u j) (elem U (sp + 1))))
    0 (numel u - 1)
    (fun ii s =>
       match findspan fuel n p (elem u ii) U with
       | Some sp => Some (upd s ii (of_int sp))
       | None => None
       end)
    u ltac:(lia)) as [s [Hrun [Hlen Hall]]].
  - split; [reflexivity|]. intros j Hj. lia.
  - intros ii s Hii [Hlen Hdone].
    destruct (Hdom ii ltac:(lia)) as [Hlo Hhi].
    assert (Hsp : exists sp,
              findspan fuel n p (elem u ii) U = Some sp /\
              ((elem u ii ==? elem U (n + 1))%D = true /\ sp = n \/
               p <= sp <= n /\ le_d (elem U sp) (elem u ii) /\
               lt_d (elem u ii) (elem U (sp + 1)))).
    { destruct (elem u ii ==? elem U (n + 1))%D eqn:E.
      - exists n. split; [apply findspan_special; exact E|]. left. auto.
      - destruct (findspan_search n p (elem u ii) U Hsorted Hp Hn Hlo
                    (le_neq_lt _ _ Hhi E) E) as [sp [Hrun [Hrange Hbr]]].
        exists sp. split; [apply Hrun; exact Hfuel|]. right. auto. }
    destruct Hsp as [sp [Hsp Hprop]]. rewrite Hsp.
    eexists. split; [reflexivity|]. split; [rewrite numel_upd; exact Hlen|].
    intros j Hj. destruct (Z.eq_dec j ii) as [Heq|Hne].
    + subst j. exists sp. rewrite elem_upd_same by lia. auto.
    + destruct (Hdone j ltac:(lia)) as [sp' Hsp'].
      exists sp'. rewrite elem_upd_other by lia. exact Hsp'.
  - exists s. unfold findspan_oct. cbn [negb]. rewrite Hrun.
    split; [reflexivity|]. split; [exact Hlen|].
    intros ii Hii. apply Hall. lia.
Qed.

(* [insert] in range: the cells of one row receive the vector, every other
   cell keeps its value *)
Lemma minsert_spec (B : Matrix D) (a' : RowVector D) (r c : Z) :
  wf_matrix B -> 0 <= r < rows B -> 0 <= c -> c + numel a' <= cols B ->
  let B' := minsert B a' r c in
  wf_matrix B' /\ rows B' = rows B /\ cols B' = cols B /\
  (forall j, 0 <= j < numel a' -> melem B' r (c + j) = elem a' j) /\
  (forall r' c', 0 <= r' < rows B -> r' <> r -> melem B' r' c' = melem B r' c').
Proof.
  intros Hwf Hr Hc Hfit. simpl. unfold minsert.
  assert (Hna : 0 <= numel a') by (unfold numel; lia).
  replace ((r <? 0) || (rows B <=? r) || (c <? 0) || (cols B <? c + numel a'))
    with false
    by (symmetry; rewrite !orb_false_iff; repeat split;
        try apply Z.ltb_ge; try apply Z.leb_gt; lia).
  pose proof (for_loop_inv
    (fun i (q : Matrix D) =>
       wf_matrix q /\ rows q = rows B /\ cols q = cols B /\
       (forall j, 0 <= j < i -> melem q r (c + j) = elem a' j) /\
       (forall r' c', 0 <= r' < rows B -> r' <> r ->
                      melem q r' c' = melem B r' c'))
    0 (numel a' - 1) (fun i B => mupd B r (c + i) (elem a' i)) B
    ltac:(lia)) as Hloop.
  cbv beta in Hloop.
  replace (numel a' - 1 + 1) with (numel a') in Hloop by lia.
  apply Hloop; clear Hloop.
  - repeat split; try apply Hwf; auto. intros j Hj. lia.
  - intros i q Hi [Hwfq [Hrq [Hcq [Hdone Hother]]]].
    repeat split; try apply wf_mupd; try assumption.
    + intros j Hj. destruct (Z.eq_dec j i) as [Heq|Hne].
      * subst j. apply melem_mupd_same; try assumption; lia.
      * rewrite melem_mupd_other; try lia.
        -- apply Hdone. lia.
        -- intros Heq. injection Heq as Heq. lia.
    + intros r' c' Hr' Hne. rewrite melem_mupd_other; try lia.
      * apply Hother; assumption.
      * intros Heq. injection Heq as Heq _. lia.
Qed.

End Callers.

Lemma findspan_oct_spans_witness :
  exists s,
    findspan_oct 10 false 3 2 u_test U_test = Some (Some s) /\
    numel s = numel u_test /\
    forall ii, (0 <= ii < numel u_test)%Z ->
      exists sp,
        findspan 10 3 2 (elem u_test ii) U_test = Some sp /\
        elem s ii = of_int sp /\
        ((elem u_test ii ==? elem U_test (3 + 1))%D = true /\ sp = 3%Z \/
         (2 <= sp <= 3)%Z /\ le_d (elem U_test sp) (elem u_test ii) /\
         lt_d (elem u_test ii) (elem U_test (sp + 1))).
Proof.
  apply (@findspan_oct_spans float _ _ 10%nat 3%Z 2%Z u_test U_test
           U_test_nondecreasing).
  - vm_compute. split; [discriminate|reflexivity].
  - vm_compute. split; [discriminate|reflexivity].
  - intros ii Hii.
    assert (Hc : (ii = 0 \/ ii = 1 \/ ii = 2)%Z)
      by (change (numel u_test) with 3%Z in Hii; lia).
    destruct Hc as [Hc|[Hc|Hc]]; subst ii; split; vm_compute; reflexivity.
  - vm_compute. lia.
Defined.

(** ** Partition of unity, through the callers *)

Section ExactCallers.
Local Open Scope Z_scope.

Lemma dsum_scale (lo hi : Z) (f : Z -> R) (x : R) :
  dsum lo hi (fun i => (f i * x)%R) = (dsum lo hi f * x)%R.
Proof.
  assert (Hgen : forall (n : nat) hi', hi' = lo + Z.of_nat n - 1 ->
            dsum lo hi' (fun i => (f i * x)%R) = (dsum lo hi' f * x)%R).
  { induction n as [|n IH]; intros hi' ->.
    - rewrite !dsum_nil by lia. r_ops. lra.
    - rewrite (dsum_snoc lo _ (fun i => (f i * x)%R)) by lia.
      rewrite (dsum_snoc lo _ f) by lia.
      rewrite (IH (lo + Z.of_nat (S n) - 1 - 1)) by lia.
      r_ops. ring. }
  destruct (Z_lt_le_dec hi lo) as [Hlt|Hle].
  - rewrite !dsum_nil by lia. r_ops. lra.
  - apply (Hgen (Z.to_nat (hi + 1 - lo))). lia.
Qed.

(* The values that [basisfun] leaves for a sample of a non-empty span *)
Lemma basisfun_exact (i p : Z) (u : R) (U N : RowVector R) :
  0 <= p -> 0 <= i + 1 - p -> i + p < numel U -> numel N = p + 1 ->
  nondecreasing U ->
  (elem U i <= u <= elem U (i + 1))%R -> (elem U i < elem U (i + 1))%R ->
  numel (basisfun i u p U N) = p + 1 /\
  (forall r, 0 <= r <= p -> (0 <= elem (basisfun i u p U N) r)%R) /\
  dsum 0 p (elem (basisfun i u p U N)) = 1%R.
Proof.
  intros Hp Hi0 Hi1 HN Hs Hu Hspan.
  assert (Hlow : forall t, 1 <= t <= p -> (elem U (i + 1 - t) <= elem U i)%R)
    by (intros t Ht; apply nondecreasing_Rle; try assumption; lia).
  assert (Hhigh : forall t, 1 <= t <= p -> (elem U (i + 1) <= elem U (i + t))%R)
    by (intros t Ht; apply nondecreasing_Rle; try assumption; lia).
  split; [rewrite numel_basisfun; exact HN|].
  unfold basisfun.
  pose proof (for_loop_inv
    (fun j (st : RowVector R * RowVector R * RowVector R) =>
       let '(N1, l1, r1) := st in
       numel N1 = p + 1 /\ numel l1 = p + 1 /\ numel r1 = p + 1 /\
       (forall t, 1 <= t < j ->
          elem l1 t = (u - elem U (i + 1 - t))%R /\
          elem r1 t = (elem U (i + t) - u)%R) /\
       (forall t, 0 <= t < j -> (0 <= elem N1 t)%R) /\
       dsum 0 (j - 1) (elem N1) = 1%R)
    1 p (basisfun_outer i u U)
    (upd N 0 1.0%D, filled (p + 1) 0.0%D, filled (p + 1) 0.0%D)
    ltac:(lia)) as Hloop.
  cbv beta in Hloop.
  destruct (for_loop 1 p (basisfun_outer i u U) _) as [[N1 l1] r1].
  destruct Hloop as [_ [_ [_ [_ [Hpos Hsum]]]]].
  - r_ops. rewrite numel_upd, !numel_filled.
    repeat split; try lia.
    + intros t Ht. assert (t = 0) by lia. subst t.
      rewrite elem_upd_same by lia. lra.
    + replace (1 - 1) with 0 by lia. rewrite (dsum_snoc 0 0) by lia.
      rewrite dsum_nil by lia. rewrite elem_upd_same by lia. r_ops. lra.
  - intros j [[N2 l2] r2] Hj [HN2 [Hl2 [Hr2 [Hbuf [Hpos2 Hsum2]]]]].
    unfold basisfun_outer. r_ops.
    set (l3 := upd l2 j (u - elem U (i + 1 - j))%R).
    set (r3 := upd r2 j (elem U (i + j) - u)%R).
    assert (Hbuf3 : forall t, 1 <= t < j + 1 ->
              elem l3 t = (u - elem U (i + 1 - t))%R /\
              elem r3 t = (elem U (i + t) - u)%R).
    { intros t Ht. unfold l3, r3. destruct (Z.eq_dec t j) as [Heq|Hne].
      - subst t. rewrite !elem_upd_same by lia. auto.
      - rewrite !elem_upd_other by lia. apply Hbuf. lia. }
    pose proof (basisfun_inner_exact j l3 r3 N2 ltac:(lia) Hpos2) as Hin.
    simpl in Hin.
    destruct (for_loop 0 (j - 1) (basisfun_inner j l3 r3) (N2, 0%R))
      as [N4 s4] eqn:E.
    destruct Hin as [HN4 [Hrest [Hpos4 [Hs4 Hsum4]]]].
    { intros t Ht.
      destruct (Hbuf3 (t + 1) ltac:(lia)) as [_ Hr].
      destruct (Hbuf3 (j - t) ltac:(lia)) as [Hl _].
      rewrite Hr, Hl.
      pose proof (Hhigh (t + 1) ltac:(lia)) as Hh.
      pose proof (Hlow (j - t) ltac:(lia)) as Hlo.
      repeat split; lra. }
    simpl in *. r_ops.
    unfold l3, r3. rewrite !numel_upd.
    repeat split; try lia; try apply Hbuf3; try assumption.
    + intros t Ht. destruct (Z.eq_dec t j) as [Heq|Hne].
      * subst t. rewrite elem_upd_same by lia. exact Hs4.
      * rewrite elem_upd_other by lia. apply Hpos4. lia.
    + replace (j + 1 - 1) with j by lia.
      rewrite (dsum_snoc 0 j) by lia.
      rewrite (dsum_ext 0 (j - 1) (elem (upd N4 j s4)) (elem N4))
        by (intros t Ht; apply elem_upd_other; lia).
      rewrite elem_upd_same by lia. r_ops. lra.
  - split.
    + intros r Hr. apply Hpos. lia.
    + replace (p + 1 - 1) with p in Hsum by lia. exact Hsum.
Qed.

(* The span that the search returns for a sample of the domain *)
Lemma findspan_span_exact (fuel : nat) (n p : Z) (u : R) (U : RowVector R)
  (s : Z) :
  nondecreasing U -> 0 <= p <= n -> n + 1 < numel U ->
  (elem U p <= u <= elem U (n + 1))%R ->
  (elem U n < elem U (n + 1))%R ->
  (Z.to_nat (n + 1 - p) <= fuel)%nat ->
  findspan fuel n p u U = Some s ->
  p <= s <= n /\ (elem U s <= u <= elem U (s + 1))%R /\
  (elem U s < elem U (s + 1))%R.
Proof.
  intros Hsorted Hp Hn [Hlo Hhi] Hlast Hfuel Hs.
  destruct (Req_dec u (elem U (n + 1))) as [Heq|Hne].
  - rewrite (findspan_special fuel n p u U) in Hs
      by (apply R_eqb_true; exact Heq).
    injection Hs as <-. split; [lia|]. lra.
  - assert (Hlt : (u < elem U (n + 1))%R)
      by (destruct Hhi as [Hlt|Heq]; [exact Hlt | contradiction]).
    destruct (findspan_search n p u U Hsorted ltac:(lia) ltac:(lia)
                (proj2 (R_leb_true _ _) Hlo)
                (proj2 (R_ltb_true _ _) Hlt)
                (proj2 (R_eqb_false _ _) Hne))
      as [s' [Hrun [Hrange [Hl Hr]]]].
    rewrite (Hrun fuel Hfuel) in Hs. injection Hs as <-.
    apply R_leb_true in Hl. apply R_ltb_true in Hr.
    split; [exact Hrange|]. lra.
Qed.

(** X12.  In exact arithmetic [bspeval] reproduces constants: for
    consistent data with non-decreasing knots, a last span that is not
    empty and samples in the domain, if all control points of a row have
    the value [P row], every value of that row of the result is [P row]. *)
Theorem bspeval_constant (fuel : nat) (d : Z) (c : Matrix R)
  (k u : RowVector R) (P : Z -> R) :
  wf_matrix c -> 0 <= d <= cols c - 1 ->
  cols c + d = numel k - 1 ->
  nondecreasing k ->
  (elem k (cols c - 1) < elem k (cols c))%R ->
  (forall col, 0 <= col < numel u ->
     (elem k d <= elem u col <= elem k (cols c))%R) ->
  (Z.to_nat (cols c - d) <= fuel)%nat ->
  (forall row i, 0 <= row < rows c -> 0 <= i < cols c ->
                 melem c row i = P row) ->
  exists p,
    bspeval fuel false d c k u = Some (p, []) /\
    forall row col, 0 <= row < rows c -> 0 <= col < numel u ->
                    melem p row col = P row.
Proof.
  intros Hwf Hd Hcons Hsorted Hlast Hdom Hfuel Hconst.
  destruct (bspeval_total fuel d c k u ltac:(lia) ltac:(lia) Hcons Hsorted)
    as [p Hp]; [|exact Hfuel|].
  { intros col Hcol. destruct (Hdom col Hcol) as [Hlo Hhi].
    split; apply R_leb_true; assumption. }
  exists p. split; [exact Hp|]. intros row col Hrow Hcol.
  destruct (bspeval_run fuel d c k u p [] Hwf ltac:(lia) Hcons Hp)
    as [_ [_ [_ [_ Hall]]]].
  destruct (Hall col Hcol) as [s [Hs Hval]].
  rewrite (Hval row Hrow). unfold bspeval_value.
  destruct (findspan_span_exact fuel (cols c - 1) d (elem u col) k s Hsorted
              ltac:(lia) ltac:(lia)
              ltac:(replace (cols c - 1 + 1) with (cols c) by lia;
                    apply Hdom; exact Hcol)
              ltac:(replace (cols c - 1 + 1) with (cols c) by lia; exact Hlast)
              ltac:(replace (cols c - 1 + 1 - d) with (cols c - d) by lia;
                    exact Hfuel)
              Hs) as [Hrange [Hu Hspan]].
  destruct (basisfun_exact s d (elem u col) k (filled (d + 1) 0.0%D)
              ltac:(lia) ltac:(lia) ltac:(lia)
              ltac:(rewrite numel_filled; lia) Hsorted Hu Hspan)
    as [_ [_ Hsum]].
  rewrite (dsum_ext 0 d _
             (fun i => (elem (basisfun s (elem u col) d k
                                (filled (d + 1) 0.0%D)) i * P row)%R)).
  - rewrite dsum_scale.
    change (fun i : Z => elem (basisfun s (elem u col) d k
                                 (filled (d + 1) 0.0%D)) i)
      with (elem (basisfun s (elem u col) d k (filled (d + 1) 0.0%D))).
    rewrite Hsum. lra.
  - intros i Hi. rewrite (Hconst row (s - d + i) Hrow ltac:(lia)).
    reflexivity.
Qed.

Lemma R_to_int_IZR (z : Z) : to_int (IZR z) = z.
Proof.
  cbn [to_int R_ToInt]. unfold R_to_int.
  destruct (Rlt_dec (IZR z) 0) as [Hneg|Hpos].
  - unfold Zceil. rewrite <- opp_IZR, ZfloorZ. lia.
  - apply ZfloorZ.
Qed.

(** X13.  The entry points compose: in exact arithmetic, for non-decreasing
    knots whose last span is not empty and samples in the domain
    [U(p) <= u(ii) <= U(n+1)], [basisfun] applied to the array that
    [findspan] returns gives a matrix with one row per sample and [p + 1]
    columns; the values of every row are >= 0 and sum to 1. *)
Theorem basisfun_of_findspan (fuel : nat) (n p : Z) (u U : RowVector R) :
  nondecreasing U -> 0 <= p <= n -> n + p + 1 < numel U ->
  (elem U n < elem U (n + 1))%R ->
  (forall ii, 0 <= ii < numel u ->
     (elem U p <= elem u ii <= elem U (n + 1))%R) ->
  (Z.to_nat (n + 1 - p) <= fuel)%nat ->
  exists s B,
    findspan_oct fuel false n p u U = Some (Some s) /\
    basisfun_oct false s u p U = Some B /\
    rows B = numel u /\ cols B = p + 1 /\
    forall ii, 0 <= ii < numel u ->
      (forall j, 0 <= j <= p -> (0 <= melem B ii j)%R) /\
      dsum 0 p (fun j => melem B ii j) = 1%R.
Proof.
  intros Hsorted Hp Hn Hlast Hdom Hfuel.
  assert (Hnu : 0 <= numel u) by (unfold numel; lia).
  (* the spans *)
  destruct (for_loop_opt_inv
    (fun ii (s : RowVector R) =>
       numel s = numel u /\
       forall j, 0 <= j < ii ->
         exists sp, findspan fuel n p (elem u j) U = Some sp /\
                    elem s j = IZR sp)
    0 (numel u - 1)
    (fun ii s =>
       match findspan fuel n p (elem u ii) U with
       | Some sp => Some (upd s ii (of_int sp))
       | None => None
       end)
    u ltac:(lia)) as [s [Hrun [Hlen Hspans]]].
  { split; [reflexivity|]. intros j Hj. lia. }
  { intros ii s Hii [Hlen Hdone].
    destruct (Hdom ii ltac:(lia)) as [Hlo Hhi].
    destruct (findspan_in_domain fuel n p (elem u ii) U Hsorted
                ltac:(lia) ltac:(lia)
                (proj2 (R_leb_true _ _) Hlo) (proj2 (R_leb_true _ _) Hhi)
                Hfuel) as [sp Hsp].
    rewrite Hsp. eexists. split; [reflexivity|].
    split; [rewrite numel_upd; exact Hlen|].
    intros j Hj. destruct (Z.eq_dec j ii) as [Heq|Hne].
    - subst j. exists sp. rewrite elem_upd_same by lia. auto.
    - destruct (Hdone j ltac:(lia)) as [sp' Hsp'].
      exists sp'. rewrite elem_upd_other by lia. exact Hsp'. }
  replace (numel u - 1 + 1) with (numel u) in Hspans by lia.
  exists s. eexists. split; [unfold findspan_oct; cbn [negb]; rewrite Hrun;
                             reflexivity|].
  split; [unfold basisfun_oct; cbn [negb]; reflexivity|].
  (* the rows *)
  pose proof (for_loop_inv
    (fun ii (st : Matrix R * RowVector R) =>
       wf_matrix (fst st) /\ rows (fst st) = numel u /\
       cols (fst st) = p + 1 /\ numel (snd st) = p + 1 /\
       forall r, 0 <= r < ii ->
         (forall j, 0 <= j <= p -> (0 <= melem (fst st) r j)%R) /\
         dsum 0 p (fun j => melem (fst st) r j) = 1%R)
    0 (numel u - 1) (basisfun_oct_row s u p U)
    (mfilled (numel u) (p + 1) 0.0%D, filled (p + 1) 0.0%D) ltac:(lia))
    as Hloop.
  cbv beta in Hloop.
  replace (numel u - 1 + 1) with (numel u) in Hloop by lia.
  destruct Hloop as [_ [Hr [Hc [_ Hall]]]].
  - simpl. repeat split; try (apply wf_mfilled; lia).
    + rewrite numel_filled. lia.
    + lia.
    + lia.
  - intros ii [B N] Hii [HwfB [HrB [HcB [HN Hdone]]]]. simpl in *.
    destruct (Hspans ii ltac:(lia)) as [sp [Hsp Hcell]].
    rewrite Hcell, R_to_int_IZR.
    destruct (findspan_span_exact fuel n p (elem u ii) U sp Hsorted Hp
                ltac:(lia) (Hdom ii ltac:(lia)) Hlast Hfuel Hsp)
      as [Hrange [Hu Hspan]].
    destruct (basisfun_exact sp p (elem u ii) U N
                ltac:(lia) ltac:(lia) ltac:(lia) HN Hsorted Hu Hspan)
      as [HN' [Hpos Hsum]].
    assert (Hfit : 0 + numel (basisfun sp (elem u ii) p U N) <= cols B)
      by lia.
    pose proof (minsert_spec B (basisfun sp (elem u ii) p U N) ii 0 HwfB
                  ltac:(lia) ltac:(lia) Hfit) as Hins.
    simpl in Hins. destruct Hins as [Hwf' [Hr' [Hc' [Hrow Hother]]]].
    split; [exact Hwf'|]. split; [congruence|]. split; [congruence|].
    split; [exact HN'|]. intros r Hr. split.
    + intros j Hj. destruct (Z.eq_dec r ii) as [Heq|Hne].
      * subst r. replace j with (0 + j) by lia.
        rewrite Hrow by lia. apply Hpos. lia.
      * rewrite Hother by lia. apply (Hdone r ltac:(lia)). assumption.
    + destruct (Z.eq_dec r ii) as [Heq|Hne].
      * subst r.
        rewrite (dsum_ext 0 p _ (elem (basisfun sp (elem u ii) p U N))).
        -- exact Hsum.
        -- intros j Hj. replace j with (0 + j) at 1 by lia.
           apply Hrow. lia.
      * rewrite (dsum_ext 0 p _ (fun j => melem B r j)).
        -- apply (Hdone r ltac:(lia)).
        -- intros j Hj. apply Hother; lia.
  - split; [exact Hr|]. split; [exact Hc|]. exact Hall.
Qed.

End ExactCallers.

Lemma u_exact_domain (ii : Z) :
  (0 <= ii < numel u_exact)%Z ->
  (elem U_exact 2 <= elem u_exact ii <= elem U_exact 4)%R.
Proof.
  intros Hii. change (numel u_exact) with 3%Z in Hii.
  assert (Hc : (ii = 0 \/ ii = 1 \/ ii = 2)%Z) by lia.
  destruct Hc as [Hc|[Hc|Hc]]; subst ii; unfold elem, U_exact, u_exact;
    simpl; lra.
Defined.

Lemma bspeval_constant_witness :
  exists p,
    bspeval 10 false 2 c_level U_exact u_exact = Some (p, []) /\
    forall row col, (0 <= row < rows c_level)%Z ->
                    (0 <= col < numel u_exact)%Z ->
                    melem p row col = 7%R.
Proof.
  apply (bspeval_constant 10 2 c_level U_exact u_exact (fun _ => 7%R)).
  - unfold wf_matrix. simpl. repeat split; try lia; reflexivity.
  - simpl. lia.
  - reflexivity.
  - exact U_exact_nondecreasing.
  - unfold elem, U_exact. simpl. lra.
  - exact u_exact_domain.
  - simpl. lia.
  - simpl. intros row i Hrow Hi.
    assert (Hr : row = 0%Z) by lia. subst row.
    assert (Hc : (i = 0 \/ i = 1 \/ i = 2 \/ i = 3)%Z) by lia.
    destruct Hc as [Hc|[Hc|[Hc|Hc]]]; subst i; reflexivity.
Defined.

Lemma basisfun_of_findspan_witness :
  exists s B,
    findspan_oct 10 false 3 2 u_exact U_exact = Some (Some s) /\
    basisfun_oct false s u_exact 2 U_exact = Some B /\
    rows B = numel u_exact /\ cols B = (2 + 1)%Z /\
    forall ii, (0 <= ii < numel u_exact)%Z ->
      (forall j, (0 <= j <= 2)%Z -> (0 <= melem B ii j)%R) /\
      dsum 0 2 (fun j => melem B ii j) = 1%R.
Proof.
  apply (basisfun_of_findspan 10 3 2 u_exact U_exact).
  - exact U_exact_nondecreasing.
  - lia.
  - change (numel U_exact) with 7%Z. lia.
  - unfold elem, U_exact. simpl. lra.
  - exact u_exact_domain.
  - simpl. lia.
Defined.

(** ** [nrbsurfderiveval]: shape of the result, and the bound on [d] *)

Section SurfaceShape.
Context {D : Type} `{Scalar D} `{MathLib D}.
Local Open Scope Z_scope.

Variable surfderiveval :
  Z -> Z -> RowVector D -> Z -> Z -> RowVector D -> Matrix D -> D -> D -> Z ->
  Matrix D.

Lemma ndelem_ndfilled (ds idx : list Z) :
  ndelem (ndfilled ds 0.0%D) idx = 0.0%D.
Proof. unfold ndelem, ndfilled. simpl. apply elem_filled. Qed.

(* Whatever the data and the arithmetic, the body of the loop on [l] stores
   into its own cell of [skl] and nowhere else *)
Lemma unweight_writes (wders Aders : Matrix D) (idim iu k l : Z)
  (skl : NDArray D) :
  k <= 100 -> l <= 100 ->
  safe (unweight wders Aders idim iu k l skl)
       (fun skl' => exists x, skl' = ndupd skl [idim; k; l; iu] x).
Proof.
  intros Hk Hl. unfold unweight.
  apply (safe_bind _ _ (fun _ => True)).
  { destruct (Z_lt_le_dec l 1) as [Hl0|Hl1].
    - rewrite for_loop_c_nil by lia. apply safe_ret. exact I.
    - apply (for_loop_c_inv (fun _ (_ : D) => True)); [lia | exact I |].
      intros j v Hj _.
      apply (safe_bind _ _ (fun _ => True)); [apply safe_bincoeff; lia|].
      intros b _. apply safe_ret. exact I. }
  intros v _.
  apply (safe_bind _ _ (fun _ => True)).
  { destruct (Z_lt_le_dec k 1) as [Hk0|Hk1].
    - rewrite for_loop_c_nil by lia. apply safe_ret. exact I.
    - apply (for_loop_c_inv (fun _ (_ : D) => True)); [lia | exact I |].
      intros i v' Hi _.
      apply (safe_bind _ _ (fun _ => True)); [apply safe_bincoeff; lia|].
      intros b _.
      apply (safe_bind _ _ (fun _ => True)).
      { unfold v2_loop. destruct (Z_lt_le_dec l 1) as [Hl0|Hl1].
        - rewrite for_loop_c_nil by lia. apply safe_ret. exact I.
        - apply (for_loop_c_inv (fun _ (_ : D) => True)); [lia | exact I |].
          intros j v2 Hj _.
          apply (safe_bind _ _ (fun _ => True)); [apply safe_bincoeff; lia|].
          intros b2 _. apply safe_ret. exact I. }
      intros v2 _.
      apply (safe_bind _ _ (fun _ => True)); [apply safe_bincoeff; lia|].
      intros b' _. apply safe_ret. exact I. }
  intros v' _. apply safe_ret. eexists. reflexivity.
Qed.

(** X14.  For an order [0 <= d <= 100], whatever [surfderiveval] returns
    and whatever the arithmetic, [nrbsurfderiveval] stays inside the cache
    of [factln] and returns an array of dimensions
    [3 x (d+1) x (d+1) x columns(uv)]; its cells with [k + l > d] are never
    assigned and hold 0.0. *)
Theorem nrbsurfderiveval_shape (srf : nurbs D) (uv : Matrix D) (d : Z)
  (st : factln_static D) :
  0 <= d <= 100 -> 0 <= cols uv -> wf_cache st ->
  exists skl st',
    nrbsurfderiveval surfderiveval false srf uv d st = Done (Some skl, st') /\
    wf_cache st' /\
    dims skl = [3; d + 1; d + 1; cols uv] /\
    numel (nddata skl) = 3 * ((d + 1) * ((d + 1) * cols uv)) /\
    forall i k l iu,
      0 <= i <= 2 -> 0 <= k <= d -> 0 <= l <= d -> d < k + l ->
      ndelem skl [i; k; l; iu] = 0.0%D.
Proof.
  intros Hd Hn Hwf.
  set (Q := fun skl : NDArray D =>
              wf_skl d (cols uv) skl /\
              forall i k l iu,
                0 <= i <= 2 -> 0 <= k <= d -> 0 <= l <= d -> d < k + l ->
                ndelem skl [i; k; l; iu] = 0.0%D).
  assert (Hloop :
    safe (for_loop_c 0 (cols uv - 1)
            (nrbsurfderiveval_point surfderiveval srf uv d)
            (ndfilled [3; d + 1; d + 1; cols uv] 0.0%D)) Q).
  { apply (for_loop_c_inv (fun _ => Q)); try lia.
    - split; [apply wf_skl_filled; lia|].
      intros i k l iu _ _ _ _. apply ndelem_ndfilled.
    - intros iu s Hiu Hs. unfold nrbsurfderiveval_point.
      apply (for_loop_c_inv (fun _ => Q)); try lia; [exact Hs|].
      intros idim s1 Hidim Hs1. unfold unweight_all.
      apply (for_loop_c_inv (fun _ => Q)); try lia; [exact Hs1|].
      intros k s2 Hk Hs2.
      apply (for_loop_c_inv (fun _ => Q)); try lia; [exact Hs2|].
      intros l s3 Hl [Hwf3 Hzero].
      apply (safe_weaken _ (fun skl' => exists x,
                              skl' = ndupd s3 [idim; k; l; iu] x));
        [apply unweight_writes; lia|].
      intros skl' [x Hx]. subst skl'.
      split; [apply wf_skl_ndupd; exact Hwf3|].
      intros i' k' l' iu' Hi' Hk' Hl' Hkl'.
      rewrite (skl_upd_other d (cols uv)); try assumption; try lia.
      + apply Hzero; assumption.
      + intros Heq. injection Heq as E1 E2 E3 E4. lia. }
  destruct (Hloop st Hwf) as [skl [st' [Hrun [Hwf' [[Hdims Hlen] Hzero]]]]].
  exists skl, st'. split.
  - unfold nrbsurfderiveval, bind. cbn [negb]. rewrite Hrun. reflexivity.
  - split; [exact Hwf'|]. split; [exact Hdims|]. split; [|exact Hzero].
    rewrite Hlen. f_equal. f_equal. f_equal. lia.
Qed.

(** *** Beyond the cache *)

Lemma fold_bind_fault {T : Type} (body : Z -> T -> Cached D T) (l : list Z) :
  forall (m : Cached D T) st,
    m st = OutOfBounds ->
    fold_left (fun m i => bind m (body i)) l m st = OutOfBounds.
Proof.
  induction l as [|i l IH]; intros m st Hm; [exact Hm|].
  simpl. apply IH. unfold bind. rewrite Hm. reflexivity.
Qed.

(* A fault in the first run of the body *)
Lemma for_loop_c_fault_first {T : Type} (lo hi : Z)
  (body : Z -> T -> Cached D T) (s : T) (st : factln_static D) :
  lo <= hi -> body lo s st = OutOfBounds ->
  for_loop_c lo hi body s st = OutOfBounds.
Proof.
  intros Hle Hbody. unfold for_loop_c. rewrite zrange_cons by assumption.
  simpl. apply fold_bind_fault. exact Hbody.
Qed.

(* A fault in the run [i] of the body, after the runs before it *)
Lemma for_loop_c_fault_at {T : Type} (lo hi i : Z)
  (body : Z -> T -> Cached D T) (s s1 : T) (st st1 : factln_static D) :
  lo <= i <= hi ->
  for_loop_c lo (i - 1) body s st = Done (s1, st1) ->
  body i s1 st1 = OutOfBounds ->
  for_loop_c lo hi body s st = OutOfBounds.
Proof.
  intros Hi Hpre Hbody.
  assert (Hgen : forall n : nat,
            for_loop_c lo (i + Z.of_nat n) body s st = OutOfBounds).
  { induction n as [|n IH].
    - rewrite for_loop_c_snoc by lia.
      replace (i + Z.of_nat 0 - 1) with (i - 1) by lia.
      replace (i + Z.of_nat 0) with i by lia.
      unfold bind. rewrite Hpre. exact Hbody.
    - rewrite for_loop_c_snoc by lia.
      replace (i + Z.of_nat (S n) - 1) with (i + Z.of_nat n) by lia.
      unfold bind. rewrite IH. reflexivity. }
  specialize (Hgen (Z.to_nat (hi - i))).
  replace (i + Z.of_nat (Z.to_nat (hi - i))) with hi in Hgen by lia.
  exact Hgen.
Qed.

Lemma factln_overrun (n : Z) (st : factln_static D) :
  wf_cache st -> 100 < n -> factln n st = OutOfBounds.
Proof.
  intros [Htop _] Hn. unfold factln.
  destruct (Z.leb_spec n 1) as [Hsmall|_]; [lia|].
  rewrite factln_fill_overrun by lia. reflexivity.
Qed.

(** X15.  The bound on the order is needed: for [d > 100] and at least one
    sample, whatever [surfderiveval] returns, the call reaches
    [bincoeff (101, 1)], whose [factln (101)] stores outside the 101 cells
    of the static array. *)
Theorem nrbsurfderiveval_overrun (srf : nurbs D) (uv : Matrix D) (d : Z)
  (st : factln_static D) :
  100 < d -> 1 <= cols uv -> wf_cache st ->
  nrbsurfderiveval surfderiveval false srf uv d st = OutOfBounds.
Proof.
  intros Hd Hn Hwf. unfold nrbsurfderiveval. cbn [negb]. unfold bind at 1.
  rewrite for_loop_c_fault_first; [reflexivity | lia |].
  unfold nrbsurfderiveval_point.
  apply for_loop_c_fault_first; [lia|].
  unfold unweight_all.
  apply for_loop_c_fault_first; [lia|].
  set (wders := surfderiveval _ _ _ _ _ _ (plane (coefs srf) 3) _ _ _).
  set (Aders := surfderiveval _ _ _ _ _ _ (plane (coefs srf) 0) _ _ _).
  set (skl0 := ndfilled _ _).
  destruct (for_loop_c_inv (fun _ (_ : NDArray D) => True) 0 (101 - 1)
              (unweight wders Aders 0 0 0) skl0 ltac:(lia) I) with (st := st)
    as [s1 [st1 [Hpre [Hwf1 _]]]]; [|exact Hwf|].
  { intros l s Hl _.
    apply (safe_weaken _ (fun skl' => exists x,
                            skl' = ndupd s [0; 0; l; 0] x));
      [apply unweight_writes; lia | auto]. }
  apply (for_loop_c_fault_at 0 (d - 0) 101 _ skl0 s1 st st1);
    [lia | exact Hpre |].
  unfold unweight. unfold bind at 1.
  rewrite for_loop_c_fault_first; [reflexivity | lia |].
  unfold bind at 1. unfold bincoeff. unfold bind at 1.
  rewrite factln_overrun; [reflexivity | exact Hwf1 | lia].
Qed.

End SurfaceShape.

(** ** [nrbsurfderiveval]: the values stored *)

Section CoherentRuns.
Context {D : Type} `{Scalar D} `{MathLib D}.
Local Open Scope Z_scope.

Lemma coherently_ret {A : Type} (x : A) (Q : A -> Prop) :
  Q x -> coherently (D:=D) (ret x) Q.
Proof. intros HQ st Hco. exists x, st. auto. Qed.

Lemma coherently_bind {A B : Type} (m : Cached D A) (f : A -> Cached D B)
  (P : A -> Prop) (Q : B -> Prop) :
  coherently m P -> (forall x, P x -> coherently (f x) Q) ->
  coherently (bind m f) Q.
Proof.
  intros Hm Hf st Hco. unfold bind.
  destruct (Hm st Hco) as [x [st1 [Hrun [Hco1 HP]]]]. rewrite Hrun.
  apply (Hf x HP st1 Hco1).
Qed.

Lemma coherently_weaken {A : Type} (m : Cached D A) (P Q : A -> Prop) :
  coherently m P -> (forall x, P x -> Q x) -> coherently m Q.
Proof.
  intros Hm HPQ st Hco. destruct (Hm st Hco) as [x [st1 [Hrun [Hco1 HP]]]].
  exists x, st1. auto.
Qed.

Lemma coherently_bincoeff (n k : Z) :
  n <= 100 -> k <= 100 -> n - k <= 100 ->
  coherently (bincoeff n k) (fun b => b = binom_value n k).
Proof.
  intros Hn Hk Hnk st Hco.
  destruct (bincoeff_value n k st Hco Hn Hk Hnk) as [st' [Hrun Hco']].
  eexists. exists st'. split; [exact Hrun|]. split; [exact Hco'|reflexivity].
Qed.

Lemma for_loop_c_coherently {T : Type} (P : Z -> T -> Prop) (lo hi : Z)
  (body : Z -> T -> Cached D T) (s : T) :
  lo <= hi + 1 ->
  P lo s ->
  (forall i s, lo <= i <= hi -> P i s -> coherently (body i s) (P (i + 1))) ->
  coherently (for_loop_c lo hi body s) (P (hi + 1)).
Proof.
  intros Hle Hinit Hstep.
  assert (Hgen : forall n : nat, lo + Z.of_nat n <= hi + 1 ->
            coherently (for_loop_c lo (lo + Z.of_nat n - 1) body s)
                       (P (lo + Z.of_nat n))).
  { induction n as [|n IH]; intros Hn.
    - rewrite for_loop_c_nil by lia. apply coherently_ret.
      replace (lo + Z.of_nat 0) with lo by lia. exact Hinit.
    - rewrite for_loop_c_snoc by lia.
      replace (lo + Z.of_nat (S n) - 1 - 1) with (lo + Z.of_nat n - 1) by lia.
      apply (coherently_bind _ _ (P (lo + Z.of_nat n))); [apply IH; lia|].
      intros x HP.
      replace (lo + Z.of_nat (S n) - 1) with (lo + Z.of_nat n) by lia.
      replace (lo + Z.of_nat (S n)) with (lo + Z.of_nat n + 1) by lia.
      apply Hstep; [lia | exact HP]. }
  specialize (Hgen (Z.to_nat (hi + 1 - lo))).
  replace (lo + Z.of_nat (Z.to_nat (hi + 1 - lo))) with (hi + 1) in Hgen by lia.
  replace (hi + 1 - 1) with hi in Hgen by lia.
  apply Hgen. lia.
Qed.

(* A loop whose body computes [g] computes the loop of [g] *)
Lemma for_loop_c_pure {T : Type} (lo hi : Z) (body : Z -> T -> Cached D T)
  (g : Z -> T -> T) (s : T) :
  (forall i s, lo <= i <= hi -> coherently (body i s) (fun x => x = g i s)) ->
  coherently (for_loop_c lo hi body s) (fun x => x = for_loop lo hi g s).
Proof.
  intros Hbody. destruct (Z_lt_le_dec hi lo) as [Hlt|Hle].
  - rewrite for_loop_c_nil, for_loop_nil by lia. apply coherently_ret.
    reflexivity.
  - apply (coherently_weaken _ (fun x => x = for_loop lo (hi + 1 - 1) g s)).
    + apply (for_loop_c_coherently
               (fun i x => x = for_loop lo (i - 1) g s)); try lia.
      * rewrite for_loop_nil by lia. reflexivity.
      * intros i s' Hi Hs'. subst s'.
        apply (coherently_weaken _ _ _ (Hbody i _ Hi)).
        intros x Hx. subst x.
        replace (i + 1 - 1) with i by lia.
        rewrite (for_loop_snoc lo i) by lia. reflexivity.
    + intros x Hx. replace (hi + 1 - 1) with hi in Hx by lia. exact Hx.
Qed.

(* The body of the loop on [l], run on a cell that still holds 0.0 *)
Lemma unweight_coherent (wders Aders : Matrix D) (idim iu k l : Z)
  (skl : NDArray D) :
  k <= 100 -> l <= 100 ->
  ndelem skl [idim; k; l; iu] = 0.0%D ->
  coherently (unweight wders Aders idim iu k l skl)
    (fun skl' =>
       skl' = ndupd skl [idim; k; l; iu]
                (unweight_value wders Aders k l
                   (fun r => ndelem skl [idim; k - r; l; iu]))).
Proof.
  intros Hk Hl Hzero. unfold unweight, unweight_value.
  eapply coherently_bind.
  { apply for_loop_c_pure with
      (g := fun j v => (v - binom_value l j * melem wders 0 j * 0.0)%D).
    intros j v Hj.
    apply (coherently_bind _ _ (fun b => b = binom_value l j));
      [apply coherently_bincoeff; lia|].
    intros b Hb. subst b. apply coherently_ret. rewrite Hzero. reflexivity. }
  cbv beta. intros v Hv. subst v.
  eapply coherently_bind.
  { apply for_loop_c_pure with
      (g := fun i v =>
              (v - binom_value k i * melem wders i 0
                   * ndelem skl [idim; (k - i)%Z; l; iu]
               - binom_value k i
                 * for_loop 1 l
                     (fun j v2 => (v2 + binom_value l j * melem1 wders i)%D)
                     0.0)%D).
    intros i v Hi.
    apply (coherently_bind _ _ (fun b => b = binom_value k i));
      [apply coherently_bincoeff; lia|].
    intros b Hb. subst b. cbv zeta.
    eapply coherently_bind.
    { unfold v2_loop. apply for_loop_c_pure with
        (g := fun j v2 => (v2 + binom_value l j * melem1 wders i)%D).
      intros j v2 Hj.
      apply (coherently_bind _ _ (fun b => b = binom_value l j));
        [apply coherently_bincoeff; lia|].
      intros b Hb. subst b. apply coherently_ret. reflexivity. }
    cbv beta. intros v2 Hv2. subst v2.
    apply (coherently_bind _ _ (fun b => b = binom_value k i));
      [apply coherently_bincoeff; lia|].
    intros b Hb. subst b. apply coherently_ret. reflexivity. }
  cbv beta. intros v Hv. subst v. apply coherently_ret. reflexivity.
Qed.

Lemma unweight_value_ext (wders Aders : Matrix D) (k l : Z)
  (prev prev' : Z -> D) :
  (forall r, 1 <= r <= k -> prev r = prev' r) ->
  unweight_value wders Aders k l prev = unweight_value wders Aders k l prev'.
Proof.
  intros Hprev. unfold unweight_value. f_equal.
  apply for_loop_ext. intros i v Hi. rewrite (Hprev i Hi). reflexivity.
Qed.

Lemma skl_state_store (d n : Z) (W : Z -> Matrix D) (A : Z -> Z -> Matrix D)
  (iu idim k l : Z) (skl : NDArray D) :
  skl_state d n W A iu idim k l skl ->
  0 <= idim <= 2 -> 0 <= k -> 0 <= l -> k + l <= d -> 0 <= iu < n ->
  skl_state d n W A iu idim k (l + 1)
    (ndupd skl [idim; k; l; iu]
       (unweight_value (W iu) (A idim iu) k l
          (fun r => ndelem skl [idim; k - r; l; iu]))).
Proof.
  intros [Hwf Hcells] Hi Hk Hl Hkl Hu.
  split; [apply wf_skl_ndupd; exact Hwf|].
  intros i' k' l' u' Hi' Hk' Hl' Hu'.
  destruct (Hcells i' k' l' u' Hi' Hk' Hl' Hu') as [Hfin Hnot].
  assert (Hcase : (idim, k, l, iu) = (i', k', l', u') \/
                  (idim, k, l, iu) <> (i', k', l', u')).
  { destruct (Z.eq_dec idim i') as [E1|N1];
      destruct (Z.eq_dec k k') as [E2|N2];
      destruct (Z.eq_dec l l') as [E3|N3];
      destruct (Z.eq_dec iu u') as [E4|N4];
      try (left; congruence); right; congruence. }
  destruct Hcase as [Heq|Hne].
  - injection Heq as E1 E2 E3 E4. subst i' k' l' u'. split.
    + intros _. rewrite (skl_upd_same d n) by (try assumption; lia).
      apply unweight_value_ext. intros r Hr.
      rewrite (skl_upd_other d n); try assumption; try lia; try reflexivity.
      intros Heq. injection Heq as E. lia.
    + intros Hc. exfalso. apply Hc. unfold finished. lia.
  - rewrite (skl_upd_other d n) by (try assumption; lia).
    assert (Hsame : finished d iu idim k (l + 1) i' k' l' u' ->
                    finished d iu idim k l i' k' l' u').
    { unfold finished. intros Hf.
      assert (Hd : idim <> i' \/ k <> k' \/ l <> l' \/ iu <> u').
      { destruct (Z.eq_dec idim i') as [E1|N1]; [|auto].
        destruct (Z.eq_dec k k') as [E2|N2]; [|auto].
        destruct (Z.eq_dec l l') as [E3|N3]; [|auto].
        destruct (Z.eq_dec iu u') as [E4|N4]; [|auto].
        exfalso. apply Hne. congruence. }
      lia. }
    split.
    + intros Hf. pose proof (Hsame Hf) as Hf0. rewrite (Hfin Hf0).
      apply unweight_value_ext. intros r Hr.
      rewrite (skl_upd_other d n); try assumption; try lia; try reflexivity.
      intros Heq. injection Heq as E1 E2 E3 E4. unfold finished in Hf0. lia.
    + intros Hc. apply Hnot. intros Hf0. apply Hc.
      unfold finished in *. lia.
Qed.

Lemma skl_state_shift (d n : Z) (W : Z -> Matrix D) (A : Z -> Z -> Matrix D)
  (iu idim k l iu' idim' k' l' : Z) (skl : NDArray D) :
  skl_state d n W A iu idim k l skl ->
  (forall i1 k1 l1 u1,
     0 <= i1 <= 2 -> 0 <= k1 <= d -> 0 <= l1 <= d -> 0 <= u1 < n ->
     (finished d iu' idim' k' l' i1 k1 l1 u1 <->
      finished d iu idim k l i1 k1 l1 u1)) ->
  skl_state d n W A iu' idim' k' l' skl.
Proof.
  intros [Hwf Hcells] Hsame. split; [exact Hwf|].
  intros i1 k1 l1 u1 Hi1 Hk1 Hl1 Hu1.
  destruct (Hcells i1 k1 l1 u1 Hi1 Hk1 Hl1 Hu1) as [Hfin Hnot].
  pose proof (Hsame i1 k1 l1 u1 Hi1 Hk1 Hl1 Hu1) as Hiff.
  split.
  - intros Hf. apply Hfin. apply Hiff. exact Hf.
  - intros Hc. apply Hnot. intros Hf. apply Hc. apply Hiff. exact Hf.
Qed.

Variable surfderiveval :
  Z -> Z -> RowVector D -> Z -> Z -> RowVector D -> Matrix D -> D -> D -> Z ->
  Matrix D.

Lemma unweight_all_state (d n : Z) (W : Z -> Matrix D)
  (A : Z -> Z -> Matrix D) (idim iu : Z) (skl : NDArray D) :
  0 <= d <= 100 -> 0 <= idim <= 2 -> 0 <= iu < n ->
  skl_state d n W A iu idim 0 0 skl ->
  coherently (unweight_all d (W iu) (A idim iu) idim iu skl)
             (skl_state d n W A iu (idim + 1) 0 0).
Proof.
  intros Hd Hi Hiu Hinv. unfold unweight_all.
  apply (coherently_weaken _ (skl_state d n W A iu idim (d + 1) 0)).
  - apply (for_loop_c_coherently (fun k => skl_state d n W A iu idim k 0));
      try lia; [exact Hinv|].
    intros k s Hk Hs.
    apply (coherently_weaken _ (skl_state d n W A iu idim k (d - k + 1))).
    + apply (for_loop_c_coherently (fun l => skl_state d n W A iu idim k l));
        try lia; [exact Hs|].
      intros l s' Hl Hs'.
      assert (Hzero : ndelem s' [idim; k; l; iu] = 0.0%D).
      { destruct Hs' as [_ Hcells].
        apply (Hcells idim k l iu); try lia.
        unfold finished. lia. }
      apply (coherently_weaken _ _ _
               (unweight_coherent (W iu) (A idim iu) idim iu k l s'
                  ltac:(lia) ltac:(lia) Hzero)).
      intros x Hx. subst x. apply skl_state_store; try assumption; lia.
    + intros x Hx.
      apply (skl_state_shift d n W A iu idim k (d - k + 1)); [exact Hx|].
      intros i1 k1 l1 u1 Hi1 Hk1 Hl1 Hu1. unfold finished. lia.
  - intros x Hx.
    apply (skl_state_shift d n W A iu idim (d + 1) 0); [exact Hx|].
    intros i1 k1 l1 u1 Hi1 Hk1 Hl1 Hu1. unfold finished. lia.
Qed.

(* The whole call, from a coherent cache *)
Lemma nrbsurfderiveval_state (srf : nurbs D) (uv : Matrix D) (d : Z)
  (st : factln_static D) :
  0 <= d <= 100 -> 0 <= cols uv -> cache_coherent st ->
  exists skl st',
    nrbsurfderiveval surfderiveval false srf uv d st = Done (Some skl, st') /\
    cache_coherent st' /\
    skl_state d (cols uv) (ders_of surfderiveval srf uv d 3)
      (ders_of surfderiveval srf uv d) (cols uv) 0 0 0 skl.
Proof.
  intros Hd Hn Hco.
  set (W := ders_of surfderiveval srf uv d 3).
  set (A := ders_of surfderiveval srf uv d).
  assert (Hloop :
    coherently
      (for_loop_c 0 (cols uv - 1)
         (nrbsurfderiveval_point surfderiveval srf uv d)
         (ndfilled [3; d + 1; d + 1; cols uv] 0.0%D))
      (skl_state d (cols uv) W A (cols uv - 1 + 1) 0 0 0)).
  { apply (for_loop_c_coherently
             (fun iu => skl_state d (cols uv) W A iu 0 0 0)); try lia.
    - split; [apply wf_skl_filled; lia|].
      intros i' k' l' u' Hi' Hk' Hl' Hu'. split.
      + unfold finished. lia.
      + intros _. apply ndelem_ndfilled.
    - intros iu s Hiu Hs. unfold nrbsurfderiveval_point.
      apply (coherently_weaken _ (skl_state d (cols uv) W A iu (2 + 1) 0 0)).
      + apply (for_loop_c_coherently
                 (fun i => skl_state d (cols uv) W A iu i 0 0));
          try lia; [exact Hs|].
        intros i s' Hi Hs'.
        apply (unweight_all_state d (cols uv) W A i iu s');
          try assumption; lia.
      + intros x Hx.
        apply (skl_state_shift d (cols uv) W A iu (2 + 1) 0 0); [exact Hx|].
        intros i1 k1 l1 u1 Hi1 Hk1 Hl1 Hu1. unfold finished. lia. }
  destruct (Hloop st Hco) as [skl [st' [Hrun [Hco' Hstate]]]].
  exists skl, st'. split.
  - unfold nrbsurfderiveval, bind. cbn [negb]. rewrite Hrun. reflexivity.
  - split; [exact Hco'|].
    replace (cols uv - 1 + 1) with (cols uv) in Hstate by lia. exact Hstate.
Qed.

(** X16.  The values of the result, as the loops compute them: from a
    coherent cache and for [0 <= d <= 100] the call returns, and every cell
    with [k + l <= d] holds
    [(Aders(k,l) - sum_j b(l,j) wders(0,j) 0.0
      - sum_i (b(k,i) wders(i,0) skl(idim,k-i,l,iu) + b(k,i) v2(i)))
     / wders(0,0)], accumulated in the order of the loops, where
    [v2(i) = sum_j b(l,j) wders(i)], [b] is the value of [bincoeff], and the
    cells [skl(idim,k-i,l,iu)] are those of the result itself: every cell is
    stored once, the first inner loop reads it while it still holds 0.0, and
    no later store changes a cell that was read. *)
Theorem nrbsurfderiveval_cells (srf : nurbs D) (uv : Matrix D) (d : Z)
  (st : factln_static D) :
  0 <= d <= 100 -> 0 <= cols uv -> cache_coherent st ->
  exists skl st',
    nrbsurfderiveval surfderiveval false srf uv d st = Done (Some skl, st') /\
    cache_coherent st' /\
    forall i k l iu,
      0 <= i <= 2 -> 0 <= k -> 0 <= l -> k + l <= d -> 0 <= iu < cols uv ->
      ndelem skl [i; k; l; iu]
      = unweight_value (ders_of surfderiveval srf uv d 3 iu)
          (ders_of surfderiveval srf uv d i iu) k l
          (fun r => ndelem skl [i; k - r; l; iu]).
Proof.
  intros Hd Hn Hco.
  destruct (nrbsurfderiveval_state srf uv d st Hd Hn Hco)
    as [skl [st' [Hrun [Hco' [_ Hcells]]]]].
  exists skl, st'. split; [exact Hrun|]. split; [exact Hco'|].
  intros i k l iu Hi Hk Hl Hkl Hiu.
  apply (Hcells i k l iu); try lia. unfold finished. lia.
Qed.

End CoherentRuns.

Section FirstOrder.
Local Open Scope Z_scope.

Variable surfderiveval :
  Z -> Z -> RowVector R -> Z -> Z -> RowVector R -> Matrix R -> R -> R -> Z ->
  Matrix R.

Lemma binom_value_1_1 : binom_value (D:=R) 1 1 = 1%R.
Proof.
  unfold binom_value, factln_value. simpl. apply floor_half_exp_0.
  r_ops. lra.
Qed.

Lemma unweight_value_0_0 (wders Aders : Matrix R) (prev : Z -> R) :
  unweight_value wders Aders 0 0 prev
  = (melem Aders 0 0 / melem wders 0 0)%R.
Proof. unfold unweight_value. rewrite !for_loop_nil by lia. reflexivity. Qed.

Lemma unweight_value_1_0 (wders Aders : Matrix R) (prev : Z -> R) :
  unweight_value wders Aders 1 0 prev
  = ((melem Aders 1 0 - melem wders 1 0 * prev 1%Z) / melem wders 0 0)%R.
Proof.
  unfold unweight_value. rewrite (for_loop_nil 1 0) by lia.
  rewrite (for_loop_snoc 1 1) by lia. rewrite !for_loop_nil by lia.
  rewrite binom_value_1_1. r_ops. unfold Rdiv. f_equal. ring.
Qed.

Lemma unweight_value_0_1 (wders Aders : Matrix R) (prev : Z -> R) :
  unweight_value wders Aders 0 1 prev
  = (melem Aders 0 1 / melem wders 0 0)%R.
Proof.
  unfold unweight_value. rewrite (for_loop_nil 1 0) by lia.
  rewrite (for_loop_snoc 1 1) by lia. rewrite !for_loop_nil by lia.
  rewrite binom_value_1_1. r_ops. unfold Rdiv. f_equal. ring.
Qed.

(** X17.  In exact arithmetic, for [1 <= d <= 100]: the cell (i,0,0,iu)
    holds [Aders(0,0) / wders(0,0)]; the cell (i,1,0,iu) holds
    [(Aders(1,0) - wders(1,0) * skl(i,0,0,iu)) / wders(0,0)], the quotient
    rule for the derivative along u; the cell (i,0,1,iu) holds
    [Aders(0,1) / wders(0,0)]: [wders(0,1)] is multiplied by the cell that
    is being computed, which holds 0 at that time. *)
Theorem nrbsurfderiveval_first_order (srf : nurbs R) (uv : Matrix R) (d : Z)
  (st : factln_static R) :
  1 <= d <= 100 -> 0 <= cols uv -> cache_coherent st ->
  exists skl st',
    nrbsurfderiveval surfderiveval false srf uv d st = Done (Some skl, st') /\
    forall i iu, 0 <= i <= 2 -> 0 <= iu < cols uv ->
      let wders := ders_of surfderiveval srf uv d 3 iu in
      let Aders := ders_of surfderiveval srf uv d i iu in
      ndelem skl [i; 0; 0; iu] = (melem Aders 0 0 / melem wders 0 0)%R /\
      ndelem skl [i; 1; 0; iu]
      = ((melem Aders 1 0 - melem wders 1 0 * ndelem skl [i; 0%Z; 0%Z; iu])
         / melem wders 0 0)%R /\
      ndelem skl [i; 0; 1; iu] = (melem Aders 0 1 / melem wders 0 0)%R.
Proof.
  intros Hd Hn Hco.
  destruct (nrbsurfderiveval_state surfderiveval srf uv d st
              ltac:(lia) Hn Hco) as [skl [st' [Hrun [_ [_ Hcells]]]]].
  exists skl, st'. split; [exact Hrun|].
  intros i iu Hi Hiu. simpl.
  assert (Hfin : forall k l, 0 <= k -> 0 <= l -> k + l <= d ->
            finished d (cols uv) 0 0 0 i k l iu)
    by (intros k l Hk Hl Hkl; unfold finished; lia).
  destruct (Hcells i 0 0 iu Hi ltac:(lia) ltac:(lia) Hiu) as [H00 _].
  destruct (Hcells i 1 0 iu Hi ltac:(lia) ltac:(lia) Hiu) as [H10 _].
  destruct (Hcells i 0 1 iu Hi ltac:(lia) ltac:(lia) Hiu) as [H01 _].
  specialize (H00 (Hfin 0 0 ltac:(lia) ltac:(lia) ltac:(lia))).
  specialize (H10 (Hfin 1 0 ltac:(lia) ltac:(lia) ltac:(lia))).
  specialize (H01 (Hfin 0 1 ltac:(lia) ltac:(lia) ltac:(lia))).
  rewrite unweight_value_0_0 in H00.
  rewrite unweight_value_1_0 in H10.
  rewrite unweight_value_0_1 in H01.
  replace (1 - 1) with 0 in H10 by lia.
  split; [exact H00|]. split; [exact H10|exact H01].
Qed.

End FirstOrder.

Lemma nrbsurfderiveval_shape_witness :
  exists skl st',
    nrbsurfderiveval surfderiveval_const false srf_flat uv_one 1 factln_init
      = Done (Some skl, st') /\
    wf_cache st' /\
    dims skl = [3; 1 + 1; 1 + 1; cols uv_one]%Z /\
    numel (nddata skl) = (3 * ((1 + 1) * ((1 + 1) * cols uv_one)))%Z /\
    forall i k l iu,
      (0 <= i <= 2)%Z -> (0 <= k <= 1)%Z -> (0 <= l <= 1)%Z ->
      (1 < k + l)%Z -> ndelem skl [i; k; l; iu] = 0%R.
Proof.
  exact (nrbsurfderiveval_shape surfderiveval_const srf_flat uv_one 1
           factln_init ltac:(lia) ltac:(simpl; lia) wf_cache_init).
Defined.

Lemma nrbsurfderiveval_overrun_witness :
  nrbsurfderiveval surfderiveval_const false srf_flat uv_one 101 factln_init
  = OutOfBounds.
Proof.
  apply (nrbsurfderiveval_overrun surfderiveval_const srf_flat uv_one 101
           factln_init).
  - lia.
  - simpl. lia.
  - exact wf_cache_init.
Defined.

Lemma nrbsurfderiveval_cells_witness :
  exists skl st',
    nrbsurfderiveval surfderiveval_const false srf_flat uv_one 2 factln_init
      = Done (Some skl, st') /\
    cache_coherent st' /\
    forall i k l iu,
      (0 <= i <= 2)%Z -> (0 <= k)%Z -> (0 <= l)%Z -> (k + l <= 2)%Z ->
      (0 <= iu < cols uv_one)%Z ->
      ndelem skl [i; k; l; iu]
      = unweight_value (ders_of surfderiveval_const srf_flat uv_one 2 3 iu)
          (ders_of surfderiveval_const srf_flat uv_one 2 i iu) k l
          (fun r => ndelem skl [i; (k - r)%Z; l; iu]).
Proof.
  apply (nrbsurfderiveval_cells surfderiveval_const srf_flat uv_one 2
           factln_init).
  - lia.
  - simpl. lia.
  - exact cache_coherent_init.
Defined.

Lemma nrbsurfderiveval_first_order_witness :
  exists skl st',
    nrbsurfderiveval surfderiveval_const false srf_flat uv_one 1 factln_init
      = Done (Some skl, st') /\
    forall i iu, (0 <= i <= 2)%Z -> (0 <= iu < cols uv_one)%Z ->
      let wders := ders_of surfderiveval_const srf_flat uv_one 1 3 iu in
      let Aders := ders_of surfderiveval_const srf_flat uv_one 1 i iu in
      ndelem skl [i; 0; 0; iu]%Z = (melem Aders 0 0 / melem wders 0 0)%R /\
      ndelem skl [i; 1; 0; iu]%Z
      = ((melem Aders 1 0 - melem wders 1 0 * ndelem skl [i; 0%Z; 0%Z; iu])
         / melem wders 0 0)%R /\
      ndelem skl [i; 0; 1; iu]%Z = (melem Aders 0 1 / melem wders 0 0)%R.
Proof.
  exact (nrbsurfderiveval_first_order surfderiveval_const srf_flat uv_one 1
           factln_init ltac:(lia) ltac:(simpl; lia) cache_coherent_init).
Defined.

(** ** Samples below the domain, and rows of the entry point [basisfun] *)

Section FindSpanBelow.
Context {D : Type} `{Scalar D} {HO : OrderLaws D}.
Local Open Scope Z_scope.

(* A sample below a knot is below every later knot *)
Lemma lt_knot_later (u : D) (U : RowVector D) (p mid : Z) :
  nondecreasing U -> 0 <= p <= mid -> mid < numel U -> 1 < numel U ->
  le_d u (elem U p) -> (u ==? elem U p)%D = false ->
  (u <? elem U mid)%D = true.
Proof.
  intros Hs Hp Hmid Hlen Hle Hne.
  pose proof (le_neq_lt _ _ Hle Hne) as Hlt.
  destruct (Z.eq_dec mid p) as [Heq|Hdiff]; [subst mid; exact Hlt|].
  pose proof (nondecreasing_lt U p mid Hs ltac:(lia) ltac:(lia) Hmid) as Hpm.
  destruct (u <? elem U mid)%D eqn:E; [reflexivity|exfalso].
  destruct (le_number _ _ Hle) as [Hu _].
  destruct (le_number _ _ Hpm) as [_ Hm].
  pose proof (not_lt_le _ _ Hu Hm E) as Hmu.
  pose proof (le_trans _ _ _ Hpm Hmu) as Hpu.
  apply lt_not_ge in Hlt. unfold le_d in Hpu. congruence.
Qed.

Lemma findspan_loop_below (n p : Z) (u : D) (U : RowVector D) (fuel : nat) :
  nondecreasing U -> 0 <= p <= n -> n + 1 < numel U ->
  le_d u (elem U p) -> (u ==? elem U p)%D = false ->
  forall high,
    p <= high <= n + 1 ->
    findspan_loop fuel u U (p, high, Z.quot (p + high) 2) = None.
Proof.
  intros Hs Hp Hn Hle Hne. induction fuel as [|fuel IH]; intros high Hhigh.
  - reflexivity.
  - pose proof (quot2_mid p high ltac:(lia) ltac:(lia)) as Hmid.
    set (mid := Z.quot (p + high) 2) in *.
    assert (Hlt : (u <? elem U mid)%D = true)
      by (apply (lt_knot_later u U p mid); try assumption; lia).
    simpl. unfold findspan_step. fold mid. rewrite Hlt. simpl.
    apply IH. lia.
Qed.

(** X18.  A sample below the domain hangs the search as well: for a
    non-decreasing [U], [0 <= p <= n], and [u <= U(p)] with [u != U(p)]
    (and [u != U(n+1)], the value of the special case), [low] stays at [p]
    and the loop of [findspan] is still running after any number of
    tests. *)
Theorem findspan_below_domain (n p : Z) (u : D) (U : RowVector D) :
  nondecreasing U -> 0 <= p <= n -> n + 1 < numel U ->
  le_d u (elem U p) -> (u ==? elem U p)%D = false ->
  (u ==? elem U (n + 1))%D = false ->
  forall fuel, findspan fuel n p u U = None.
Proof.
  intros Hs Hp Hn Hle Hne Hne' fuel. unfold findspan. rewrite Hne'.
  apply (findspan_loop_below n); try assumption; lia.
Qed.

End FindSpanBelow.

Lemma findspan_below_domain_witness :
  findspan 1000 3 2 (-1)%float U_test = None.
Proof.
  exact (@findspan_below_domain float _ _ 3%Z 2%Z (-1)%float U_test
           U_test_nondecreasing ltac:(lia)
           ltac:(vm_compute; reflexivity) eq_refl eq_refl eq_refl 1000%nat).
Defined.

Section EntryRows.
Context {D : Type} `{Scalar D} `{ToInt D}.
Local Open Scope Z_scope.

(** X19.  The entry point [basisfun] keeps its samples apart although it
    passes the same vector [N] to every call: for [p >= 0], spans read
    inside [i] and knots read inside [U], the result has one row per sample
    and [p + 1] columns, and its row [ii] is what [basisfun] computes for
    [int (i(ii))] and [u(ii)] from a vector of zeros. *)
Theorem basisfun_oct_rows (i u : RowVector D) (p : Z) (U : RowVector D) :
  0 <= p -> numel u <= numel i ->
  (forall ii, 0 <= ii < numel u ->
     0 <= to_int (elem i ii) + 1 - p /\ to_int (elem i ii) + p < numel U) ->
  exists B,
    basisfun_oct false i u p U = Some B /\
    rows B = numel u /\ cols B = p + 1 /\
    forall ii j, 0 <= ii < numel u -> 0 <= j <= p ->
      melem B ii j
      = elem (basisfun (to_int (elem i ii)) (elem u ii) p U
                (filled (p + 1) 0.0%D)) j.
Proof.
  intros Hp Hlen Hknots.
  assert (Hnu : 0 <= numel u) by (unfold numel; lia).
  eexists. split; [unfold basisfun_oct; cbn [negb]; reflexivity|].
  pose proof (for_loop_inv
    (fun ii (st : Matrix D * RowVector D) =>
       wf_matrix (fst st) /\ rows (fst st) = numel u /\
       cols (fst st) = p + 1 /\ numel (snd st) = p + 1 /\
       forall r j, 0 <= r < ii -> 0 <= j <= p ->
         melem (fst st) r j
         = elem (basisfun (to_int (elem i r)) (elem u r) p U
                   (filled (p + 1) 0.0%D)) j)
    0 (numel u - 1) (basisfun_oct_row i u p U)
    (mfilled (numel u) (p + 1) 0.0%D, filled (p + 1) 0.0%D) ltac:(lia))
    as Hloop.
  cbv beta in Hloop.
  replace (numel u - 1 + 1) with (numel u) in Hloop by lia.
  destruct Hloop as [_ [Hr [Hc [_ Hall]]]].
  - simpl. split; [apply wf_mfilled; lia|]. split; [reflexivity|].
    split; [reflexivity|]. split; [rewrite numel_filled; lia|].
    intros r j Hr. lia.
  - intros ii [B N] Hii [HwfB [HrB [HcB [HN Hdone]]]]. simpl in *.
    set (N' := basisfun (to_int (elem i ii)) (elem u ii) p U N).
    assert (HN' : numel N' = p + 1)
      by (unfold N'; rewrite numel_basisfun; exact HN).
    assert (Hfit : 0 + numel N' <= cols B) by lia.
    pose proof (minsert_spec B N' ii 0 HwfB ltac:(lia) ltac:(lia) Hfit)
      as Hins.
    simpl in Hins. destruct Hins as [Hwf' [Hr' [Hc' [Hrow Hother]]]].
    split; [exact Hwf'|]. split; [congruence|]. split; [congruence|].
    split; [exact HN'|]. intros r j Hr Hj.
    destruct (Z.eq_dec r ii) as [Heq|Hne].
    + subst r. replace j with (0 + j) at 1 by lia.
      rewrite Hrow by lia. unfold N'.
      rewrite (basisfun_indep _ _ p U N (filled (p + 1) 0.0%D) Hp HN)
        by (rewrite numel_filled; lia).
      reflexivity.
    + rewrite Hother by lia. apply Hdone; lia.
  - split; [exact Hr|]. split; [exact Hc|]. exact Hall.
Qed.

End EntryRows.

Lemma basisfun_oct_rows_witness :
  exists B,
    basisfun_oct false [2; 2; 3]%float u_test 2 U_test = Some B /\
    rows B = numel u_test /\ cols B = (2 + 1)%Z /\
    forall ii j, (0 <= ii < numel u_test)%Z -> (0 <= j <= 2)%Z ->
      melem B ii j
      = elem (basisfun (to_int (elem [2; 2; 3]%float ii)) (elem u_test ii)
                2 U_test (filled (2 + 1) 0.0%D)) j.
Proof.
  apply (@basisfun_oct_rows float _ _ [2; 2; 3]%float u_test 2%Z U_test).
  - lia.
  - vm_compute. discriminate.
  - intros ii Hii. change (numel u_test) with 3%Z in Hii.
    assert (Hc : (ii = 0 \/ ii = 1 \/ ii = 2)%Z) by lia.
    destruct Hc as [Hc|[Hc|Hc]]; subst ii; vm_compute;
      split; try discriminate; reflexivity.
Defined.
